(** * Log-streaming pipeline of vercel-clone-service (Go port)

    A shallow embedding of
      - build-server-go/main.go : [publishLog], [runBuild], [uploadFiles], [main]
      - api-server-go/main.go   : [handleWebSocket], [subscribeAndForward]
    together with a small model of the collaborators the Go code calls into
    (encoding/json, the Redis pub/sub broker, the viewer's WebSocket). *)

From Stdlib Require Import Ascii String.
From stdpp Require Import base option list gmap strings.

Local Open Scope string_scope.
Local Open Scope list_scope.

Set Warnings "-register-all".

(** ** Characters that cannot be typed inside a Rocq string literal *)

Definition dquote : ascii := "034"%char.
Definition bslash : ascii := "092"%char.
Definition newline : ascii := "010"%char.
Definition q : string := String dquote EmptyString.
Definition nl : string := String newline EmptyString.

(** ** encoding/json, as far as [json.Unmarshal(payload, &LogMessage{})] needs it *)

Module JSON.

Inductive value : Type :=
| Null
| Bool (b : bool)
| Number (literal : string)
| Str (s : string)
| Array (elems : list value)
| Object (members : list (string * value)).

Definition is_ws (c : ascii) : bool :=
  (c =? " ")%char || (c =? "009")%char || (c =? "010")%char || (c =? "013")%char.

Fixpoint skip_ws (s : list ascii) : list ascii :=
  match s with
  | c :: r => if is_ws c then skip_ws r else s
  | [] => []
  end.

Definition is_digit (c : ascii) : bool :=
  let n := nat_of_ascii c in (48 <=? n)%nat && (n <=? 57)%nat.

Definition hex_val (c : ascii) : option N :=
  let n := N_of_ascii c in
  if (48 <=? n)%N && (n <=? 57)%N then Some (n - 48)%N
  else if (65 <=? n)%N && (n <=? 70)%N then Some (n - 55)%N
  else if (97 <=? n)%N && (n <=? 102)%N then Some (n - 87)%N
  else None.

Definition hex4 (a b c d : ascii) : option N :=
  x1 ← hex_val a; x2 ← hex_val b; x3 ← hex_val c; x4 ← hex_val d;
  Some (x1 * 4096 + x2 * 256 + x3 * 16 + x4)%N.

Definition byte (n : N) : ascii := ascii_of_N n.

(** UTF-8 encoding of a code point, as [utf8.EncodeRune]. *)
Definition utf8 (cp : N) : list ascii :=
  if (cp <? 128)%N then [byte cp]
  else if (cp <? 2048)%N then
    [byte (192 + cp / 64); byte (128 + cp mod 64)]
  else if (cp <? 65536)%N then
    [byte (224 + cp / 4096); byte (128 + (cp / 64) mod 64); byte (128 + cp mod 64)]
  else
    [byte (240 + cp / 262144); byte (128 + (cp / 4096) mod 64);
     byte (128 + (cp / 64) mod 64); byte (128 + cp mod 64)].

Definition is_hi_surrogate (cp : N) : bool := (55296 <=? cp)%N && (cp <? 56320)%N.
Definition is_lo_surrogate (cp : N) : bool := (56320 <=? cp)%N && (cp <? 57344)%N.
Definition replacement : N := 65533%N.

(** The body of a string literal, after the opening quote: the bytes it
    stands for, with the escapes taken out, and the input that follows the
    closing quote.  A raw control character (below 0x20), an unknown escape
    or a missing closing quote is a syntax error.  Bytes above 0x7F are
    copied as they are here; [toValidUTF8] below brings them to well-formed
    UTF-8 afterwards. *)
Fixpoint scan_string (s : list ascii) : option (list ascii * list ascii) :=
  match s with
  | [] => None
  | c :: r =>
      if (c =? dquote)%char then Some ([], r)
      else if (c =? bslash)%char then
        match r with
        | e :: r1 =>
            let plain (b : ascii) :=
              '(t, r2) ← scan_string r1; Some (b :: t, r2) in
            if (e =? dquote)%char then plain dquote
            else if (e =? bslash)%char then plain bslash
            else if (e =? "/")%char then plain "/"%char
            else if (e =? "b")%char then plain "008"%char
            else if (e =? "f")%char then plain "012"%char
            else if (e =? "n")%char then plain "010"%char
            else if (e =? "r")%char then plain "013"%char
            else if (e =? "t")%char then plain "009"%char
            else if (e =? "u")%char then
              match r1 with
              | h1 :: h2 :: h3 :: h4 :: r2 =>
                  cp ← hex4 h1 h2 h3 h4;
                  if is_hi_surrogate cp then
                    match r2 with
                    | b' :: u' :: l1 :: l2 :: l3 :: l4 :: r3 =>
                        match (if (b' =? bslash)%char && (u' =? "u")%char
                               then hex4 l1 l2 l3 l4 else None) with
                        | Some lo =>
                            if is_lo_surrogate lo then
                              '(t, r4) ← scan_string r3;
                              Some (utf8 (65536 + (cp - 55296) * 1024 + (lo - 56320))%N ++ t, r4)
                            else
                              '(t, r4) ← scan_string r2; Some (utf8 replacement ++ t, r4)
                        | None =>
                            '(t, r4) ← scan_string r2; Some (utf8 replacement ++ t, r4)
                        end
                    | _ => '(t, r4) ← scan_string r2; Some (utf8 replacement ++ t, r4)
                    end
                  else if is_lo_surrogate cp then
                    '(t, r4) ← scan_string r2; Some (utf8 replacement ++ t, r4)
                  else
                    '(t, r4) ← scan_string r2; Some (utf8 cp ++ t, r4)
              | _ => None
              end
            else None
        | [] => None
        end
      else if (N_of_ascii c <? 32)%N then None
      else '(t, r1) ← scan_string r; Some (c :: t, r1)
  end.

(** [encoding/json] coerces the text of a string to well-formed UTF-8:
    every byte that does not begin a well-formed sequence, as
    [utf8.DecodeRune] reads it, becomes U+FFFD.  An escape stands for a whole
    sequence and a raw sequence is never completed by one, so the coercion can
    be done once the escapes are out. *)
Definition is_cont (b : ascii) : bool :=
  ((128 <=? N_of_ascii b)%N && (N_of_ascii b <=? 191)%N)%bool.

(** The second byte of a sequence of three or four, by its first byte. *)
Definition second_ok (lead b : ascii) : bool :=
  let n := N_of_ascii lead in
  let m := N_of_ascii b in
  if (n =? 224)%N then ((160 <=? m)%N && (m <=? 191)%N)%bool
  else if (n =? 237)%N then ((128 <=? m)%N && (m <=? 159)%N)%bool
  else if (n =? 240)%N then ((144 <=? m)%N && (m <=? 191)%N)%bool
  else if (n =? 244)%N then ((128 <=? m)%N && (m <=? 143)%N)%bool
  else is_cont b.

Fixpoint toValidUTF8 (l : list ascii) : list ascii :=
  match l with
  | [] => []
  | c :: r =>
      let n := N_of_ascii c in
      if (n <? 128)%N then c :: toValidUTF8 r
      else
        let bad := utf8 replacement ++ toValidUTF8 r in
        match r with
        | [] => bad
        | b1 :: r1 =>
            if ((194 <=? n)%N && (n <=? 223)%N)%bool then
              if is_cont b1 then c :: b1 :: toValidUTF8 r1 else bad
            else if ((224 <=? n)%N && (n <=? 239)%N)%bool then
              match r1 with
              | b2 :: r2 =>
                  if (second_ok c b1 && is_cont b2)%bool
                  then c :: b1 :: b2 :: toValidUTF8 r2 else bad
              | [] => bad
              end
            else if ((240 <=? n)%N && (n <=? 244)%N)%bool then
              match r1 with
              | b2 :: b3 :: r3 =>
                  if (second_ok c b1 && is_cont b2 && is_cont b3)%bool
                  then c :: b1 :: b2 :: b3 :: toValidUTF8 r3 else bad
              | _ => bad
              end
            else bad
        end
  end.

(** The text of a string literal or of a key, from the bytes scanned. *)
Definition text_of (t : list ascii) : string := string_of_list_ascii (toValidUTF8 t).

Fixpoint take_digits (s : list ascii) : list ascii * list ascii :=
  match s with
  | c :: r => if is_digit c then let '(d, r') := take_digits r in (c :: d, r') else ([], s)
  | [] => ([], [])
  end.

(** A number literal: an optional minus sign, then a single zero or a
    non-zero digit followed by digits, then an optional fraction (a dot and
    at least one digit) and an optional exponent (e or E, an optional sign
    and at least one digit). *)
Definition scan_number (s : list ascii) : option (list ascii * list ascii) :=
  let '(sign, s1) :=
    match s with
    | c :: r => if (c =? "-")%char then ([c], r) else ([], s)
    | [] => ([], s)
    end in
  '(int, s2) ←
    match s1 with
    | c :: r =>
        if (c =? "0")%char then Some ([c], r)
        else if is_digit c then let '(d, r') := take_digits r in Some (c :: d, r')
        else None
    | [] => None
    end;
  '(frac, s3) ←
    match s2 with
    | c :: r =>
        if (c =? ".")%char then
          match take_digits r with
          | ([], _) => None
          | (d, r') => Some (c :: d, r')
          end
        else Some ([], s2)
    | [] => Some ([], s2)
    end;
  '(exp, s4) ←
    match s3 with
    | c :: r =>
        if (c =? "e")%char || (c =? "E")%char then
          let '(sg, r1) :=
            match r with
            | c' :: r' => if (c' =? "+")%char || (c' =? "-")%char then ([c'], r') else ([], r)
            | [] => ([], r)
            end in
          match take_digits r1 with
          | ([], _) => None
          | (d, r') => Some (c :: sg ++ d, r')
          end
        else Some ([], s3)
    | [] => Some ([], s3)
    end;
  Some (sign ++ int ++ frac ++ exp, s4).

Definition starts_with (p : string) (s : list ascii) : option (list ascii) :=
  let pl := list_ascii_of_string p in
  if decide (take (length pl) s = pl) then Some (drop (length pl) s) else None.

(** One JSON value, by recursive descent; [n] bounds the number of nested
    calls, and every call consumes at least one character before the next
    one, so the length of the input plus one is always enough. *)
Fixpoint parse_value (n : nat) (s : list ascii) : option (value * list ascii) :=
  match n with
  | O => None
  | S n' =>
      match skip_ws s with
      | [] => None
      | c :: r =>
          if (c =? "{")%char then
            match skip_ws r with
            | c' :: r' =>
                if (c' =? "}")%char then Some (Object [], r')
                else '(ms, r2) ← parse_members n' (c' :: r'); Some (Object ms, r2)
            | [] => None
            end
          else if (c =? "[")%char then
            match skip_ws r with
            | c' :: r' =>
                if (c' =? "]")%char then Some (Array [], r')
                else '(es, r2) ← parse_elems n' (c' :: r'); Some (Array es, r2)
            | [] => None
            end
          else if (c =? dquote)%char then
            '(t, r1) ← scan_string r; Some (Str (text_of t), r1)
          else if (c =? "-")%char || is_digit c then
            '(t, r1) ← scan_number (c :: r); Some (Number (string_of_list_ascii t), r1)
          else
            match starts_with "true" (c :: r), starts_with "false" (c :: r),
                  starts_with "null" (c :: r) with
            | Some r1, _, _ => Some (Bool true, r1)
            | _, Some r1, _ => Some (Bool false, r1)
            | _, _, Some r1 => Some (Null, r1)
            | _, _, _ => None
            end
      end
  end
with parse_members (n : nat) (s : list ascii) : option (list (string * value) * list ascii) :=
  match n with
  | O => None
  | S n' =>
      match skip_ws s with
      | c :: r =>
          if (c =? dquote)%char then
            '(k, r1) ← scan_string r;
            match skip_ws r1 with
            | c1 :: r2 =>
                if (c1 =? ":")%char then
                  '(v, r3) ← parse_value n' r2;
                  match skip_ws r3 with
                  | c3 :: r4 =>
                      if (c3 =? ",")%char then
                        '(ms, r5) ← parse_members n' r4;
                        Some ((text_of k, v) :: ms, r5)
                      else if (c3 =? "}")%char then
                        Some ([(text_of k, v)], r4)
                      else None
                  | [] => None
                  end
                else None
            | [] => None
            end
          else None
      | [] => None
      end
  end
with parse_elems (n : nat) (s : list ascii) : option (list value * list ascii) :=
  match n with
  | O => None
  | S n' =>
      '(v, r1) ← parse_value n' s;
      match skip_ws r1 with
      | c :: r2 =>
          if (c =? ",")%char then
            '(es, r3) ← parse_elems n' r2; Some (v :: es, r3)
          else if (c =? "]")%char then Some ([v], r2)
          else None
      | [] => None
      end
  end.

(** A whole document with [n] levels of fuel: one value, then only white space. *)
Definition parse_fuel (n : nat) (s : string) : option value :=
  '(v, r) ← parse_value n (list_ascii_of_string s);
  match skip_ws r with [] => Some v | _ => None end.

Definition parse (s : string) : option value :=
  parse_fuel (S (String.length s)) s.

(** [s] is a JSON text denoting [v]. *)
Definition denotes (s : string) (v : value) : Prop :=
  exists n, parse_fuel n s = Some v.

Definition valid (s : string) : Prop := exists v, denotes s v.

End JSON.

(** The struct the forwarder decodes into: [type LogMessage struct { Log string `json:"log"` }]. *)
Record LogMessage := { Log : string }.

Definition lower (c : ascii) : ascii :=
  let n := nat_of_ascii c in
  if (65 <=? n)%nat && (n <=? 90)%nat then ascii_of_nat (n + 32) else c.

(** The folding under which [encoding/json] matches the key of a member
    with the name of a field: ASCII letters without regard to case, and the
    two letters outside ASCII that fold to an ASCII one, the long s (U+017F,
    the bytes C5 BF) to [s] and the Kelvin sign (U+212A, the bytes E2 84 AA)
    to [k]. *)
Fixpoint foldName (l : list ascii) : list ascii :=
  match l with
  | [] => []
  | a :: r =>
      match r with
      | [] => [lower a]
      | b :: r1 =>
          if (a =? "197")%char && (b =? "191")%char then "s"%char :: foldName r1
          else
            match r1 with
            | [] => lower a :: foldName r
            | c :: r2 =>
                if (a =? "226")%char && (b =? "132")%char && (c =? "170")%char
                then "k"%char :: foldName r2
                else lower a :: foldName r
            end
      end
  end.

Definition equalFold (a b : string) : bool :=
  bool_decide (foldName (list_ascii_of_string a) = foldName (list_ascii_of_string b)).

(** The members of a JSON object are stored into the struct in the order
    they appear; a [log] member must be a string or null, anything else is an
    [UnmarshalTypeError]. *)
Fixpoint decode_members (ms : list (string * JSON.value)) (acc : LogMessage) : option LogMessage :=
  match ms with
  | [] => Some acc
  | (k, v) :: rest =>
      if equalFold k "log" then
        match v with
        | JSON.Str s => decode_members rest {| Log := s |}
        | JSON.Null => decode_members rest acc
        | _ => None
        end
      else decode_members rest acc
  end.

(** [json.Unmarshal([]byte(payload), &logMsg)] on a fresh [logMsg]; [None]
    stands for [err != nil] (a syntax error, or a value of the wrong type). *)
Definition unmarshalLogMessage (payload : string) : option LogMessage :=
  match JSON.parse payload with
  | Some (JSON.Object ms) => decode_members ms {| Log := "" |}
  | Some JSON.Null => Some {| Log := "" |}
  | _ => None
  end.

(** ** build-server-go/main.go *)

Module Build.

Definition error := string.

Record S3Object := {
  o_bucket : string;
  o_key : string;
  o_contentType : string;
  o_body : string  (* the path of the file that is opened and sent *)
}.

(** One call of [Read] on a pipe: the bytes placed in the buffer
    ([buf[:n]], so [n > 0] is [r_data <> ""]) and whether [err != nil]. *)
Record ReadResult := { r_data : string; r_err : bool }.

Inductive Stream := Stdout | Stderr.

#[global] Instance Stream_eq_dec : EqDecision Stream.
Proof. solve_decision. Defined.

(** Everything outside the main goroutine that the build server acts on.
    [w_replies k] is what the broker answers to the [k]-th PUBLISH of the
    run: [None] when it accepts the message, [Some e] when it fails with [e].
    [w_broker] lists the (channel, payload) pairs the broker accepted,
    [w_log] the lines written with package [log], [w_s3] the objects put.

    The last three fields are for the reader goroutines once [cmd.Wait] has
    returned, for nothing joins them: [w_stdout] and [w_stderr] are what the
    coming calls of [Read] on the two pipes return, and [w_sched] holds the
    coming choices of the scheduler: for each point at which the main
    goroutine can be overtaken, the reader iterations that run there. *)
Record World := {
  w_replies : nat -> option error;
  w_npub : nat;
  w_broker : list (string * string);
  w_log : list string;
  w_s3 : list S3Object;
  w_stdout : list ReadResult;
  w_stderr : list ReadResult;
  w_sched : list (list Stream)
}.

Definition M (A : Type) : Type := World -> A * World.

#[global] Instance M_ret : MRet M := fun A (a : A) w => (a, w).
#[global] Instance M_bind : MBind M :=
  fun A B (k : A -> M B) (m : M A) w => let '(a, w') := m w in k a w'.

(** [log.Print], [log.Println], [log.Printf]: the formatted text, without
    the time stamp the logger puts in front. *)
Definition logPrint (line : string) : M unit := fun w =>
  (tt, {| w_replies := w_replies w; w_npub := w_npub w; w_broker := w_broker w;
          w_log := w_log w ++ [line]; w_s3 := w_s3 w;
          w_stdout := w_stdout w; w_stderr := w_stderr w; w_sched := w_sched w |}).

(** [bs.publisher.Publish(ctx, channel, message).Err()] *)
Definition Publish (channel message : string) : M (option error) := fun w =>
  let r := w_replies w (w_npub w) in
  (r, {| w_replies := w_replies w; w_npub := S (w_npub w);
         w_broker := match r with
                     | None => w_broker w ++ [(channel, message)]
                     | Some _ => w_broker w
                     end;
         w_log := w_log w; w_s3 := w_s3 w;
         w_stdout := w_stdout w; w_stderr := w_stderr w; w_sched := w_sched w |}).

(** [bs.s3Client.PutObject] when it succeeds. *)
Definition PutObject (o : S3Object) : M unit := fun w =>
  (tt, {| w_replies := w_replies w; w_npub := w_npub w; w_broker := w_broker w;
          w_log := w_log w; w_s3 := w_s3 w ++ [o];
          w_stdout := w_stdout w; w_stderr := w_stderr w; w_sched := w_sched w |}).

Record BuildServer := { projectID : string }.

(** [fmt.Sprintf(`{"log":"%s"}`, message)] *)
Definition logMessage (message : string) : string :=
  "{" +:+ q +:+ "log" +:+ q +:+ ":" +:+ q +:+ message +:+ q +:+ "}".

(** [fmt.Sprintf("logs:%s", bs.projectID)] *)
Definition channel (bs : BuildServer) : string := "logs:" +:+ projectID bs.

Definition publishLog (bs : BuildServer) (message : string) : M unit :=
  err ← Publish (channel bs) (logMessage message);
  match err with
  | Some e => logPrint ("Failed to publish log: " +:+ e)
  | None => mret tt
  end.

(** The body of the [for] loop of a reader goroutine, up to the test of [err]. *)
Definition readerStep (bs : BuildServer) (st : Stream) (r : ReadResult) : M unit :=
  if String.eqb (r_data r) "" then mret tt
  else
    match st with
    | Stdout => logPrint (r_data r);; publishLog bs (r_data r)
    | Stderr => logPrint ("Error: " +:+ r_data r);; publishLog bs ("error: " +:+ r_data r)
    end.

(** The two reader goroutines, interleaved by [sched]: each entry lets one
    goroutine run one iteration of its loop on the next result of its pipe.
    A goroutine that has seen an error has left its loop ([break]).  Nothing
    waits for the goroutines: [runBuild] goes on when [cmd.Wait] returns;
    [e_sched] lists the iterations that have run by then, and the later ones
    run at the points where the main goroutine yields. *)
Fixpoint readers (bs : BuildServer) (sched : list Stream)
    (out err : list ReadResult) : M unit :=
  match sched with
  | [] => mret tt
  | Stdout :: sched' =>
      match out with
      | [] => readers bs sched' [] err
      | r :: out' =>
          readerStep bs Stdout r;;
          readers bs sched' (if r_err r then [] else out') err
      end
  | Stderr :: sched' =>
      match err with
      | [] => readers bs sched' out []
      | r :: err' =>
          readerStep bs Stderr r;;
          readers bs sched' out (if r_err r then [] else err')
      end
  end.

(** The same loop call by call.  [Publish(...).Err()] is a synchronous call
    and [context.Background()] sets no deadline: the goroutine is inside
    [publishLog] from the moment the PUBLISH is sent until the broker has
    answered (or the client has given up, which [w_replies] counts as an
    answer with an error).  It calls [Read] again only after that. *)
Inductive ReaderPc :=
| AtRead                                        (* in a call of Read on its pipe *)
| InPublish (message : string) (last : bool)    (* inside publishLog; [last]: Read gave an error *)
| Left.                                         (* after break *)

Record Reader := {
  rd_pc : ReaderPc;
  rd_pipe : list ReadResult;    (* what the coming calls of Read return *)
  rd_world : World
}.

Inductive ReaderEvent :=
| ReadReturns       (* the call of Read returns *)
| BrokerAnswers.    (* the answer to the PUBLISH arrives *)

Definition readerLoop (bs : BuildServer) (st : Stream) (r : Reader) (e : ReaderEvent)
    : option Reader :=
  match rd_pc r, e with
  | AtRead, ReadReturns =>
      match rd_pipe r with
      | [] => None
      | res :: rest =>
          if String.eqb (r_data res) "" then
            Some {| rd_pc := if r_err res then Left else AtRead;
                    rd_pipe := rest; rd_world := rd_world r |}
          else
            match st with
            | Stdout =>
                Some {| rd_pc := InPublish (r_data res) (r_err res); rd_pipe := rest;
                        rd_world := snd (logPrint (r_data res) (rd_world r)) |}
            | Stderr =>
                Some {| rd_pc := InPublish ("error: " +:+ r_data res) (r_err res);
                        rd_pipe := rest;
                        rd_world := snd (logPrint ("Error: " +:+ r_data res) (rd_world r)) |}
            end
      end
  | InPublish message last, BrokerAnswers =>
      Some {| rd_pc := if last then Left else AtRead; rd_pipe := rd_pipe r;
              rd_world := snd (publishLog bs message (rd_world r)) |}
  | _, _ => None
  end.

Fixpoint runReader (bs : BuildServer) (st : Stream) (r : Reader) (es : list ReaderEvent)
    : option Reader :=
  match es with
  | [] => Some r
  | e :: es' => r' ← readerLoop bs st r e; runReader bs st r' es'
  end.

(** What the iterations of [sched] leave in the two pipes. *)
Fixpoint unread (sched : list Stream) (out err : list ReadResult)
    : list ReadResult * list ReadResult :=
  match sched with
  | [] => (out, err)
  | Stdout :: sched' =>
      match out with
      | [] => unread sched' [] err
      | r :: out' => unread sched' (if r_err r then [] else out') err
      end
  | Stderr :: sched' =>
      match err with
      | [] => unread sched' out []
      | r :: err' => unread sched' out (if r_err r then [] else err')
      end
  end.

(** [cmd.Wait] has returned and the two goroutines are still there, with
    what is left of their pipes. *)
Definition leaveRunning (out err : list ReadResult) : M unit := fun w =>
  (tt, {| w_replies := w_replies w; w_npub := w_npub w; w_broker := w_broker w;
          w_log := w_log w; w_s3 := w_s3 w;
          w_stdout := out; w_stderr := err; w_sched := w_sched w |}).

(** A point at which the main goroutine can be overtaken by the readers:
    the iterations the scheduler chose for this point run, on what is left
    of the pipes.  [runBuild] and [uploadFiles] pass such a point before
    each of their calls once [cmd.Wait] has returned. *)
Definition yield (bs : BuildServer) : M unit := fun w =>
  match w_sched w with
  | [] => (tt, w)
  | sched :: later =>
      let w' := snd (readers bs sched (w_stdout w) (w_stderr w) w) in
      let rest := unread sched (w_stdout w) (w_stderr w) in
      (tt, {| w_replies := w_replies w'; w_npub := w_npub w'; w_broker := w_broker w';
              w_log := w_log w'; w_s3 := w_s3 w';
              w_stdout := fst rest; w_stderr := snd rest; w_sched := later |})
  end.

(** One call of the function given to [filepath.Walk]. *)
Record WalkEntry := {
  we_path : string;            (* filePath *)
  we_err : option error;       (* the err argument *)
  we_isDir : bool;             (* info.IsDir() *)
  we_rel : string;             (* filepath.Rel(distPath, filePath) *)
  we_relErr : option error;
  we_open : option error;      (* os.Open(filePath) *)
  we_mime : string;            (* mime.TypeByExtension(filepath.Ext(filePath)) *)
  we_put : option error        (* PutObject *)
}.

Record BuildEnv := {
  e_stdoutPipe : option error;   (* cmd.StdoutPipe() *)
  e_stderrPipe : option error;   (* cmd.StderrPipe() *)
  e_start : option error;        (* cmd.Start() *)
  e_stdout : list ReadResult;    (* what stdout.Read returns, call after call *)
  e_stderr : list ReadResult;
  e_sched : list Stream;         (* the reader iterations that run before cmd.Wait returns *)
  e_wait : option error;         (* cmd.Wait(): Some for a non-zero exit status *)
  e_S3_BUCKET : string;          (* os.Getenv("S3_BUCKET") *)
  e_walk : list WalkEntry        (* the calls filepath.Walk makes, in order *)
}.

Definition visit (bs : BuildServer) (env : BuildEnv) (e : WalkEntry) : M (option error) :=
  match we_err e with
  | Some er => mret (Some er)
  | None =>
      if we_isDir e then mret None
      else
        match we_relErr e with
        | Some er => mret (Some er)
        | None =>
            let relPath := we_rel e in
            yield bs;;
            logPrint ("uploading " +:+ we_path e);;
            yield bs;;
            publishLog bs ("uploading " +:+ relPath);;
            yield bs;;
            match we_open e with
            | Some er => mret (Some ("failed to open file " +:+ we_path e +:+ ": " +:+ er))
            | None =>
                let contentType :=
                  if String.eqb (we_mime e) "" then "application/octet-stream"
                  else we_mime e in
                let bucket :=
                  if String.eqb (e_S3_BUCKET env) "" then "vercel-clone-outputs"
                  else e_S3_BUCKET env in
                let key := "__outputs/" +:+ projectID bs +:+ "/" +:+ relPath in
                yield bs;;
                match we_put e with
                | Some er =>
                    mret (Some ("failed to upload file " +:+ we_path e +:+ ": " +:+ er))
                | None =>
                    PutObject {| o_bucket := bucket; o_key := key;
                                 o_contentType := contentType; o_body := we_path e |};;
                    yield bs;;
                    publishLog bs ("uploaded " +:+ relPath);;
                    yield bs;;
                    logPrint ("uploaded " +:+ we_path e);;
                    mret None
                end
            end
        end
  end.

(** [filepath.Walk] stops at the first call that returns an error. *)
Fixpoint walk (bs : BuildServer) (env : BuildEnv) (es : list WalkEntry) : M (option error) :=
  match es with
  | [] => mret None
  | e :: es' =>
      err ← visit bs env e;
      match err with
      | Some er => mret (Some er)
      | None => walk bs env es'
      end
  end.

Definition uploadFiles (bs : BuildServer) (env : BuildEnv) : M (option error) :=
  yield bs;;
  publishLog bs "Starting to upload";;
  err ← walk bs env (e_walk env);
  match err with
  | Some er => mret (Some ("failed to upload files: " +:+ er))
  | None =>
      yield bs;;
      publishLog bs "Done";;
      yield bs;;
      logPrint "Done...";;
      yield bs;;
      mret None
  end.

Definition runBuild (bs : BuildServer) (env : BuildEnv) : M (option error) :=
  logPrint "Executing build script";;
  publishLog bs "Build Started...";;
  match e_stdoutPipe env with
  | Some er => mret (Some ("failed to create stdout pipe: " +:+ er))
  | None =>
  match e_stderrPipe env with
  | Some er => mret (Some ("failed to create stderr pipe: " +:+ er))
  | None =>
  match e_start env with
  | Some er => mret (Some ("failed to start command: " +:+ er))
  | None =>
      readers bs (e_sched env) (e_stdout env) (e_stderr env);;
      match e_wait env with
      | Some er => mret (Some ("build command failed: " +:+ er))
      | None =>
          let rest := unread (e_sched env) (e_stdout env) (e_stderr env) in
          leaveRunning (fst rest) (snd rest);;
          yield bs;;
          logPrint "Build Complete";;
          yield bs;;
          publishLog bs "Build Complete";;
          uploadFiles bs env
      end
  end end end.

Record ProcEnv := {
  env_awsConfig : option error;   (* config.LoadDefaultConfig *)
  env_PROJECT_ID : string;        (* os.Getenv("PROJECT_ID") *)
  env_build : BuildEnv
}.

Definition NewBuildServer (pe : ProcEnv) : error + BuildServer :=
  match env_awsConfig pe with
  | Some er => inl ("failed to load AWS config: " +:+ er)
  | None =>
      if String.eqb (env_PROJECT_ID pe) ""
      then inl "PROJECT_ID environment variable is required"
      else inr {| projectID := env_PROJECT_ID pe |}
  end.

(** How the process ends: [main] returns, or [log.Fatalf] prints and exits
    with status 1. *)
Inductive Exit := Returned | Fatal (msg : string).

Definition logFatalf (msg : string) : M Exit := logPrint msg;; mret (Fatal msg).

Definition main (pe : ProcEnv) : M Exit :=
  match NewBuildServer pe with
  | inl er => logFatalf ("Failed to initialize build server: " +:+ er)
  | inr buildServer =>
      err ← runBuild buildServer (env_build pe);
      match err with
      | Some er => logFatalf ("Build failed: " +:+ er)
      | None => mret Returned
      end
  end.

(** A world in which nothing has happened yet. *)
Definition fresh (replies : nat -> option error) : World :=
  {| w_replies := replies; w_npub := 0; w_broker := []; w_log := []; w_s3 := [];
     w_stdout := []; w_stderr := []; w_sched := [] |}.

End Build.

(** ** api-server-go/main.go: [handleWebSocket] and [subscribeAndForward]

    The handler of a connection and the forwarders it starts are goroutines.
    They are modelled as one transition system: a state holds, for every task,
    the point of the source it has reached, and a label names the next thing
    that happens (a frame arrives, a write returns, the broker delivers).  Any
    interleaving of the tasks is a list of labels. *)

Module Api.

Inductive Task := Handler (c : nat) | Forwarder (i : nat).

#[global] Instance Task_eq_dec : EqDecision Task.
Proof. solve_decision. Defined.

(** Where the [for] loop of [handleWebSocket] stands: blocked in
    [conn.ReadJSON]; inside the [conn.WriteJSON] of the confirmation; or
    after [break], with the deferred [conn.Close()] done. *)
Inductive HandlerPc := HReading | HAcking (channel : string) | HReturned.

(** Where [subscribeAndForward] stands: started by [go] but not yet at
    [PSubscribe]; blocked in [range ch]; inside [conn.WriteJSON] with a
    payload; or returned, with the deferred [pubsub.Close()] done. *)
Inductive ForwarderPc := FStart | FWaiting | FWriting (payload : string) | FReturned.

(** A frame is the argument of [conn.WriteJSON]: a [map[string]string]. *)
Record Conn := {
  c_open : bool;                                (* false once conn.Close() has run *)
  c_pc : HandlerPc;
  c_sent : list (Task * gmap string string);    (* frames written, oldest first, with their writer *)
  c_failed : list (Task * gmap string string)   (* frames whose WriteJSON returned an error *)
}.

Record Fwd := {
  f_conn : nat;             (* the conn argument *)
  f_channel : string;       (* the channel argument, used as a pattern *)
  f_pc : ForwarderPc;
  f_queue : list string;    (* ch: payloads delivered by the broker, not yet received by the loop *)
  f_since : nat;            (* how many messages had been published when PSubscribe ran *)
  f_recv : list string      (* the payloads the loop has received, oldest first *)
}.

Record State := {
  conns : list Conn;
  fwds : list Fwd;
  published : list (string * string);   (* every (channel, payload) published so far *)
  log : list string                     (* lines written with package log *)
}.

Definition init : State := {| conns := []; fwds := []; published := []; log := [] |}.

(** The subscription of a forwarder is open from [PSubscribe] to [pubsub.Close()]. *)
Definition subscribed (fw : Fwd) : bool :=
  match f_pc fw with
  | FWaiting | FWriting _ => true
  | FStart | FReturned => false
  end.

(** What [conn.ReadJSON(&msg)] gives: an error, or the decoded object. *)
Inductive ReadJSON := ReadErr (e : string) | ReadMsg (msg : gmap string JSON.value).

(** [ReadJSON] on a text frame: [json.NewDecoder(r).Decode(&msg)] decodes
    the first JSON value of the frame and does not look at what follows it.
    A JSON object fills the map (a repeated key keeps its last value), [null]
    leaves it nil, anything else is an error. *)
Definition readFrame (text : string) : ReadJSON :=
  match JSON.parse_value (S (String.length text)) (list_ascii_of_string text) with
  | Some (JSON.Object ms, _) => ReadMsg (list_to_map (reverse ms))
  | Some (JSON.Null, _) => ReadMsg ∅
  | Some _ => ReadErr "json: cannot unmarshal into Go value of type map[string]interface {}"
  | None => ReadErr "invalid character"
  end.

(** The two nested [if]s of the handler: the channel of a subscribe request. *)
Definition subscribe_request (msg : gmap string JSON.value) : option string :=
  match msg !! "action" with
  | Some (JSON.Str action) =>
      if String.eqb action "subscribe" then
        match msg !! "channel" with
        | Some (JSON.Str channel) => Some channel
        | _ => None
        end
      else None
  | _ => None
  end.

Definition ack (channel : string) : gmap string string :=
  {[ "message" := "Joined " +:+ channel ]}.

Definition wrap (payload : string) : gmap string string :=
  {[ "message" := payload ]}.

Inductive Label :=
| Upgrade (ok : bool)                    (* a request on /ws; [ok]: the upgrade succeeds *)
| Read (c : nat) (r : ReadJSON)          (* ReadJSON returns in the handler of [c] *)
| AckDone (c : nat) (ok : bool)          (* the WriteJSON of the confirmation returns *)
| Subscribe (i : nat)                    (* forwarder [i] runs PSubscribe *)
| Publish (channel payload : string)     (* the broker takes a PUBLISH *)
| Receive (i : nat)                      (* [range ch] gives forwarder [i] its next payload *)
| WriteDone (i : nat) (ok : bool)        (* the WriteJSON of forwarder [i] returns *)
| SubscriptionEnded (i : nat).           (* [ch] is closed under forwarder [i] *)

Definition set_conn (s : State) (c : nat) (conn : Conn) : State :=
  {| conns := <[c := conn]> (conns s); fwds := fwds s;
     published := published s; log := log s |}.

Definition set_fwd (s : State) (i : nat) (fw : Fwd) : State :=
  {| conns := conns s; fwds := <[i := fw]> (fwds s);
     published := published s; log := log s |}.

Definition add_log (s : State) (line : string) : State :=
  {| conns := conns s; fwds := fwds s; published := published s;
     log := log s ++ [line] |}.

Definition fwd_at (fw : Fwd) (pc : ForwarderPc) : Fwd :=
  {| f_conn := f_conn fw; f_channel := f_channel fw; f_pc := pc;
     f_queue := f_queue fw; f_since := f_since fw; f_recv := f_recv fw |}.

Section Broker.

(** [matches pattern channel]: the broker's pattern matching (PSUBSCRIBE). *)
Variable matches : string -> string -> bool.

(** The broker hands a published payload to every open subscription whose
    pattern matches the channel; [f_queue] keeps them in that order and, in
    this model, without a bound. *)
Definition deliver (channel payload : string) (fw : Fwd) : Fwd :=
  if subscribed fw && matches (f_channel fw) channel then
    {| f_conn := f_conn fw; f_channel := f_channel fw; f_pc := f_pc fw;
       f_queue := f_queue fw ++ [payload]; f_since := f_since fw; f_recv := f_recv fw |}
  else fw.

(** A PUBLISH as the publisher sees it: the broker takes the message in
    every state and answers with the number of subscriptions it went to;
    zero is an answer like any other, not an error. *)
Definition PUBLISH (s : State) (channel payload : string) : option string * State :=
  (None, {| conns := conns s; fwds := deliver channel payload <$> fwds s;
            published := published s ++ [(channel, payload)]; log := log s |}).

(** [handleWebSocket]: the upgrade, then the read loop of one connection. *)
Definition handleWebSocket (s : State) (l : Label) : option State :=
  match l with
  | Upgrade true =>
      Some {| conns := conns s ++ [{| c_open := true; c_pc := HReading;
                                      c_sent := []; c_failed := [] |}];
              fwds := fwds s; published := published s; log := log s |}
  | Upgrade false => Some (add_log s "Failed to upgrade connection")
  | Read c r =>
      conn ← conns s !! c;
      match c_pc conn with
      | HReading =>
          match r with
          | ReadErr e =>
              (* log, break, deferred conn.Close() *)
              Some (add_log
                      (set_conn s c {| c_open := false; c_pc := HReturned;
                                       c_sent := c_sent conn; c_failed := c_failed conn |})
                      ("WebSocket read error: " +:+ e))
          | ReadMsg msg =>
              match subscribe_request msg with
              | Some channel =>
                  (* go api.subscribeAndForward(conn, channel); then WriteJSON *)
                  Some {| conns := <[c := {| c_open := c_open conn; c_pc := HAcking channel;
                                             c_sent := c_sent conn;
                                             c_failed := c_failed conn |}]> (conns s);
                          fwds := fwds s ++ [{| f_conn := c; f_channel := channel;
                                                f_pc := FStart; f_queue := [];
                                                f_since := 0; f_recv := [] |}];
                          published := published s; log := log s |}
              | None => Some s
              end
          end
      | _ => None
      end
  | AckDone c ok =>
      conn ← conns s !! c;
      match c_pc conn with
      | HAcking channel =>
          (* the result of WriteJSON is not looked at *)
          Some (set_conn s c
                  (if ok && c_open conn
                   then {| c_open := c_open conn; c_pc := HReading;
                           c_sent := c_sent conn ++ [(Handler c, ack channel)];
                           c_failed := c_failed conn |}
                   else {| c_open := c_open conn; c_pc := HReading;
                           c_sent := c_sent conn;
                           c_failed := c_failed conn ++ [(Handler c, ack channel)] |}))
      | _ => None
      end
  | _ => None
  end.

(** [subscribeAndForward]: the subscription, then the loop over [ch]. *)
Definition subscribeAndForward (s : State) (l : Label) : option State :=
  match l with
  | Subscribe i =>
      fw ← fwds s !! i;
      match f_pc fw with
      | FStart =>
          Some (set_fwd s i {| f_conn := f_conn fw; f_channel := f_channel fw;
                               f_pc := FWaiting; f_queue := [];
                               f_since := length (published s); f_recv := [] |})
      | _ => None
      end
  | Receive i =>
      fw ← fwds s !! i;
      match f_pc fw, f_queue fw with
      | FWaiting, payload :: rest =>
          let fw' pc := {| f_conn := f_conn fw; f_channel := f_channel fw; f_pc := pc;
                           f_queue := rest; f_since := f_since fw;
                           f_recv := f_recv fw ++ [payload] |} in
          match unmarshalLogMessage payload with
          | None =>
              (* log, continue *)
              Some (add_log (set_fwd s i (fw' FWaiting)) "Failed to unmarshal log message")
          | Some _ => Some (set_fwd s i (fw' (FWriting payload)))
          end
      | _, _ => None
      end
  | WriteDone i ok =>
      fw ← fwds s !! i;
      match f_pc fw with
      | FWriting payload =>
          conn ← conns s !! f_conn fw;
          if ok && c_open conn then
            Some (set_fwd
                    (set_conn s (f_conn fw)
                       {| c_open := c_open conn; c_pc := c_pc conn;
                          c_sent := c_sent conn ++ [(Forwarder i, wrap payload)];
                          c_failed := c_failed conn |})
                    i (fwd_at fw FWaiting))
          else
            (* log, break, deferred pubsub.Close() *)
            Some (add_log
                    (set_fwd
                       (set_conn s (f_conn fw)
                          {| c_open := c_open conn; c_pc := c_pc conn;
                             c_sent := c_sent conn;
                             c_failed := c_failed conn ++ [(Forwarder i, wrap payload)] |})
                       i {| f_conn := f_conn fw; f_channel := f_channel fw;
                            f_pc := FReturned; f_queue := [];
                            f_since := f_since fw; f_recv := f_recv fw |})
                    "WebSocket write error")
      | _ => None
      end
  | SubscriptionEnded i =>
      (* the loop over ch ends, deferred pubsub.Close() *)
      fw ← fwds s !! i;
      match f_pc fw with
      | FWaiting =>
          Some (set_fwd s i {| f_conn := f_conn fw; f_channel := f_channel fw;
                               f_pc := FReturned; f_queue := [];
                               f_since := f_since fw; f_recv := f_recv fw |})
      | _ => None
      end
  | _ => None
  end.

(** One step of the whole server: a step of a handler, a step of a
    forwarder, or the broker taking a message. *)
Definition step (s : State) (l : Label) : option State :=
  match l with
  | Upgrade _ | Read _ _ | AckDone _ _ => handleWebSocket s l
  | Subscribe _ | Receive _ | WriteDone _ _ | SubscriptionEnded _ => subscribeAndForward s l
  | Publish channel payload =>
      Some {| conns := conns s; fwds := deliver channel payload <$> fwds s;
              published := published s ++ [(channel, payload)]; log := log s |}
  end.

Fixpoint run (s : State) (ls : list Label) : option State :=
  match ls with
  | [] => Some s
  | l :: ls' => s' ← step s l; run s' ls'
  end.

(** The payloads published on a channel matching the pattern of [fw] since
    its subscription began, in publish order. *)
Definition matching (s : State) (fw : Fwd) : list string :=
  snd <$> filter (fun m => matches (f_channel fw) (fst m) = true)
                 (drop (f_since fw) (published s)).

End Broker.

(** The frames forwarder [i] has written to a connection, oldest first. *)
Definition forwarded (conn : Conn) (i : nat) : list (gmap string string) :=
  snd <$> filter (fun x => fst x = Forwarder i) (c_sent conn).

(** The tasks that are inside [conn.WriteJSON] on connection [c]. *)
Definition handler_writing (s : State) (c : nat) : nat :=
  match conns s !! c with
  | Some {| c_pc := HAcking _ |} => 1
  | _ => 0
  end.

Definition forwarder_writing (c : nat) (fw : Fwd) : bool :=
  match f_pc fw with
  | FWriting _ => bool_decide (f_conn fw = c)
  | _ => false
  end.

Definition writers (s : State) (c : nat) : nat :=
  handler_writing s c + length (filter (fun fw => forwarder_writing c fw = true) (fwds s)).

(** [conn.WriteJSON] is a method of gorilla/websocket: a connection takes
    one writer at a time, and a write that finds another write under way on
    the same connection panics ([concurrent write to websocket connection]).
    Neither [handleWebSocket] nor [subscribeAndForward] recovers, so the panic
    ends the process.  [FindsWriter c] is that moment: it can happen when two
    tasks are inside [WriteJSON] on [c]. *)
Inductive Outcome := Serving (s : State) | Panicked (c : nat).

Inductive Event := Does (l : Label) | FindsWriter (c : nat).

Fixpoint serve (matches : string -> string -> bool) (s : State) (es : list Event)
    : option Outcome :=
  match es with
  | [] => Some (Serving s)
  | Does l :: es' => s' ← step matches s l; serve matches s' es'
  | FindsWriter c :: _ => if (2 <=? writers s c)%nat then Some (Panicked c) else None
  end.

(** The number of open broker subscriptions held for connection [c]. *)
Definition subscriptions (s : State) (c : nat) : nat :=
  length (filter (fun fw => subscribed fw = true /\ f_conn fw = c) (fwds s)).

(** A pattern matcher for the examples: [*] matches any run of characters,
    [?] any one character, every other character itself.  This is how the
    broker matches a pattern that holds no bracket and no backslash; the
    examples use no other. *)
Fixpoint glob (p s : list ascii) : bool :=
  match p with
  | [] => match s with [] => true | _ => false end
  | c :: p' =>
      if (c =? "*")%char then
        (fix star (s : list ascii) : bool :=
           glob p' s || match s with [] => false | _ :: s' => star s' end) s
      else
        match s with
        | [] => false
        | d :: s' => ((c =? "?")%char || (c =? d)%char) && glob p' s'
        end
  end.

Definition glob_match (pattern channel : string) : bool :=
  glob (list_ascii_of_string pattern) (list_ascii_of_string channel).

End Api.

(** ** api-server-go/main.go: [NewAPIServer], [generateSlug], [createProject] *)

Module Http.

Definition error := string.

(** [strings.Split(s, sep)] for a separator of one byte, as in
    [strings.Split(os.Getenv("ECS_SUBNETS"), ",")]: [cur] is the piece being
    read. *)
Fixpoint split_from (sep : ascii) (cur s : list ascii) : list (list ascii) :=
  match s with
  | [] => [cur]
  | c :: r =>
      if (c =? sep)%char then cur :: split_from sep [] r
      else split_from sep (cur ++ [c]) r
  end.

Definition Split (s : string) (sep : ascii) : list string :=
  string_of_list_ascii <$> split_from sep [] (list_ascii_of_string s).

(** The environment and the one call that can fail in [NewAPIServer]. *)
Record Env := {
  REDIS_URL : string;
  REDIS_PASSWORD : string;
  AWS_REGION : string;
  ECS_SUBNETS : string;
  ECS_SECURITY_GROUPS : string;
  ECS_CLUSTER : string;
  ECS_TASK_DEFINITION : string;
  LoadDefaultConfig : option error
}.

Record RedisOptions := { Addr : string; Password : string; DB : nat }.

Record AWSConfig := {
  Cluster : string;
  TaskDefinition : string;
  Subnets : list string;
  SecurityGroups : list string
}.

(** The clients are stood for by what they were made from: the options of
    the Redis client, the region of the ECS client. *)
Record APIServer := {
  ecsClient : string;
  subscriber : RedisOptions;
  config : AWSConfig
}.

Definition NewAPIServer (env : Env) : error + APIServer :=
  let redisAddr := if String.eqb (REDIS_URL env) "" then "localhost:6379" else REDIS_URL env in
  let subscriber := {| Addr := redisAddr; Password := REDIS_PASSWORD env; DB := 0 |} in
  let awsRegion := if String.eqb (AWS_REGION env) "" then "us-east-1" else AWS_REGION env in
  match LoadDefaultConfig env with
  | Some er => inl ("failed to load AWS config: " +:+ er)
  | None =>
      let subnets := Split (ECS_SUBNETS env) ","%char in
      let securityGroups := Split (ECS_SECURITY_GROUPS env) ","%char in
      let awsConfig := {| Cluster := ECS_CLUSTER env;
                          TaskDefinition := ECS_TASK_DEFINITION env;
                          Subnets := subnets; SecurityGroups := securityGroups |} in
      inr {| ecsClient := awsRegion; subscriber := subscriber; config := awsConfig |}
  end.

(** [strings.ReplaceAll(s, old, new)] for a non-empty [old]: the
    occurrences of [old] are replaced from left to right, without overlap.
    [skip] counts the bytes of an occurrence still to be passed over. *)
Fixpoint replace_from (old new : list ascii) (skip : nat) (s : list ascii) : list ascii :=
  match s with
  | [] => []
  | c :: r =>
      match skip with
      | S k => replace_from old new k r
      | O =>
          if bool_decide (take (length old) s = old)
          then new ++ replace_from old new (length old - 1) r
          else c :: replace_from old new 0 r
      end
  end.

Definition ReplaceAll (s old new : string) : string :=
  string_of_list_ascii
    (replace_from (list_ascii_of_string old) (list_ascii_of_string new) 0
       (list_ascii_of_string s)).

(** [generateSlug], given the text of [uuid.New().String()]: [id[:8]]
    panics on a text shorter than 8 bytes, which is [None] here. *)
Definition generateSlug (id : string) : option string :=
  if (String.length id <? 8)%nat then None
  else Some (ReplaceAll (String.substring 0 8 id) "-" "").

Record ProjectRequest := { GitURL : string; Slug : string }.

(** The members of the request object, stored into the struct in order; a
    member for a field must be a string or null. *)
Fixpoint decode_request (ms : list (string * JSON.value)) (acc : ProjectRequest)
    : option ProjectRequest :=
  match ms with
  | [] => Some acc
  | (k, v) :: rest =>
      if equalFold k "gitURL" then
        match v with
        | JSON.Str s => decode_request rest {| GitURL := s; Slug := Slug acc |}
        | JSON.Null => decode_request rest acc
        | _ => None
        end
      else if equalFold k "slug" then
        match v with
        | JSON.Str s => decode_request rest {| GitURL := GitURL acc; Slug := s |}
        | JSON.Null => decode_request rest acc
        | _ => None
        end
      else decode_request rest acc
  end.

(** [c.ShouldBindJSON(&req)]: the first JSON value of the body is decoded
    into the struct, then the [binding:"required"] tag of [GitURL] is checked.
    [None] stands for [err != nil]. *)
Definition ShouldBindJSON (body : string) : option ProjectRequest :=
  match JSON.parse_value (S (String.length body)) (list_ascii_of_string body) with
  | Some (v, _) =>
      req ← match v with
            | JSON.Object ms => decode_request ms {| GitURL := ""; Slug := "" |}
            | JSON.Null => Some {| GitURL := ""; Slug := "" |}
            | _ => None
            end;
      if String.eqb (GitURL req) "" then None else Some req
  | None => None
  end.

(** The fields of [ecs.RunTaskInput] that [createProject] sets. *)
Record RunTaskInput := {
  rt_Cluster : string;
  rt_TaskDefinition : string;
  rt_LaunchType : string;
  rt_Count : nat;
  rt_AssignPublicIp : string;
  rt_Subnets : list string;
  rt_SecurityGroups : list string;
  rt_ContainerName : string;
  rt_Environment : list (string * string)
}.

Record ProjectData := { ProjectSlug : string; URL : string }.
Record ProjectResponse := { Status : string; Data : ProjectData }.

(** What [c.JSON] is called with. *)
Inductive Answer :=
| BadRequest                      (* 400, the text of the binding error *)
| InternalServerError (msg : string)   (* 500, {"error": msg} *)
| OK (r : ProjectResponse).       (* 200 *)

Definition code (a : Answer) : nat :=
  match a with
  | BadRequest => 400
  | InternalServerError _ => 500
  | OK _ => 200
  end.

(** [createProject] on a request body.  [uuid] is the text [uuid.New()]
    would give, [runTask] the error of [ecsClient.RunTask] if any.  The
    result holds the answer, the calls of [RunTask] made and the lines logged;
    [None] is a panic in [generateSlug]. *)
Definition createProject (api : APIServer) (body uuid : string) (runTask : option error)
    : option (Answer * list RunTaskInput * list string) :=
  match ShouldBindJSON body with
  | None => Some (BadRequest, [], [])
  | Some req =>
      projectSlug ← (if String.eqb (Slug req) "" then generateSlug uuid else Some (Slug req));
      let taskInput := {|
        rt_Cluster := Cluster (config api);
        rt_TaskDefinition := TaskDefinition (config api);
        rt_LaunchType := "FARGATE";
        rt_Count := 1;
        rt_AssignPublicIp := "ENABLED";
        rt_Subnets := Subnets (config api);
        rt_SecurityGroups := SecurityGroups (config api);
        rt_ContainerName := "builder-image";
        rt_Environment := [("GIT_REPOSITORY__URL", GitURL req);
                           ("PROJECT_ID", projectSlug)] |} in
      match runTask with
      | Some er =>
          Some (InternalServerError "Failed to start build", [taskInput],
                ["Failed to run ECS task: " +:+ er])
      | None =>
          Some (OK {| Status := "queued";
                      Data := {| ProjectSlug := projectSlug;
                                 URL := "http://" +:+ projectSlug +:+ ".localhost:8000" |} |},
                [taskInput], [])
      end
  end.

End Http.

(** ** Inputs used by the examples *)

Definition read (data : string) (err : bool) : Build.ReadResult :=
  {| Build.r_data := data; Build.r_err := err |}.

(** A build whose command starts, prints one line and exits with status 1. *)
Definition failing_build : Build.BuildEnv := {|
  Build.e_stdoutPipe := None; Build.e_stderrPipe := None; Build.e_start := None;
  Build.e_stdout := [read "Installing..." false; read "" true];
  Build.e_stderr := [read "npm ERR! missing script: build" true];
  Build.e_sched := [Build.Stdout; Build.Stderr; Build.Stdout];
  Build.e_wait := Some "exit status 1";
  Build.e_S3_BUCKET := "";
  Build.e_walk := []
|}.

Definition failing_proc : Build.ProcEnv := {|
  Build.env_awsConfig := None;
  Build.env_PROJECT_ID := "abc123";
  Build.env_build := failing_build
|}.

(** A broker that accepts every message. *)
Definition accepting : nat -> option Build.error := fun _ => None.

(** A broker that is down for the first PUBLISH of the run. *)
Definition flaky : nat -> option Build.error :=
  fun k => if decide (k = 0) then Some "dial tcp: connection refused" else None.

(** The payloads a run of [runBuild] adds to the broker. *)
Definition new_payloads (bs : Build.BuildServer) (env : Build.BuildEnv)
    (w : Build.World) : list string :=
  snd <$> drop (length (Build.w_broker w))
               (Build.w_broker (snd (Build.runBuild bs env w))).

(** C1 as the specification words it: after a successful start and a
    non-zero exit the process does not end in a fatal error, a terminal
    event is published, and the upload is started. *)
Definition failure_reported_and_upload_attempted : Prop :=
  forall (pe : Build.ProcEnv) (w : Build.World) (e : Build.error),
    Build.env_awsConfig pe = None ->
    Build.env_PROJECT_ID pe <> "" ->
    Build.e_stdoutPipe (Build.env_build pe) = None ->
    Build.e_stderrPipe (Build.env_build pe) = None ->
    Build.e_start (Build.env_build pe) = None ->
    Build.e_wait (Build.env_build pe) = Some e ->
    (forall k, Build.w_replies w k = None) ->
    let bs := {| Build.projectID := Build.env_PROJECT_ID pe |} in
    let '(exit, w') := Build.main pe w in
    exit = Build.Returned /\
    ((Build.channel bs, Build.logMessage "Build Failed") ∈ Build.w_broker w' \/
     (Build.channel bs, Build.logMessage "Build Complete") ∈ Build.w_broker w') /\
    (Build.channel bs, Build.logMessage "Starting to upload") ∈ Build.w_broker w'.

(** A build that reads the same chunk twice from stdout and succeeds. *)
Definition repeating_build : Build.BuildEnv := {|
  Build.e_stdoutPipe := None; Build.e_stderrPipe := None; Build.e_start := None;
  Build.e_stdout := [read "." false; read "." false; read "" true];
  Build.e_stderr := [read "" true];
  Build.e_sched := [Build.Stdout; Build.Stdout; Build.Stderr; Build.Stdout];
  Build.e_wait := None;
  Build.e_S3_BUCKET := "";
  Build.e_walk := []
|}.

(** C9 as the specification words it: a sequence number can be read off
    every published payload, and within one run it grows from each payload to
    the next. *)
Definition payloads_carry_sequence_numbers : Prop :=
  exists seq : string -> nat,
    forall (bs : Build.BuildServer) (env : Build.BuildEnv) (w : Build.World)
           (i j : nat) (p p' : string),
      (forall k, Build.w_replies w k = None) ->
      new_payloads bs env w !! i = Some p ->
      new_payloads bs env w !! j = Some p' ->
      i < j -> seq p < seq p'.

(** A computation is oblivious of the broker when, started in two worlds
    that hold the same uploaded objects (their broker, its replies and the
    local log may differ), it gives the same result and the same uploads. *)
Definition oblivious {A} (m : Build.M A) : Prop :=
  forall w1 w2, Build.w_s3 w1 = Build.w_s3 w2 ->
    fst (m w1) = fst (m w2) /\ Build.w_s3 (snd (m w1)) = Build.w_s3 (snd (m w2)).

(** C4 as the specification words it, for the build: whatever the command
    writes, a reader can take all of it from its pipe without an answer of
    the broker to any of its publishes. *)
Definition publish_never_blocks : Prop :=
  forall (bs : Build.BuildServer) (st : Build.Stream)
         (pipe : list Build.ReadResult) (w : Build.World),
    exists es r',
      (Build.BrokerAnswers ∉ es) /\
      Build.runReader bs st
        {| Build.rd_pc := Build.AtRead; Build.rd_pipe := pipe; Build.rd_world := w |} es
        = Some r' /\
      Build.rd_pipe r' = [].

(** The chunks the reader goroutines hand to [publishLog], in the order the
    schedule runs them: the pure counterpart of [Build.readers]. *)
Fixpoint chunks (sched : list Build.Stream) (out err : list Build.ReadResult)
    : list (Build.Stream * string) :=
  match sched with
  | [] => []
  | Build.Stdout :: sched' =>
      match out with
      | [] => chunks sched' [] err
      | r :: out' =>
          (if String.eqb (Build.r_data r) "" then [] else [(Build.Stdout, Build.r_data r)])
          ++ chunks sched' (if Build.r_err r then [] else out') err
      end
  | Build.Stderr :: sched' =>
      match err with
      | [] => chunks sched' out []
      | r :: err' =>
          (if String.eqb (Build.r_data r) "" then [] else [(Build.Stderr, Build.r_data r)])
          ++ chunks sched' out (if Build.r_err r then [] else err')
      end
  end.

(** The text published for a chunk. *)
Definition chunk_text (c : Build.Stream * string) : string :=
  match fst c with
  | Build.Stdout => snd c
  | Build.Stderr => "error: " +:+ snd c
  end.

(** The non-empty chunks of a stream, in the order the process wrote them. *)
Definition emitted (reads : list Build.ReadResult) : list string :=
  filter (fun d => d <> "") (Build.r_data <$> reads).

Definition of_stream (st : Build.Stream) (cs : list (Build.Stream * string)) : list string :=
  snd <$> filter (fun c => fst c = st) cs.

(** A message is plain when it can stand between quotes in a JSON text as
    it is: no quote, no backslash, no control character. *)
Definition plain_char (c : ascii) : bool :=
  negb (c =? dquote)%char && negb (c =? bslash)%char && negb (N_of_ascii c <? 32)%N.

Definition plain (message : string) : Prop :=
  forallb plain_char (list_ascii_of_string message) = true.

(** A payload the forwarder's [json.Unmarshal] accepts. *)
Definition decodable (payload : string) : Prop := is_Some (unmarshalLogMessage payload).

#[global] Instance decodable_dec payload : Decision (decodable payload).
Proof. unfold decodable. apply _. Defined.

(** The payload a forwarder is writing, if it is inside [WriteJSON]. *)
Definition inflight (fw : Api.Fwd) : list string :=
  match Api.f_pc fw with
  | Api.FWriting p => [p]
  | _ => []
  end.

(** The frames of forwarder [i] whose write returned an error. *)
Definition failed_by (conn : Api.Conn) (i : nat) : list (gmap string string) :=
  snd <$> filter (fun x => fst x = Api.Forwarder i) (Api.c_failed conn).

(** The frames in [l] that forwarder [i] wrote. *)
Definition frames_of (i : nat) (l : list (Api.Task * gmap string string)) :=
  snd <$> filter (fun x => fst x = Api.Forwarder i) l.

(** What holds of a forwarder in every state the server can reach. *)
Record fwd_ok (matches : string -> string -> bool)
    (s : Api.State) (i : nat) (fw : Api.Fwd) : Prop := {
  ok_conn : Api.f_conn fw < length (Api.conns s);
  ok_frames : forall conn, Api.conns s !! Api.f_conn fw = Some conn ->
    Api.wrap <$> filter decodable (Api.f_recv fw)
      = Api.forwarded conn i ++ (Api.wrap <$> inflight fw) ++ failed_by conn i;
  ok_failed : forall conn, Api.conns s !! Api.f_conn fw = Some conn ->
    Api.f_pc fw <> Api.FReturned -> failed_by conn i = [];
  ok_inflight : forall p, Api.f_pc fw = Api.FWriting p -> decodable p;
  ok_since : Api.f_since fw <= length (Api.published s);
  ok_queue :
    match Api.f_pc fw with
    | Api.FStart => Api.f_recv fw = [] /\ Api.f_queue fw = []
    | Api.FWaiting | Api.FWriting _ =>
        Api.f_recv fw ++ Api.f_queue fw = Api.matching matches s fw
    | Api.FReturned =>
        Api.f_queue fw = [] /\ Api.f_recv fw `prefix_of` Api.matching matches s fw
    end
}.

(** What holds of a connection in every state the server can reach: every
    frame written to it, or tried on it, is a confirmation from its own
    handler or a decodable payload from one of its own forwarders. *)
Record conn_ok (s : Api.State) (c : nat) (conn : Api.Conn) : Prop := {
  ok_writer : forall t frame, (t, frame) ∈ Api.c_sent conn ++ Api.c_failed conn ->
    (t = Api.Handler c /\ exists channel, frame = Api.ack channel) \/
    (exists i fw p, t = Api.Forwarder i /\ Api.fwds s !! i = Some fw /\
                    Api.f_conn fw = c /\ frame = Api.wrap p /\ decodable p);
  ok_closed : Api.c_open conn = false <-> Api.c_pc conn = Api.HReturned
}.

Definition Inv (matches : string -> string -> bool) (s : Api.State) : Prop :=
  (forall i fw, Api.fwds s !! i = Some fw -> fwd_ok matches s i fw) /\
  (forall c conn, Api.conns s !! c = Some conn -> conn_ok s c conn).

(** ** Requests, runs and claims used for the API server *)

(** The request [{"action":"subscribe","channel":<channel>}], decoded. *)
Definition subscribe_msg (channel : string) : gmap string JSON.value :=
  {[ "action" := JSON.Str "subscribe"; "channel" := JSON.Str channel ]}.

(** The request [{"action":"ping"}], decoded, and as the text of a frame. *)
Definition ping_msg : gmap string JSON.value := {[ "action" := JSON.Str "ping" ]}.

Definition ping_text : string :=
  "{" +:+ q +:+ "action" +:+ q +:+ ":" +:+ q +:+ "ping" +:+ q +:+ "}".

(** A request is malformed when its action is not the string [subscribe] or
    its channel is missing or not a string. *)
Definition malformed (msg : gmap string JSON.value) : Prop :=
  msg !! "action" <> Some (JSON.Str "subscribe") \/
  ~ exists channel, msg !! "channel" = Some (JSON.Str channel).

(** The state a run from [Api.init] ends in ([Api.init] itself if a label of
    the run is not enabled). *)
Definition after (ls : list Api.Label) : Api.State :=
  default Api.init (Api.run Api.glob_match Api.init ls).

(** One viewer joins [logs:A] and its forwarder subscribes. *)
Definition joined : list Api.Label :=
  [Api.Upgrade true; Api.Read 0 (Api.ReadMsg (subscribe_msg "logs:A"));
   Api.AckDone 0 true; Api.Subscribe 0].

(** Then a text that is not JSON and a well-formed payload are published. *)
Definition two_published : list Api.Label :=
  joined ++ [Api.Publish "logs:A" "not json";
             Api.Publish "logs:A" (Build.logMessage "hi")].

(** The forwarder receives the first of them. *)
Definition one_received : list Api.Label := two_published ++ [Api.Receive 0].

(** The viewer goes away while its forwarder waits for the next payload. *)
Definition closed_while_waiting : list Api.Label :=
  joined ++ [Api.Read 0 (Api.ReadErr "websocket: close 1001 (going away)")].

(** After the close a payload arrives and the forwarder tries to write it. *)
Definition write_after_close : list Api.Label :=
  closed_while_waiting ++ [Api.Publish "logs:A" (Build.logMessage "hi"); Api.Receive 0].

(** With one subscription: the forwarder has a payload to write while the
    confirmation of the subscribe request is still being written. *)
Definition two_writers : list Api.Label :=
  [Api.Upgrade true; Api.Read 0 (Api.ReadMsg (subscribe_msg "logs:A"));
   Api.Subscribe 0; Api.Publish "logs:A" (Build.logMessage "hi"); Api.Receive 0].

(** A viewer with two subscriptions: both forwarders are inside [WriteJSON]
    when a third subscribe request is confirmed. *)
Definition three_writers : list Api.Label :=
  [Api.Upgrade true;
   Api.Read 0 (Api.ReadMsg (subscribe_msg "logs:A")); Api.AckDone 0 true;
   Api.Read 0 (Api.ReadMsg (subscribe_msg "logs:*")); Api.AckDone 0 true;
   Api.Subscribe 0; Api.Subscribe 1;
   Api.Publish "logs:A" (Build.logMessage "hi");
   Api.Receive 0; Api.Receive 1;
   Api.Read 0 (Api.ReadMsg (subscribe_msg "logs:B"))].

(** C5 as the specification words it, for the forwarder: once a forwarder
    is back at [range ch], every payload it has received is among the frames
    it wrote to its connection. *)
Definition forwarder_writes_every_payload (matches : string -> string -> bool) : Prop :=
  forall ls s i fw conn p,
    Api.run matches Api.init ls = Some s ->
    Api.fwds s !! i = Some fw ->
    Api.conns s !! Api.f_conn fw = Some conn ->
    Api.f_pc fw = Api.FWaiting ->
    p ∈ Api.f_recv fw ->
    Api.wrap p ∈ Api.forwarded conn i.

(** The steps the server takes by itself, with no new input from a viewer or
    from the broker. *)
Definition internal (l : Api.Label) : bool :=
  match l with
  | Api.AckDone _ _ | Api.Subscribe _ | Api.Receive _ | Api.WriteDone _ _ => true
  | _ => false
  end.

(** C8 as the specification words it: once a connection is closed the server
    can, by itself, bring the subscriptions of that connection to zero, and no
    step starts a write on the closed connection. *)
Definition close_releases_everything (matches : string -> string -> bool) : Prop :=
  forall ls s c conn,
    Api.run matches Api.init ls = Some s ->
    Api.conns s !! c = Some conn ->
    Api.c_open conn = false ->
    (exists ls' s', forallb internal ls' = true /\
                    Api.run matches s ls' = Some s' /\ Api.subscriptions s' c = 0) /\
    (forall l s', Api.step matches s l = Some s' -> Api.writers s' c <= Api.writers s c).

(** C10 as the specification words it: at no time are two tasks inside
    [WriteJSON] on the same connection. *)
Definition single_writer (matches : string -> string -> bool) : Prop :=
  forall ls s c, Api.run matches Api.init ls = Some s -> Api.writers s c <= 1.

(** The forwarders started for connection [c]. *)
Definition forwarders_of (s : Api.State) (c : nat) : list Api.Fwd :=
  filter (fun fw => Api.f_conn fw = c) (Api.fwds s).

(** ** Pure readings of the upload, for the properties of [uploadFiles] *)

(** The error the function given to [filepath.Walk] returns for an entry. *)
Definition entry_error (e : Build.WalkEntry) : option Build.error :=
  match Build.we_err e with
  | Some er => Some er
  | None =>
      if Build.we_isDir e then None
      else
        match Build.we_relErr e, Build.we_open e, Build.we_put e with
        | Some er, _, _ => Some er
        | None, Some er, _ =>
            Some ("failed to open file " +:+ Build.we_path e +:+ ": " +:+ er)
        | None, None, Some er =>
            Some ("failed to upload file " +:+ Build.we_path e +:+ ": " +:+ er)
        | None, None, None => None
        end
  end.

(** The first error among the entries of a walk. *)
Fixpoint first_error (es : list Build.WalkEntry) : option Build.error :=
  match es with
  | [] => None
  | e :: es' =>
      match entry_error e with
      | Some er => Some er
      | None => first_error es'
      end
  end.

(** The entries the walk visits without error: those before the first failure. *)
Fixpoint visited (es : list Build.WalkEntry) : list Build.WalkEntry :=
  match es with
  | [] => []
  | e :: es' =>
      match entry_error e with
      | Some _ => []
      | None => e :: visited es'
      end
  end.

Definition is_file (e : Build.WalkEntry) : Prop := Build.we_isDir e = false.

(** The object [PutObject] is called with for a file. *)
Definition object_of (bs : Build.BuildServer) (env : Build.BuildEnv)
    (e : Build.WalkEntry) : Build.S3Object :=
  {| Build.o_bucket := if String.eqb (Build.e_S3_BUCKET env) "" then "vercel-clone-outputs"
                       else Build.e_S3_BUCKET env;
     Build.o_key := "__outputs/" +:+ Build.projectID bs +:+ "/" +:+ Build.we_rel e;
     Build.o_contentType := if String.eqb (Build.we_mime e) "" then "application/octet-stream"
                            else Build.we_mime e;
     Build.o_body := Build.we_path e |}.

#[global] Instance is_file_dec e : Decision (is_file e).
Proof. unfold is_file. apply _. Defined.

(** The texts published around the upload of one file. *)
Definition file_texts (e : Build.WalkEntry) : list string :=
  if Build.we_isDir e then []
  else ["uploading " +:+ Build.we_rel e; "uploaded " +:+ Build.we_rel e].

(** The event the broker gets for a text. *)
Definition event (bs : Build.BuildServer) (text : string) : string * string :=
  (Build.channel bs, Build.logMessage text).

(** The events of [l] whose publish the broker accepts, when the first of
    them goes out with the [k]-th publish of the run. *)
Fixpoint kept {A} (replies : nat -> option Build.error) (k : nat) (l : list A) : list A :=
  match l with
  | [] => []
  | x :: l' =>
      match replies k with
      | None => x :: kept replies (S k) l'
      | Some _ => kept replies (S k) l'
      end
  end.

(** Two worlds that are the same but for their broker, of which the second
    has a broker that accepts every message. *)
Definition same_but_broker (w w' : Build.World) : Prop :=
  Build.w_s3 w = Build.w_s3 w' /\
  Build.w_stdout w = Build.w_stdout w' /\
  Build.w_stderr w = Build.w_stderr w' /\
  Build.w_sched w = Build.w_sched w' /\
  forall k, Build.w_replies w' k = None.

(** A computation that, started in two such worlds, gives the same result
    and tries the same publishes in both: what the first broker has in the
    end are the events it accepted, no other event is lost. *)
Definition loses_own_events {A} (m : Build.M A) : Prop :=
  forall w w', same_but_broker w w' ->
    fst (m w) = fst (m w') /\
    same_but_broker (snd (m w)) (snd (m w')) /\
    Build.w_replies (snd (m w)) = Build.w_replies w /\
    exists l',
      Build.w_broker (snd (m w')) = Build.w_broker w' ++ l' /\
      Build.w_broker (snd (m w)) =
        Build.w_broker w ++ kept (Build.w_replies w) (Build.w_npub w) l' /\
      Build.w_npub (snd (m w)) = Build.w_npub w + length l'.

(** [l] is [l1] and [l2] shuffled together, each in its own order. *)
Inductive merged {A} : list A -> list A -> list A -> Prop :=
| merged_nil : merged [] [] []
| merged_left x l1 l2 l : merged l1 l2 l -> merged (x :: l1) l2 (x :: l)
| merged_right x l1 l2 l : merged l1 l2 l -> merged l1 (x :: l2) (x :: l).

(** The events of the chunks read by the iterations of [sched]. *)
Definition chunk_events (bs : Build.BuildServer) (sched : list Build.Stream)
    (out err : list Build.ReadResult) : list (string * string) :=
  (fun c => event bs (chunk_text c)) <$> chunks sched out err.

(** The reader iterations that run at the first [n] points where the main
    goroutine yields. *)
Definition overtaking (w : Build.World) (n : nat) : list Build.Stream :=
  concat (take n (Build.w_sched w)).

(** From [w], where the broker accepts everything, to [w'] the main
    goroutine has published [texts] and the readers have run at some of the
    points where it yielded: the broker got the events of [texts] and those
    of the chunks read meanwhile, shuffled together. *)
Definition advances (bs : Build.BuildServer) (texts : list string)
    (w w' : Build.World) : Prop :=
  (forall k, Build.w_replies w k = None) ->
  (forall k, Build.w_replies w' k = None) /\
  exists n l,
    Build.w_sched w' = drop n (Build.w_sched w) /\
    ((Build.w_stdout w', Build.w_stderr w')
       = Build.unread (overtaking w n) (Build.w_stdout w) (Build.w_stderr w)) /\
    Build.w_broker w' = Build.w_broker w ++ l /\
    merged (event bs <$> texts)
           (chunk_events bs (overtaking w n) (Build.w_stdout w) (Build.w_stderr w)) l.

(** The texts the main goroutine publishes once [cmd.Wait] has returned. *)
Definition upload_texts (env : Build.BuildEnv) : list string :=
  ["Build Complete"; "Starting to upload"] ++
  concat (file_texts <$> Build.e_walk env) ++
  ["Done"].

(** The texts a successful run publishes, in order, when no reader runs
    after [cmd.Wait] has returned. *)
Definition success_texts (env : Build.BuildEnv) : list string :=
  ["Build Started..."] ++
  (chunk_text <$> chunks (Build.e_sched env) (Build.e_stdout env) (Build.e_stderr env)) ++
  ["Build Complete"; "Starting to upload"] ++
  concat (file_texts <$> Build.e_walk env) ++
  ["Done"].

Definition walked (path rel mime : string) (dir : bool) (put : option Build.error)
    : Build.WalkEntry :=
  {| Build.we_path := path; Build.we_err := None; Build.we_isDir := dir;
     Build.we_rel := rel; Build.we_relErr := None; Build.we_open := None;
     Build.we_mime := mime; Build.we_put := put |}.

(** A build that succeeds and leaves a directory, a file whose extension
    has no known type and a page. *)
Definition site_build : Build.BuildEnv := {|
  Build.e_stdoutPipe := None; Build.e_stderrPipe := None; Build.e_start := None;
  Build.e_stdout := [read "built" true];
  Build.e_stderr := [read "" true];
  Build.e_sched := [Build.Stdout; Build.Stderr];
  Build.e_wait := None;
  Build.e_S3_BUCKET := "";
  Build.e_walk :=
    [walked "output/dist" "." "" true None;
     walked "output/dist/data.bin" "data.bin" "" false None;
     walked "output/dist/index.html" "index.html" "text/html; charset=utf-8" false None]
|}.

(** A build whose readers have read nothing when [cmd.Wait] returns. *)
Definition slow_readers_build : Build.BuildEnv := {|
  Build.e_stdoutPipe := None; Build.e_stderrPipe := None; Build.e_start := None;
  Build.e_stdout := [read "built" true];
  Build.e_stderr := [read "" true];
  Build.e_sched := [];
  Build.e_wait := None;
  Build.e_S3_BUCKET := "";
  Build.e_walk := []
|}.

(** A world in which nothing has happened yet and the scheduler lets the
    readers run as [sched] says. *)
Definition scheduled (replies : nat -> option Build.error)
    (sched : list (list Build.Stream)) : Build.World :=
  {| Build.w_replies := replies; Build.w_npub := 0; Build.w_broker := [];
     Build.w_log := []; Build.w_s3 := [];
     Build.w_stdout := []; Build.w_stderr := []; Build.w_sched := sched |}.

(** A process whose command cannot be started. *)
Definition unstartable_proc : Build.ProcEnv := {|
  Build.env_awsConfig := None;
  Build.env_PROJECT_ID := "abc123";
  Build.env_build := {|
    Build.e_stdoutPipe := None; Build.e_stderrPipe := None;
    Build.e_start := Some "exec: sh: executable file not found in $PATH";
    Build.e_stdout := [read "never read" false]; Build.e_stderr := [];
    Build.e_sched := [Build.Stdout];
    Build.e_wait := None; Build.e_S3_BUCKET := "";
    Build.e_walk := [walked "output/dist/index.html" "index.html" "" false None] |}
|}.

(** ** Readings used for the properties of the HTTP side *)

(** The pieces put together again, with the separator between them. *)
Fixpoint join_with (sep : string) (l : list string) : string :=
  match l with
  | [] => ""
  | x :: rest =>
      match rest with
      | [] => x
      | _ :: _ => x +:+ sep +:+ join_with sep rest
      end
  end.

Definition commas (s : string) : nat :=
  length (filter (fun c => c = ","%char) (list_ascii_of_string s)).

Definition is_hex (c : ascii) : bool :=
  let n := nat_of_ascii c in
  ((48 <=? n)%nat && (n <=? 57)%nat) || ((97 <=? n)%nat && (n <=? 102)%nat).

(** The form of [uuid.UUID.String()]: 36 bytes, hexadecimal digits in groups
    of 8, 4, 4, 4 and 12 with a dash between the groups. *)
Definition is_uuid (id : string) : bool :=
  let l := list_ascii_of_string id in
  let dash i := bool_decide (take 1 (drop i l) = ["-"%char]) in
  let hex i n := forallb is_hex (take n (drop i l)) in
  (length l =? 36)%nat && hex 0 8 && dash 8 && hex 9 4 && dash 13 && hex 14 4
  && dash 18 && hex 19 4 && dash 23 && hex 24 12.

(** [os.Getenv] in a container started with the given environment. *)
Fixpoint getenv (name : string) (environment : list (string * string)) : string :=
  match environment with
  | [] => ""
  | (k, v) :: rest => if String.eqb k name then v else getenv name rest
  end.

(** The process the ECS task runs: the build server, with the environment
    [createProject] gave the container. *)
Definition container (t : Http.RunTaskInput) (aws : option Build.error)
    (build : Build.BuildEnv) : Build.ProcEnv :=
  {| Build.env_awsConfig := aws;
     Build.env_PROJECT_ID := getenv "PROJECT_ID" (Http.rt_Environment t);
     Build.env_build := build |}.

(** A request body with a repository and no slug, one without a repository,
    and the text of a UUID. *)
Definition body_repo : string :=
  "{" +:+ q +:+ "gitURL" +:+ q +:+ ":" +:+ q +:+ "https://github.com/user/repo.git" +:+ q +:+ "}".

Definition body_slug_only : string :=
  "{" +:+ q +:+ "slug" +:+ q +:+ ":" +:+ q +:+ "my-site" +:+ q +:+ "}".

Definition uuid_text : string := "3f2a9c1e-7b4d-4e8a-9c3f-1a2b3c4d5e6f".

Definition api_env : Http.Env := {|
  Http.REDIS_URL := ""; Http.REDIS_PASSWORD := ""; Http.AWS_REGION := "";
  Http.ECS_SUBNETS := "subnet-a,subnet-b"; Http.ECS_SECURITY_GROUPS := "";
  Http.ECS_CLUSTER := "builder-cluster"; Http.ECS_TASK_DEFINITION := "builder-task";
  Http.LoadDefaultConfig := None |}.

Definition api_server : Http.APIServer :=
  match Http.NewAPIServer api_env with
  | inr api => api
  | inl _ => {| Http.ecsClient := ""; Http.subscriber := {| Http.Addr := ""; Http.Password := ""; Http.DB := 0 |};
                Http.config := {| Http.Cluster := ""; Http.TaskDefinition := "";
                                  Http.Subnets := []; Http.SecurityGroups := [] |} |}
  end.

(** ** Readings used for the properties of the WebSocket side *)

(** Forwarder [i] takes the payload [p] from its channel: it receives it
    and, when it unmarshals, writes it. *)
Definition drain (i : nat) (p : string) : list Api.Label :=
  Api.Receive i :: (if decide (decodable p) then [Api.WriteDone i true] else []).

(** A viewer that has joined [logs:A] gets three messages, of which the
    second is not a JSON text. *)
Definition three_messages : list string :=
  [Build.logMessage "one"; "not json"; Build.logMessage "two"].

(** The viewer gets two messages, and its forwarder takes both. *)
Definition two_messages : list string :=
  [Build.logMessage "one"; Build.logMessage "two"].

Definition two_delivered : list Api.Label :=
  joined ++ (Api.Publish "logs:A" <$> two_messages) ++ concat (drain 0 <$> two_messages).


Definition is_ack (x : Api.Task * gmap string string) : bool :=
  match fst x with
  | Api.Handler _ => true
  | Api.Forwarder _ => false
  end.

(** The confirmations the handler has written, or tried to write, on a
    connection. *)
Definition acks (conn : Api.Conn) : nat :=
  length (filter (fun x => is_ack x = true) (Api.c_sent conn ++ Api.c_failed conn)).

(** The subscribe requests the handler of a connection has taken: those
    confirmed, and the one whose confirmation is being written. *)
Definition started_for (conn : Api.Conn) : nat :=
  acks conn + match Api.c_pc conn with Api.HAcking _ => 1 | _ => 0 end.

Definition forwarder_per_request (s : Api.State) : Prop :=
  forall c, length (forwarders_of s c) = from_option started_for 0 (Api.conns s !! c).

(** A viewer with the subscriptions [logs:A] and [logs:*], both open. *)
Definition joined_twice : list Api.Label :=
  [Api.Upgrade true;
   Api.Read 0 (Api.ReadMsg (subscribe_msg "logs:A")); Api.AckDone 0 true;
   Api.Read 0 (Api.ReadMsg (subscribe_msg "logs:*")); Api.AckDone 0 true;
   Api.Subscribe 0; Api.Subscribe 1].

(** The forwarder of a viewer that went away has tried to write and returned. *)
Definition forwarder_gone : list Api.Label :=
  write_after_close ++ [Api.WriteDone 0 true].

(** A text of printable ASCII without quote or backslash: it stands between
    quotes in a JSON text as it is, and is valid UTF-8. *)
Definition printable_char (c : ascii) : bool :=
  plain_char c && (N_of_ascii c <? 127)%N.

Definition printable (text : string) : Prop :=
  forallb printable_char (list_ascii_of_string text) = true.

(** The body [{"gitURL":"<gitURL>","slug":"<slug>"}]. *)
Definition request_body (gitURL slug : string) : string :=
  "{" +:+ q +:+ "gitURL" +:+ q +:+ ":" +:+ q +:+ gitURL +:+ q +:+ ","
      +:+ q +:+ "slug" +:+ q +:+ ":" +:+ q +:+ slug +:+ q +:+ "}".

(** * Theorems about the build server *)

Section BuildFacts.

Import Build.

Lemma bind_unfold {A B} (m : M A) (k : A -> M B) (w : World) :
  (m ≫= k) w = k (fst (m w)) (snd (m w)).
Proof. unfold mbind, M_bind. destruct (m w); reflexivity. Qed.

Lemma publishLog_unfold bs message w :
  publishLog bs message w =
  (tt, {| w_replies := w_replies w; w_npub := S (w_npub w);
          w_broker := match w_replies w (w_npub w) with
                      | None => w_broker w ++ [(channel bs, logMessage message)]
                      | Some _ => w_broker w
                      end;
          w_log := match w_replies w (w_npub w) with
                   | None => w_log w
                   | Some e => w_log w ++ ["Failed to publish log: " +:+ e]
                   end;
          w_s3 := w_s3 w;
          w_stdout := w_stdout w; w_stderr := w_stderr w; w_sched := w_sched w |}).
Proof.
  unfold publishLog. rewrite bind_unfold. unfold Publish; simpl.
  destruct (w_replies w (w_npub w)); reflexivity.
Qed.

(** *** What never depends on the broker: results and uploads *)

Lemma oblivious_ret {A} (a : A) : oblivious (mret a).
Proof. intros w1 w2 H. split; [reflexivity | exact H]. Qed.

Lemma oblivious_bind {A B} (m : M A) (k : A -> M B) :
  oblivious m -> (forall a, oblivious (k a)) -> oblivious (m ≫= k).
Proof.
  intros Hm Hk w1 w2 H. rewrite !bind_unfold.
  destruct (Hm w1 w2 H) as [Hr Hs]. rewrite Hr. apply Hk, Hs.
Qed.

Lemma oblivious_logPrint line : oblivious (logPrint line).
Proof. intros w1 w2 H. split; [reflexivity | exact H]. Qed.

Lemma oblivious_publishLog bs message : oblivious (publishLog bs message).
Proof. intros w1 w2 H. rewrite !publishLog_unfold. split; [reflexivity | exact H]. Qed.

Lemma oblivious_PutObject o : oblivious (PutObject o).
Proof. intros w1 w2 H. split; [reflexivity | simpl; congruence]. Qed.

Ltac oblivious :=
  repeat first
    [ apply oblivious_ret | apply oblivious_logPrint | apply oblivious_publishLog
    | apply oblivious_PutObject
    | apply oblivious_bind; [| intros ? ]
    | match goal with
      | |- oblivious (match ?x with _ => _ end) => destruct x
      end ].

Lemma oblivious_readerStep bs st r : oblivious (readerStep bs st r).
Proof. unfold readerStep. oblivious. Qed.

Lemma oblivious_readers bs sched : forall out err, oblivious (readers bs sched out err).
Proof.
  induction sched as [|st sched IH]; intros out err; simpl.
  - apply oblivious_ret.
  - destruct st.
    + destruct out as [|r out']; [apply IH|].
      apply oblivious_bind; [apply oblivious_readerStep | intros _; apply IH].
    + destruct err as [|r err']; [apply IH|].
      apply oblivious_bind; [apply oblivious_readerStep | intros _; apply IH].
Qed.

(** *** The readers only log and publish *)

Lemma readerStep_s3 bs st r w : w_s3 (snd (readerStep bs st r w)) = w_s3 w.
Proof.
  unfold readerStep. destruct (String.eqb _ _); [reflexivity|].
  destruct st; rewrite bind_unfold, publishLog_unfold; reflexivity.
Qed.

Lemma readers_s3 bs sched : forall out err w,
  w_s3 (snd (readers bs sched out err w)) = w_s3 w.
Proof.
  induction sched as [|st sched IH]; intros out err w; simpl; [reflexivity|].
  destruct st.
  - destruct out as [|r out']; [apply IH|].
    rewrite bind_unfold, IH. apply readerStep_s3.
  - destruct err as [|r err']; [apply IH|].
    rewrite bind_unfold, IH. apply readerStep_s3.
Qed.

Lemma yield_unfold bs w :
  yield bs w =
  match w_sched w with
  | [] => (tt, w)
  | sched :: later =>
      let w' := snd (readers bs sched (w_stdout w) (w_stderr w) w) in
      (tt, {| w_replies := w_replies w'; w_npub := w_npub w'; w_broker := w_broker w';
              w_log := w_log w'; w_s3 := w_s3 w';
              w_stdout := fst (unread sched (w_stdout w) (w_stderr w));
              w_stderr := snd (unread sched (w_stdout w) (w_stderr w));
              w_sched := later |})
  end.
Proof. reflexivity. Qed.

Lemma publishLog_s3 bs message w : w_s3 (snd (publishLog bs message w)) = w_s3 w.
Proof. by rewrite publishLog_unfold. Qed.

Lemma logPrint_s3 line w : w_s3 (snd (logPrint line w)) = w_s3 w.
Proof. reflexivity. Qed.

Lemma leaveRunning_s3 out err w : w_s3 (snd (leaveRunning out err w)) = w_s3 w.
Proof. reflexivity. Qed.

Lemma PutObject_s3 o w : w_s3 (snd (PutObject o w)) = w_s3 w ++ [o].
Proof. reflexivity. Qed.

Lemma readerStep_sched bs st r w : w_sched (snd (readerStep bs st r w)) = w_sched w.
Proof.
  unfold readerStep. destruct (String.eqb _ _); [reflexivity|].
  destruct st; rewrite bind_unfold, publishLog_unfold; reflexivity.
Qed.

Lemma readers_sched bs sched : forall out err w,
  w_sched (snd (readers bs sched out err w)) = w_sched w.
Proof.
  induction sched as [|st sched IH]; intros out err w; simpl; [reflexivity|].
  destruct st.
  - destruct out as [|r out']; [apply IH|].
    rewrite bind_unfold, IH. apply readerStep_sched.
  - destruct err as [|r err']; [apply IH|].
    rewrite bind_unfold, IH. apply readerStep_sched.
Qed.

Lemma yield_s3 bs w : w_s3 (snd (yield bs w)) = w_s3 w.
Proof. rewrite yield_unfold. destruct (w_sched w); [reflexivity | apply readers_s3]. Qed.

Lemma oblivious_yield bs : oblivious (yield bs).
Proof.
  intros w1 w2 H. split; [|by rewrite !yield_s3].
  rewrite !yield_unfold. by destruct (w_sched w1), (w_sched w2).
Qed.

Lemma oblivious_leaveRunning out err : oblivious (leaveRunning out err).
Proof. intros w1 w2 H. split; [reflexivity | exact H]. Qed.

Ltac oblivious_more :=
  repeat first
    [ apply oblivious_ret | apply oblivious_logPrint | apply oblivious_publishLog
    | apply oblivious_PutObject | apply oblivious_yield | apply oblivious_leaveRunning
    | apply oblivious_bind; [| intros ? ]
    | match goal with
      | |- oblivious (match ?x with _ => _ end) => destruct x
      end ].

Lemma oblivious_visit bs env e : oblivious (visit bs env e).
Proof. unfold visit. oblivious_more. Qed.

Lemma oblivious_walk bs env es : oblivious (walk bs env es).
Proof.
  induction es as [|e es IH]; simpl; [apply oblivious_ret|].
  apply oblivious_bind; [apply oblivious_visit|].
  intros [er|]; [apply oblivious_ret | apply IH].
Qed.

Lemma oblivious_uploadFiles bs env : oblivious (uploadFiles bs env).
Proof.
  unfold uploadFiles.
  apply oblivious_bind; [apply oblivious_yield | intros _].
  apply oblivious_bind; [apply oblivious_publishLog | intros _].
  apply oblivious_bind; [apply oblivious_walk | intros [er|]]; oblivious_more.
Qed.

Lemma oblivious_runBuild bs env : oblivious (runBuild bs env).
Proof.
  unfold runBuild.
  apply oblivious_bind; [apply oblivious_logPrint | intros _].
  apply oblivious_bind; [apply oblivious_publishLog | intros _].
  destruct (e_stdoutPipe env); [apply oblivious_ret|].
  destruct (e_stderrPipe env); [apply oblivious_ret|].
  destruct (e_start env); [apply oblivious_ret|].
  apply oblivious_bind; [apply oblivious_readers | intros _].
  destruct (e_wait env); [apply oblivious_ret|].
  apply oblivious_bind; [apply oblivious_leaveRunning | intros _].
  apply oblivious_bind; [apply oblivious_yield | intros _].
  apply oblivious_bind; [apply oblivious_logPrint | intros _].
  apply oblivious_bind; [apply oblivious_yield | intros _].
  apply oblivious_bind; [apply oblivious_publishLog | intros _].
  apply oblivious_uploadFiles.
Qed.

(** *** What the readers publish *)

Lemma readerStep_replies bs st r w :
  w_replies (snd (readerStep bs st r w)) = w_replies w.
Proof.
  unfold readerStep. destruct (String.eqb _ _); [reflexivity|].
  destruct st; rewrite bind_unfold, publishLog_unfold; reflexivity.
Qed.

(** With a broker that accepts everything, an iteration publishes its chunk. *)
Lemma readerStep_broker bs st r w :
  (forall k, w_replies w k = None) ->
  w_broker (snd (readerStep bs st r w)) =
  w_broker w ++
    (if String.eqb (r_data r) "" then []
     else [(channel bs, logMessage (chunk_text (st, r_data r)))]).
Proof.
  intros Hok. unfold readerStep. destruct (String.eqb _ _); simpl.
  - symmetry. apply app_nil_r.
  - destruct st; rewrite bind_unfold, publishLog_unfold; simpl; rewrite Hok; reflexivity.
Qed.

Lemma readers_broker bs sched : forall out err w,
  (forall k, w_replies w k = None) ->
  w_broker (snd (readers bs sched out err w)) =
  w_broker w ++ ((fun c => (channel bs, logMessage (chunk_text c))) <$> chunks sched out err).
Proof.
  induction sched as [|st sched IH]; intros out err w Hok; simpl.
  - symmetry. apply app_nil_r.
  - destruct st.
    + destruct out as [|r out']; [apply IH, Hok|].
      rewrite bind_unfold, IH by (intros k; rewrite readerStep_replies; apply Hok).
      rewrite readerStep_broker by exact Hok.
      rewrite fmap_app, <- app_assoc. f_equal. f_equal.
      destruct (String.eqb _ _); reflexivity.
    + destruct err as [|r err']; [apply IH, Hok|].
      rewrite bind_unfold, IH by (intros k; rewrite readerStep_replies; apply Hok).
      rewrite readerStep_broker by exact Hok.
      rewrite fmap_app, <- app_assoc. f_equal. f_equal.
      destruct (String.eqb _ _); reflexivity.
Qed.

(** Each stream's chunks come out in the order the process wrote them. *)
Lemma emitted_cons r reads :
  emitted (r :: reads) =
  (if String.eqb (r_data r) "" then [] else [r_data r]) ++ emitted reads.
Proof.
  unfold emitted. rewrite fmap_cons, filter_cons.
  destruct (String.eqb_spec (r_data r) ""); case_decide; try contradiction; reflexivity.
Qed.

Lemma chunks_stdout_order sched : forall out err,
  of_stream Stdout (chunks sched out err) `prefix_of` emitted out.
Proof.
  unfold of_stream.
  induction sched as [|st sched IH]; intros out err; simpl.
  - apply prefix_nil.
  - destruct st.
    + destruct out as [|r out']; [apply IH|].
      rewrite filter_app, fmap_app, emitted_cons.
      destruct (String.eqb _ _); simpl.
      * destruct (r_err r); [|apply IH].
        etrans; [apply IH | apply prefix_nil].
      * apply prefix_cons.
        destruct (r_err r); [|apply IH].
        etrans; [apply IH | apply prefix_nil].
    + destruct err as [|r err']; [apply IH|].
      rewrite filter_app, fmap_app.
      destruct (String.eqb _ _); simpl; apply IH.
Qed.

Lemma chunks_stderr_order sched : forall out err,
  of_stream Stderr (chunks sched out err) `prefix_of` emitted err.
Proof.
  unfold of_stream.
  induction sched as [|st sched IH]; intros out err; simpl.
  - apply prefix_nil.
  - destruct st.
    + destruct out as [|r out']; [apply IH|].
      rewrite filter_app, fmap_app.
      destruct (String.eqb _ _); simpl; apply IH.
    + destruct err as [|r err']; [apply IH|].
      rewrite filter_app, fmap_app, emitted_cons.
      destruct (String.eqb _ _); simpl.
      * destruct (r_err r); [|apply IH].
        etrans; [apply IH | apply prefix_nil].
      * apply prefix_cons.
        destruct (r_err r); [|apply IH].
        etrans; [apply IH | apply prefix_nil].
Qed.

End BuildFacts.

(** * Theorems about the published payload *)

Section PayloadFacts.

Import JSON.

Lemma list_ascii_of_string_app (a b : string) :
  list_ascii_of_string (a +:+ b) = list_ascii_of_string a ++ list_ascii_of_string b.
Proof. induction a as [|c a IH]; simpl; [reflexivity | by rewrite IH]. Qed.

Lemma plain_char_scan c :
  plain_char c = true ->
  (c =? dquote)%char = false /\ (c =? bslash)%char = false /\ (N_of_ascii c <? 32)%N = false.
Proof.
  unfold plain_char. intros H.
  apply andb_prop in H as [H H3]. apply andb_prop in H as [H1 H2].
  apply negb_true_iff in H1, H2, H3. done.
Qed.

(** A plain text is scanned up to the closing quote and comes back unchanged. *)
Lemma scan_string_plain (m rest : list ascii) :
  forallb plain_char m = true ->
  scan_string (m ++ dquote :: rest) = Some (m, rest).
Proof.
  induction m as [|c m IH]; intros Hm.
  - reflexivity.
  - simpl in Hm. apply andb_prop in Hm as [Hc Hm].
    destruct (plain_char_scan c Hc) as (H1 & H2 & H3).
    change ((c :: m) ++ dquote :: rest) with (c :: (m ++ dquote :: rest)).
    cbn [scan_string]. rewrite H1, H2, H3, (IH Hm). reflexivity.
Qed.

Lemma parse_value_string n body t r :
  scan_string body = Some (t, r) ->
  parse_value (S n) (dquote :: body) = Some (Str (text_of t), r).
Proof. intros H. cbn -[scan_string text_of]. rewrite H. reflexivity. Qed.

(** A text of ASCII is well-formed UTF-8 as it is. *)
Lemma toValidUTF8_ascii (l : list ascii) :
  forallb (fun c => (N_of_ascii c <? 128)%N) l = true -> toValidUTF8 l = l.
Proof.
  induction l as [|c l IH]; [reflexivity|]. simpl.
  intros [Hc Hl]%andb_prop. rewrite Hc. by rewrite IH.
Qed.

(** The payload of a plain message is the JSON object with the single
    member [log], whose value is the message brought to well-formed UTF-8. *)
Lemma logMessage_plain_parse message k :
  plain message ->
  parse_fuel (3 + k) (Build.logMessage message)
  = Some (Object [("log", Str (text_of (list_ascii_of_string message)))]).
Proof.
  intros Hm. unfold parse_fuel, Build.logMessage.
  rewrite !list_ascii_of_string_app.
  change (list_ascii_of_string "{") with ["{"%char].
  change (list_ascii_of_string q) with [dquote].
  change (list_ascii_of_string ":") with [":"%char].
  change (list_ascii_of_string "}") with ["}"%char].
  change (list_ascii_of_string "log") with ["l"; "o"; "g"]%char.
  set (m := list_ascii_of_string message).
  assert (Hv : parse_value (S k) (dquote :: m ++ [dquote; "}"%char])
               = Some (Str (text_of m), ["}"%char])).
  { apply parse_value_string, scan_string_plain, Hm. }
  change (3 + k) with (S (S (S k))).
  change (parse_value (S (S (S k))) _) with
    (parse_members (S (S k))
       (dquote :: "l"%char :: "o"%char :: "g"%char :: dquote :: ":"%char
          :: dquote :: m ++ [dquote; "}"%char])
     ≫= λ '(ms, r2), Some (Object ms, r2)).
  change (parse_members (S (S k)) _) with
    (parse_value (S k) (dquote :: m ++ [dquote; "}"%char])
     ≫= λ '(v, r3),
       match skip_ws r3 with
       | c3 :: r4 =>
           if (c3 =? ",")%char then
             '(ms, r5) ← parse_members (S k) r4; Some (("log", v) :: ms, r5)
           else if (c3 =? "}")%char then Some ([("log", v)], r4)
           else None
       | [] => None
       end).
  rewrite Hv. reflexivity.
Qed.

Lemma string_length_app (a b : string) :
  String.length (a +:+ b) = String.length a + String.length b.
Proof. induction a as [|c a IH]; simpl; [reflexivity | by rewrite IH]. Qed.

Lemma length_logMessage message :
  String.length (Build.logMessage message) = 10 + String.length message.
Proof. unfold Build.logMessage. rewrite !string_length_app. simpl. lia. Qed.

Lemma logMessage_plain_unmarshal message :
  plain message ->
  unmarshalLogMessage (Build.logMessage message)
  = Some {| Log := text_of (list_ascii_of_string message) |}.
Proof.
  intros Hm. unfold unmarshalLogMessage, parse.
  rewrite length_logMessage.
  change (S (10 + String.length message)) with (3 + (8 + String.length message)).
  rewrite logMessage_plain_parse by exact Hm. reflexivity.
Qed.

End PayloadFacts.

(** * The claims about the build server *)

Section BuildClaims.

Import Build.

(** C1, counterexample.  The build [failing_build] starts, prints a line and
    exits with status 1: [main] ends in [log.Fatalf], so the claim as the
    specification words it does not hold. *)
Lemma C1_counterexample : ~ failure_reported_and_upload_attempted.
Proof.
  intros H.
  specialize (H failing_proc (fresh accepting) "exit status 1").
  vm_compute in H.
  destruct H as (Hexit & _); try reflexivity; discriminate.
Qed.

(** What the run of [failing_build] leaves behind: the start event and the
    two chunks on the broker, nothing in S3, and a fatal exit. *)
Example failing_build_run :
  let '(exit, w) := main failing_proc (fresh accepting) in
  exit = Fatal "Build failed: build command failed: exit status 1" /\
  w_broker w = [("logs:abc123", logMessage "Build Started...");
                ("logs:abc123", logMessage "Installing...");
                ("logs:abc123", logMessage "error: npm ERR! missing script: build")] /\
  w_s3 w = [].
Proof. vm_compute. repeat split; reflexivity. Qed.

(** C1, amended.  When the build command starts and then exits with a
    non-zero status, [runBuild] returns the error [build command failed]
    as soon as [cmd.Wait] returns: the world is left as it was at that moment
    (nothing more is published, so no terminal event, and [uploadFiles] is not
    called, so nothing is put to S3), and [main] logs [Build failed] and
    exits through [log.Fatalf]. *)
Theorem C1_failed_build_is_fatal (pe : ProcEnv) (w : World) (e : error) :
  env_awsConfig pe = None ->
  env_PROJECT_ID pe <> "" ->
  e_stdoutPipe (env_build pe) = None ->
  e_stderrPipe (env_build pe) = None ->
  e_start (env_build pe) = None ->
  e_wait (env_build pe) = Some e ->
  let bs := {| projectID := env_PROJECT_ID pe |} in
  let env := env_build pe in
  let at_wait :=
    snd (readers bs (e_sched env) (e_stdout env) (e_stderr env)
           (snd (publishLog bs "Build Started..."
                   (snd (logPrint "Executing build script" w))))) in
  let msg := "Build failed: build command failed: " +:+ e in
  runBuild bs env w = (Some ("build command failed: " +:+ e), at_wait) /\
  main pe w = (Fatal msg, snd (logPrint msg at_wait)) /\
  w_broker (snd (main pe w)) = w_broker at_wait /\
  w_s3 (snd (main pe w)) = w_s3 w.
Proof.
  intros Haws Hid Hout Herr Hstart Hwait bs env at_wait msg.
  assert (Hrun : runBuild bs env w = (Some ("build command failed: " +:+ e), at_wait)).
  { unfold runBuild. rewrite !bind_unfold.
    fold env in Hout, Herr, Hstart, Hwait.
    rewrite Hout, Herr, Hstart, bind_unfold, Hwait. reflexivity. }
  assert (Hmain : main pe w = (Fatal msg, snd (logPrint msg at_wait))).
  { unfold main, NewBuildServer. rewrite Haws.
    apply String.eqb_neq in Hid. rewrite Hid.
    rewrite bind_unfold. fold bs env. rewrite Hrun. reflexivity. }
  repeat split; [exact Hrun | exact Hmain | by rewrite Hmain |].
  rewrite Hmain. simpl. unfold at_wait.
  rewrite readers_s3, publishLog_unfold. reflexivity.
Qed.

Lemma C1_failed_build_is_fatal_witness :
  fst (main failing_proc (fresh accepting))
    = Fatal "Build failed: build command failed: exit status 1"
  /\ w_s3 (snd (main failing_proc (fresh accepting))) = [].
Proof.
  destruct (C1_failed_build_is_fatal failing_proc (fresh accepting) "exit status 1")
    as (_ & Hmain & _ & Hs3); try reflexivity; [discriminate|].
  split; [rewrite Hmain; reflexivity | exact Hs3].
Defined.

(** C2, at the failing input.  A chunk that ends in a line feed, as build
    output does, is published on [logs:<projectID>], but the payload holds the
    raw line feed between the quotes: it is not a JSON text, and the
    forwarder's [json.Unmarshal] rejects it. *)
Theorem C2_newline_chunk_payload_is_not_json :
  let message := "Installing..." +:+ nl in
  (forall bs,
     w_broker (snd (publishLog bs message (fresh accepting)))
       = [("logs:" +:+ projectID bs, logMessage message)]) /\
  ~ JSON.valid (logMessage message) /\
  unmarshalLogMessage (logMessage message) = None.
Proof.
  intros message. split; [|split].
  - intros bs. rewrite publishLog_unfold. reflexivity.
  - intros (v & n & H).
    destruct n as [|[|[|n]]]; vm_compute in H; discriminate.
  - vm_compute. reflexivity.
Qed.

(** The same defect with a quote in the text: the string literal ends early. *)
Lemma logMessage_quote_not_json :
  ~ JSON.valid (logMessage ("say " +:+ q +:+ "hi" +:+ q)).
Proof.
  intros (v & n & H).
  destruct n as [|[|[|n]]]; vm_compute in H; discriminate.
Qed.

(** A backslash in the text is read as an escape: the payload is a JSON
    text, but its [log] member is not the message. *)
Lemma logMessage_backslash_changes_text :
  unmarshalLogMessage (logMessage "C:\node\bin") <> Some {| Log := "C:\node\bin" |}.
Proof. vm_compute. discriminate. Qed.

(** C9, counterexample.  [repeating_build] reads the chunk ["."] twice; the
    two payloads are the same text, so no number read off a payload can grow
    from the first to the second. *)
Lemma C9_counterexample : ~ payloads_carry_sequence_numbers.
Proof.
  intros [seq H].
  specialize (H {| projectID := "abc123" |} repeating_build (fresh accepting)
                1 2 (logMessage ".") (logMessage ".")).
  assert (seq (logMessage ".") < seq (logMessage ".")) as Hlt.
  { apply H; [reflexivity | vm_compute; reflexivity | vm_compute; reflexivity | lia]. }
  lia.
Qed.

(** C9, amended.  With a broker that accepts, the reader loops publish one
    payload per non-empty chunk, in the order they run, on the channel of the
    build; the payload is [logMessage] of the chunk (after [error: ] for
    stderr), a function of the text alone, with no sequence number.  The
    chunks of each stream are published in the order the process wrote them. *)
Theorem C9_chunks_published_in_read_order
    (bs : BuildServer) (sched : list Stream) (out err : list ReadResult) (w : World) :
  (forall k, w_replies w k = None) ->
  w_broker (snd (readers bs sched out err w)) =
    w_broker w ++
    ((fun c => (channel bs, logMessage (chunk_text c))) <$> chunks sched out err) /\
  of_stream Stdout (chunks sched out err) `prefix_of` emitted out /\
  of_stream Stderr (chunks sched out err) `prefix_of` emitted err.
Proof.
  intros Hok. split; [|split].
  - apply readers_broker, Hok.
  - apply chunks_stdout_order.
  - apply chunks_stderr_order.
Qed.

Lemma C9_chunks_published_in_read_order_witness :
  w_broker (snd (readers {| projectID := "abc123" |}
                   (e_sched repeating_build) (e_stdout repeating_build)
                   (e_stderr repeating_build) (fresh accepting)))
  = [("logs:abc123", logMessage "."); ("logs:abc123", logMessage ".")].
Proof.
  destruct (C9_chunks_published_in_read_order {| projectID := "abc123" |}
              (e_sched repeating_build) (e_stdout repeating_build)
              (e_stderr repeating_build) (fresh accepting)) as (H & _ & _).
  - intros k. reflexivity.
  - rewrite H. reflexivity.
Defined.

End BuildClaims.

(** * Theorems about the API server *)

Section ApiFacts.

Import Api.

Variable matches : string -> string -> bool.

#[local] Abbreviation step := (Api.step matches).
#[local] Abbreviation run := (Api.run matches).
#[local] Abbreviation matching := (Api.matching matches).
#[local] Abbreviation fwd_ok := (fwd_ok matches).
#[local] Abbreviation Inv := (Inv matches).

Lemma frames_of_snoc_same i l frame :
  frames_of i (l ++ [(Forwarder i, frame)]) = frames_of i l ++ [frame].
Proof.
  unfold frames_of. rewrite filter_app, fmap_app, filter_cons.
  case_decide; [reflexivity | done].
Qed.

Lemma frames_of_snoc_other i l t frame :
  t <> Forwarder i -> frames_of i (l ++ [(t, frame)]) = frames_of i l.
Proof.
  intros Ht. unfold frames_of. rewrite filter_app, fmap_app, filter_cons.
  case_decide; [done | apply app_nil_r].
Qed.

Lemma frames_of_nil i l :
  (forall t frame, (t, frame) ∈ l -> t <> Forwarder i) -> frames_of i l = [].
Proof.
  intros H. unfold frames_of.
  induction l as [|[t f] l IH]; [reflexivity|].
  rewrite filter_cons. case_decide as Hd; simpl in Hd.
  - exfalso. apply (H t f); [left | exact Hd].
  - apply IH. intros t' f' Hin. apply (H t' f'). by right.
Qed.

Lemma matching_publish (s s' : State) (fw : Fwd) channel payload :
  published s' = published s ++ [(channel, payload)] ->
  f_since fw <= length (published s) ->
  matching s' fw
  = matching s fw ++ (if matches (f_channel fw) channel then [payload] else []).
Proof.
  intros Hp Hle. unfold Api.matching. rewrite Hp.
  rewrite drop_app_le by exact Hle.
  rewrite filter_app, fmap_app. f_equal.
  rewrite filter_cons. simpl.
  destruct (matches (f_channel fw) channel); case_decide; done.
Qed.

Lemma matching_same (s s' : State) (fw fw' : Fwd) :
  published s' = published s -> f_channel fw' = f_channel fw ->
  f_since fw' = f_since fw -> matching s' fw' = matching s fw.
Proof. intros Hp Hc Hs. unfold Api.matching. by rewrite Hp, Hc, Hs. Qed.

Lemma run_app s ls1 ls2 :
  run s (ls1 ++ ls2) = run s ls1 ≫= fun s1 => run s1 ls2.
Proof.
  revert s. induction ls1 as [|l ls1 IH]; intros s; simpl; [reflexivity|].
  destruct (step s l) as [s1|]; simpl; [apply IH | reflexivity].
Qed.

Lemma Inv_init : Inv init.
Proof. split; intros i x H; cbn in H; rewrite lookup_nil in H; discriminate. Qed.

(** The frames and failures of [i] on its connection, and the history, are
    all that [fwd_ok] reads from the state. *)
Lemma fwd_ok_frame (s s' : State) i fw :
  fwd_ok s i fw ->
  published s' = published s ->
  f_conn fw < length (conns s') ->
  (forall conn', conns s' !! f_conn fw = Some conn' ->
     exists conn, conns s !! f_conn fw = Some conn /\
       frames_of i (c_sent conn') = frames_of i (c_sent conn) /\
       frames_of i (c_failed conn') = frames_of i (c_failed conn)) ->
  fwd_ok s' i fw.
Proof.
  intros [H1 H2 H3 H4 H5 H6] Hp Hlen Hc. split.
  - exact Hlen.
  - intros conn' Hl. destruct (Hc _ Hl) as (conn & Hl0 & Hs & Hf).
    unfold forwarded, failed_by. fold (frames_of i (c_sent conn')).
    fold (frames_of i (c_failed conn')). rewrite Hs, Hf. apply (H2 _ Hl0).
  - intros conn' Hl Hpc. destruct (Hc _ Hl) as (conn & Hl0 & Hs & Hf).
    unfold failed_by. fold (frames_of i (c_failed conn')). rewrite Hf.
    apply (H3 _ Hl0 Hpc).
  - exact H4.
  - by rewrite Hp.
  - rewrite (matching_same s s' fw fw) by done. exact H6.
Qed.

(** A connection is replaced by one with the same frames for [i]. *)
Lemma fwd_ok_set_conn (s s' : State) i fw c conn conn' :
  fwd_ok s i fw ->
  published s' = published s ->
  conns s !! c = Some conn ->
  conns s' = <[c := conn']> (conns s) ->
  frames_of i (c_sent conn') = frames_of i (c_sent conn) ->
  frames_of i (c_failed conn') = frames_of i (c_failed conn) ->
  fwd_ok s' i fw.
Proof.
  intros Hok Hp Hl Hs' Hs Hf.
  apply (fwd_ok_frame s); [exact Hok | exact Hp | |].
  - rewrite Hs', length_insert. apply Hok.
  - intros conn0 Hl0. rewrite Hs' in Hl0.
    apply list_lookup_insert_Some in Hl0 as [(<- & -> & _)|(Hne & Hl0)].
    + exists conn. done.
    + exists conn0. done.
Qed.

(** Which forwarders exist, and for which connection, is all that
    [conn_ok] reads from the state. *)
Lemma conn_ok_frame (s s' : State) c conn :
  conn_ok s c conn ->
  (forall i fw, fwds s !! i = Some fw ->
     exists fw', fwds s' !! i = Some fw' /\ f_conn fw' = f_conn fw) ->
  conn_ok s' c conn.
Proof.
  intros [H1 H2] Hf. split; [|exact H2].
  intros t frame Hin. destruct (H1 t frame Hin) as [?|(i & fw & p & -> & Hl & Hc & -> & Hd)].
  - by left.
  - right. destruct (Hf _ _ Hl) as (fw' & Hl' & Hc').
    exists i, fw', p. repeat split; [done | congruence | done].
Qed.

Lemma conn_ok_same_fwds (s s' : State) c conn :
  conn_ok s c conn -> fwds s' = fwds s -> conn_ok s' c conn.
Proof.
  intros H Hf. apply (conn_ok_frame s); [exact H|].
  intros i fw Hl. exists fw. by rewrite Hf.
Qed.

(** Forwarder [i] is replaced by one for the same connection. *)
Lemma conn_ok_set_fwd (s s' : State) c conn i fw fw' :
  conn_ok s c conn ->
  fwds s !! i = Some fw ->
  fwds s' = <[i := fw']> (fwds s) ->
  f_conn fw' = f_conn fw ->
  conn_ok s' c conn.
Proof.
  intros H Hl Hs' Hc. apply (conn_ok_frame s); [exact H|].
  intros j fwj Hj. rewrite Hs'. destruct (decide (j = i)) as [->|Hne].
  - exists fw'. rewrite list_lookup_insert_eq by (eapply lookup_lt_Some; eauto).
    split; [done | congruence].
  - exists fwj. by rewrite list_lookup_insert_ne.
Qed.

(** No frame of a connection is tagged with a forwarder that does not exist. *)
Lemma frames_of_fresh (s : State) c conn l :
  conn_ok s c conn ->
  (forall x, x ∈ l -> x ∈ c_sent conn ++ c_failed conn) ->
  frames_of (length (fwds s)) l = [].
Proof.
  intros [Hw _] Hsub. apply frames_of_nil. intros t frame Hin Heq.
  destruct (Hw t frame (Hsub _ Hin)) as [[-> _]|(i & fw & p & -> & Hl & _)].
  - discriminate.
  - injection Heq as ->. apply lookup_lt_Some in Hl. lia.
Qed.

(** The connections after one of them is replaced. *)
Lemma conns_ok_set (s s' : State) c conn conn' :
  (forall c0 conn0, conns s !! c0 = Some conn0 -> conn_ok s c0 conn0) ->
  conns s !! c = Some conn ->
  conns s' = <[c := conn']> (conns s) ->
  (forall i fw, fwds s !! i = Some fw ->
     exists fw', fwds s' !! i = Some fw' /\ f_conn fw' = f_conn fw) ->
  conn_ok s' c conn' ->
  forall c0 conn0, conns s' !! c0 = Some conn0 -> conn_ok s' c0 conn0.
Proof.
  intros Hc Hl Hs' Hfw Hnew c0 conn0 Hl0. rewrite Hs' in Hl0.
  apply list_lookup_insert_Some in Hl0 as [(<- & <- & _)|(Hne & Hl0)].
  - exact Hnew.
  - apply (conn_ok_frame s); [by apply Hc | exact Hfw].
Qed.

Lemma fwds_kept (s s' : State) :
  fwds s' = fwds s ->
  forall i fw, fwds s !! i = Some fw ->
    exists fw', fwds s' !! i = Some fw' /\ f_conn fw' = f_conn fw.
Proof. intros Hf i fw Hl. exists fw. by rewrite Hf. Qed.

Lemma fwds_grown (s s' : State) fw0 :
  fwds s' = fwds s ++ [fw0] ->
  forall i fw, fwds s !! i = Some fw ->
    exists fw', fwds s' !! i = Some fw' /\ f_conn fw' = f_conn fw.
Proof.
  intros Hf i fw Hl. exists fw. rewrite Hf. split; [|done].
  by apply lookup_app_l_Some.
Qed.

Lemma fwds_set (s s' : State) i fw fw' :
  fwds s !! i = Some fw ->
  fwds s' = <[i := fw']> (fwds s) ->
  f_conn fw' = f_conn fw ->
  forall j fwj, fwds s !! j = Some fwj ->
    exists fwj', fwds s' !! j = Some fwj' /\ f_conn fwj' = f_conn fwj.
Proof.
  intros Hl Hs' Hc j fwj Hj. rewrite Hs'. destruct (decide (j = i)) as [->|Hne].
  - exists fw'. rewrite list_lookup_insert_eq by (eapply lookup_lt_Some; eauto).
    split; [done | congruence].
  - exists fwj. by rewrite list_lookup_insert_ne.
Qed.

(** One more frame on a connection. *)
Lemma conn_ok_extend (s : State) c conn conn' t frame :
  conn_ok s c conn ->
  (forall x, x ∈ c_sent conn' ++ c_failed conn' ->
     x ∈ c_sent conn ++ c_failed conn \/ x = (t, frame)) ->
  ((t = Handler c /\ exists channel, frame = ack channel) \/
   (exists i fw p, t = Forwarder i /\ fwds s !! i = Some fw /\
                   f_conn fw = c /\ frame = wrap p /\ decodable p)) ->
  (c_open conn' = false <-> c_pc conn' = HReturned) ->
  conn_ok s c conn'.
Proof.
  intros [Hw _] Hsub Hnew Hcl. split; [|exact Hcl].
  intros t0 frame0 Hin. destruct (Hsub _ Hin) as [Hold|[= -> ->]].
  - by apply Hw.
  - exact Hnew.
Qed.

Lemma step_inv (s s' : State) (l : Label) :
  Inv s -> step s l = Some s' -> Inv s'.
Proof.
  intros [Hf Hc] Hstep. destruct l as [ok|c r|c ok|i|channel payload|i|i ok|i];
    simpl in Hstep.
  - (* Upgrade *)
    destruct ok; injection Hstep as <-.
    + split.
      * intros i fw Hl. simpl in Hl. apply (fwd_ok_frame s); [by apply Hf | done | |].
        -- simpl. rewrite length_app. pose proof (ok_conn _ _ _ _ (Hf _ _ Hl)). lia.
        -- intros conn' Hl'. simpl in Hl'. exists conn'.
           rewrite lookup_app_l in Hl' by apply (Hf _ _ Hl). done.
      * intros c conn Hl. simpl in Hl.
        apply lookup_app_Some in Hl as [Hl|[_ Hl]].
        -- apply (conn_ok_same_fwds s); [by apply Hc | done].
        -- destruct (c - length (conns s)) as [|n]; [|by destruct n].
           injection Hl as <-. split; simpl; [intros t frame Hin; inversion Hin | done].
    + split.
      * intros i fw Hl. apply (fwd_ok_frame s); [by apply Hf | done | apply (Hf _ _ Hl) |].
        intros conn' Hl'. exists conn'. done.
      * intros c conn Hl. apply (conn_ok_same_fwds s); [by apply Hc | done].
  - (* Read *)
    destruct (conns s !! c) as [conn|] eqn:Hl; [|done]. simpl in Hstep.
    destruct (c_pc conn) eqn:Hpc; try done. destruct r as [e|msg].
    + injection Hstep as <-. split.
      * intros i fw Hi. simpl in Hi.
        eapply fwd_ok_set_conn; [by apply Hf | done | exact Hl | reflexivity | done | done].
      * eapply conns_ok_set; [exact Hc | exact Hl | reflexivity | by apply fwds_kept |].
        destruct (Hc _ _ Hl) as [Hw _]. split; [|done].
        intros t frame Hin. destruct (Hw t frame Hin) as [?|?]; [by left | by right].
    + destruct (subscribe_request msg) as [channel|]; injection Hstep as <-; [|by split].
      split.
      * intros i fw Hi. simpl in Hi. apply lookup_app_Some in Hi as [Hi|[Hge Hi]].
        { eapply fwd_ok_set_conn; [by apply Hf | done | exact Hl | reflexivity | done | done]. }
        destruct (i - length (fwds s)) as [|n] eqn:Hn; [|by destruct n].
        injection Hi as <-. assert (i = length (fwds s)) as -> by lia.
        split; simpl.
        -- rewrite length_insert. by eapply lookup_lt_Some.
        -- intros conn0 Hl0. rewrite list_lookup_insert_eq in Hl0
             by (by eapply lookup_lt_Some).
           injection Hl0 as <-. unfold forwarded, failed_by, inflight. simpl.
           change ([] = frames_of (length (fwds s)) (c_sent conn) ++
                        frames_of (length (fwds s)) (c_failed conn)).
           rewrite !(frames_of_fresh s c conn); [done | by apply Hc | | by apply Hc |].
           ++ intros x Hx. apply elem_of_app. by right.
           ++ intros x Hx. apply elem_of_app. by left.
        -- intros conn0 Hl0 _. rewrite list_lookup_insert_eq in Hl0
             by (by eapply lookup_lt_Some).
           injection Hl0 as <-. unfold failed_by. simpl.
           change (frames_of (length (fwds s)) (c_failed conn) = []).
           rewrite (frames_of_fresh s c conn); [done | by apply Hc |].
           intros x Hx. apply elem_of_app. by right.
        -- intros p Hp. discriminate.
        -- lia.
        -- done.
      * eapply conns_ok_set; [exact Hc | exact Hl | reflexivity | by eapply fwds_grown |].
        destruct (Hc _ _ Hl) as [Hw Hcl]. split; simpl.
        -- intros t frame Hin.
           destruct (Hw t frame Hin) as [?|(i & fw & p & -> & Hi & Hrest)]; [by left|].
           right. exists i, fw, p. split; [done|]. split; [|done].
           by apply lookup_app_l_Some.
        -- rewrite Hcl, Hpc. split; discriminate.
  - (* AckDone *)
    destruct (conns s !! c) as [conn|] eqn:Hl; [|done]. simpl in Hstep.
    destruct (c_pc conn) eqn:Hpc; try done. injection Hstep as <-.
    destruct (Hc _ _ Hl) as [Hw Hcl]. split.
    + intros i fw Hi. simpl in Hi.
      eapply fwd_ok_set_conn; [by apply Hf | done | exact Hl | reflexivity | |];
        destruct (ok && c_open conn); simpl; try done;
        by rewrite frames_of_snoc_other.
    + eapply conns_ok_set; [exact Hc | exact Hl | reflexivity | by apply fwds_kept |].
      split.
      * intros t frame Hin.
        assert ((t, frame) ∈ c_sent conn ++ c_failed conn \/
                (t, frame) = (Handler c, ack channel)) as [Hold|Hnew].
        { destruct (ok && c_open conn); simpl in Hin;
            rewrite !elem_of_app in Hin; rewrite elem_of_app;
            rewrite list_elem_of_singleton in Hin; tauto. }
        -- destruct (Hw t frame Hold) as [?|?]; [by left | by right].
        -- injection Hnew as -> ->. left. split; [done | by exists channel].
      * rewrite Hpc in Hcl.
        destruct (ok && c_open conn); simpl; rewrite Hcl; split; discriminate.
  - (* Subscribe *)
    destruct (fwds s !! i) as [fw|] eqn:Hi; [|done]. simpl in Hstep.
    destruct (f_pc fw) eqn:Hpc; try done. injection Hstep as <-.
    split.
    + intros j fwj Hj. simpl in Hj.
      apply list_lookup_insert_Some in Hj as [(<- & <- & _)|(Hne & Hj)].
      * destruct (Hf _ _ Hi) as [H1 H2 H3 H4 H5 H6]. rewrite Hpc in H6.
        destruct H6 as [Hrecv Hq]. split; simpl.
        -- exact H1.
        -- intros conn Hl. specialize (H2 conn Hl). unfold inflight in H2.
           rewrite Hrecv, Hpc in H2. exact H2.
        -- intros conn Hl _. apply (H3 conn Hl). by rewrite Hpc.
        -- discriminate.
        -- lia.
        -- unfold Api.matching. simpl. by rewrite drop_all.
      * apply (fwd_ok_frame s); [by apply Hf | done | apply (Hf _ _ Hj) |].
        intros conn' Hl. by exists conn'.
    + intros c conn Hl. simpl in Hl.
      eapply conn_ok_set_fwd; [by apply Hc | exact Hi | reflexivity | done].
  - (* Publish *)
    injection Hstep as <-. split.
    + intros i fw' Hi. simpl in Hi. rewrite list_lookup_fmap in Hi.
      destruct (fwds s !! i) as [fw|] eqn:Hi0; [|done]. injection Hi as <-.
      destruct (Hf _ _ Hi0) as [H1 H2 H3 H4 H5 H6].
      set (s' := {| conns := conns s; fwds := deliver matches channel payload <$> fwds s;
                    published := published s ++ [(channel, payload)]; log := log s |}).
      assert (Hm : forall fw', f_channel fw' = f_channel fw -> f_since fw' = f_since fw ->
                matching s' fw' = matching s fw ++
                  (if matches (f_channel fw) channel then [payload] else [])).
      { intros fw' Hch Hsi. rewrite (matching_publish s s' fw' channel payload);
          [by rewrite (matching_same s s fw' fw), Hch | done | by rewrite Hsi]. }
      unfold deliver.
      destruct (subscribed fw) eqn:Hsub; simpl;
        [destruct (matches (f_channel fw) channel) eqn:Hmat|]; simpl.
      * split; simpl; try done.
        -- rewrite length_app. simpl. lia.
        -- rewrite Hm by done. unfold subscribed in Hsub.
           destruct (f_pc fw); try done; by rewrite app_assoc, H6.
      * split; try done.
        -- simpl. rewrite length_app. simpl. lia.
        -- rewrite Hm by done. rewrite app_nil_r. exact H6.
      * split; try done.
        -- simpl. rewrite length_app. simpl. lia.
        -- rewrite Hm by done. unfold subscribed in Hsub.
           destruct (f_pc fw); try done.
           destruct H6 as [Hq Hpre]. split; [done|]. by apply prefix_app_r.
    + intros c conn Hl. simpl in Hl. apply (conn_ok_frame s); [by apply Hc|].
      intros i fw Hi. exists (deliver matches channel payload fw). simpl.
      rewrite list_lookup_fmap, Hi. split; [done|].
      unfold deliver. by destruct (_ && _).
  - (* Receive *)
    destruct (fwds s !! i) as [fw|] eqn:Hi; [|done]. simpl in Hstep.
    destruct (f_pc fw) eqn:Hpc; try done.
    destruct (f_queue fw) as [|p rest] eqn:Hq; try done.
    destruct (Hf _ _ Hi) as [H1 H2 H3 H4 H5 H6]. rewrite Hpc, Hq in H6.
    assert (Hinfl : inflight fw = []) by (unfold inflight; by rewrite Hpc).
    destruct (unmarshalLogMessage p) as [m|] eqn:Hu; injection Hstep as <-.
    + split.
      * intros j fwj Hj. simpl in Hj.
        apply list_lookup_insert_Some in Hj as [(<- & <- & _)|(Hne & Hj)].
        -- split; simpl; try done.
           ++ intros conn Hl. specialize (H2 conn Hl). rewrite Hinfl in H2.
              rewrite (H3 conn Hl) in * by (by rewrite Hpc).
              rewrite filter_app, fmap_app, H2, filter_cons. unfold inflight. simpl.
              case_decide as Hd; [by rewrite !app_nil_r|].
              exfalso. apply Hd. unfold decodable. by rewrite Hu.
           ++ intros conn Hl _. apply (H3 conn Hl). by rewrite Hpc.
           ++ intros p' [= <-]. unfold decodable. by rewrite Hu.
           ++ rewrite <- app_assoc. exact H6.
        -- apply (fwd_ok_frame s); [by apply Hf | done | apply (Hf _ _ Hj) |].
           intros conn' Hl. by exists conn'.
      * intros c conn Hl. simpl in Hl.
        eapply conn_ok_set_fwd; [by apply Hc | exact Hi | reflexivity | done].
    + split.
      * intros j fwj Hj. simpl in Hj.
        apply list_lookup_insert_Some in Hj as [(<- & <- & _)|(Hne & Hj)].
        -- split; simpl; try done.
           ++ intros conn Hl. specialize (H2 conn Hl). rewrite Hinfl in H2.
              rewrite filter_app, fmap_app, H2, filter_cons. unfold inflight. simpl.
              case_decide as Hd; [|by rewrite !app_nil_r].
              exfalso. unfold decodable in Hd. rewrite Hu in Hd. by destruct Hd.
           ++ intros conn Hl _. apply (H3 conn Hl). by rewrite Hpc.
           ++ rewrite <- app_assoc. exact H6.
        -- apply (fwd_ok_frame s); [by apply Hf | done | apply (Hf _ _ Hj) |].
           intros conn' Hl. by exists conn'.
      * intros c conn Hl. simpl in Hl.
        eapply conn_ok_set_fwd; [by apply Hc | exact Hi | reflexivity | done].
  - (* WriteDone *)
    destruct (fwds s !! i) as [fw|] eqn:Hi; [|done]. simpl in Hstep.
    destruct (f_pc fw) eqn:Hpc; try done.
    destruct (conns s !! f_conn fw) as [conn|] eqn:Hl; [|done]. simpl in Hstep.
    destruct (Hf _ _ Hi) as [H1 H2 H3 H4 H5 H6]. rewrite Hpc in H6.
    specialize (H2 conn Hl). unfold inflight in H2. rewrite Hpc in H2. simpl in H2.
    assert (Hnofail : failed_by conn i = []) by (apply H3; [done | by rewrite Hpc]).
    rewrite Hnofail in H2.
    destruct (Hc _ _ Hl) as [Hw Hcl].
    destruct (ok && c_open conn); injection Hstep as <-.
    + split.
      * intros j fwj Hj. simpl in Hj.
        apply list_lookup_insert_Some in Hj as [(<- & <- & _)|(Hne & Hj)].
        -- split; simpl; try done.
           ++ by rewrite length_insert.
           ++ intros conn0 Hl0. rewrite list_lookup_insert_eq in Hl0 by done.
              injection Hl0 as <-. unfold forwarded, failed_by, inflight. simpl.
              fold (frames_of i (c_sent conn ++ [(Forwarder i, wrap payload)])).
              rewrite frames_of_snoc_same. fold (failed_by conn i). rewrite Hnofail.
              by rewrite app_nil_r.
           ++ intros conn0 Hl0 _. rewrite list_lookup_insert_eq in Hl0 by done.
              by injection Hl0 as <-.
        -- eapply fwd_ok_set_conn; [by apply Hf | done | exact Hl | reflexivity | |done].
           simpl. rewrite frames_of_snoc_other; [done | congruence].
      * eapply conns_ok_set;
          [exact Hc | exact Hl | reflexivity | by eapply fwds_set |].
        eapply (conn_ok_extend _ _ conn _ (Forwarder i) (wrap payload)).
        -- eapply conn_ok_set_fwd; [by apply Hc | exact Hi | reflexivity | done].
        -- simpl. intros x Hin. rewrite !elem_of_app in Hin.
           rewrite elem_of_app. rewrite list_elem_of_singleton in Hin. tauto.
        -- right. exists i, (fwd_at fw FWaiting), payload. split; [done|]. simpl. split.
           ++ apply list_lookup_insert_eq. by eapply lookup_lt_Some.
           ++ split; [done|]. split; [done | by apply H4].
        -- done.
    + split.
      * intros j fwj Hj. simpl in Hj.
        apply list_lookup_insert_Some in Hj as [(<- & <- & _)|(Hne & Hj)].
        -- split; simpl; try done.
           ++ by rewrite length_insert.
           ++ intros conn0 Hl0. rewrite list_lookup_insert_eq in Hl0 by done.
              injection Hl0 as <-. unfold forwarded, failed_by, inflight. simpl.
              fold (frames_of i (c_failed conn ++ [(Forwarder i, wrap payload)])).
              rewrite frames_of_snoc_same.
              change (frames_of i (c_failed conn)) with (failed_by conn i).
              rewrite Hnofail. exact H2.
           ++ split; [done|]. change (f_recv fw `prefix_of` matching s fw).
              rewrite <- H6. by apply prefix_app_r.
        -- eapply fwd_ok_set_conn; [by apply Hf | done | exact Hl | reflexivity | done |].
           simpl. rewrite frames_of_snoc_other; [done | congruence].
      * set (fwr := {| f_conn := f_conn fw; f_channel := f_channel fw; f_pc := FReturned;
                       f_queue := []; f_since := f_since fw; f_recv := f_recv fw |}).
        eapply conns_ok_set;
          [exact Hc | exact Hl | reflexivity | by eapply (fwds_set s _ i fw fwr) |].
        eapply (conn_ok_extend _ _ conn _ (Forwarder i) (wrap payload)).
        -- eapply conn_ok_set_fwd; [by apply Hc | exact Hi | reflexivity | done].
        -- simpl. intros x Hin. rewrite !elem_of_app in Hin.
           rewrite elem_of_app. rewrite list_elem_of_singleton in Hin. tauto.
        -- right. exists i, fwr, payload. split; [done|]. simpl. split.
           ++ apply list_lookup_insert_eq. by eapply lookup_lt_Some.
           ++ split; [done|]. split; [done | by apply H4].
        -- done.
  - (* SubscriptionEnded *)
    destruct (fwds s !! i) as [fw|] eqn:Hi; [|done]. simpl in Hstep.
    destruct (f_pc fw) eqn:Hpc; try done. injection Hstep as <-.
    destruct (Hf _ _ Hi) as [H1 H2 H3 H4 H5 H6]. rewrite Hpc in H6.
    split.
    + intros j fwj Hj. simpl in Hj.
      apply list_lookup_insert_Some in Hj as [(<- & <- & _)|(Hne & Hj)].
      * split; simpl; try done.
        -- intros conn Hl. specialize (H2 conn Hl). unfold inflight in *.
           rewrite Hpc in H2. exact H2.
        -- split; [done|]. change (f_recv fw `prefix_of` matching s fw).
           rewrite <- H6. by apply prefix_app_r.
      * apply (fwd_ok_frame s); [by apply Hf | done | apply (Hf _ _ Hj) |].
        intros conn' Hl. by exists conn'.
    + intros c conn Hl. simpl in Hl.
      eapply conn_ok_set_fwd; [by apply Hc | exact Hi | reflexivity | done].
Qed.

Lemma run_inv (ls : list Label) : forall s s', Inv s -> run s ls = Some s' -> Inv s'.
Proof.
  induction ls as [|l ls IH]; intros s s' Hinv Hrun; simpl in Hrun.
  - by injection Hrun as <-.
  - destruct (step s l) as [s1|] eqn:Hstep; [|done]. simpl in Hrun.
    eapply IH; [|exact Hrun]. by eapply step_inv.
Qed.

Lemma reachable_inv (ls : list Label) (s : State) : run init ls = Some s -> Inv s.
Proof. apply run_inv, Inv_init. Qed.

Lemma prefix_sublist {A} (l1 l2 : list A) : l1 `prefix_of` l2 -> l1 `sublist_of` l2.
Proof. intros [k ->]. by apply sublist_inserts_r. Qed.

Lemma filter_all {A} (P : A -> Prop) `{!forall x, Decision (P x)} (l : list A) :
  Forall P l -> filter P l = l.
Proof.
  induction 1 as [|x l Hx Hl IH]; [reflexivity|].
  rewrite filter_cons, IH. by case_decide.
Qed.

(** What a forwarder has received is the beginning of what was published for it. *)
Lemma received_prefix (s : State) i fw :
  fwd_ok s i fw -> f_recv fw `prefix_of` matching s fw.
Proof.
  intros [_ _ _ _ _ H6]. destruct (f_pc fw).
  - destruct H6 as [-> _]. apply prefix_nil.
  - rewrite <- H6. by apply prefix_app_r.
  - rewrite <- H6. by apply prefix_app_r.
  - apply H6.
Qed.

(** C3.  A payload that [json.Unmarshal] rejects is dropped: the forwarder
    logs, writes nothing to the viewer, and is back at [range ch] with its
    subscription open and the next payload at the head of the queue; and in
    every reachable state every frame a forwarder wrote, or tried to write,
    carries a payload that unmarshals. *)
Theorem C3_undecodable_payload_is_dropped
    (ls : list Label) (s : State) (i : nat) (fw : Fwd) (p : string) (rest : list string) :
  run init ls = Some s ->
  fwds s !! i = Some fw ->
  f_pc fw = FWaiting ->
  f_queue fw = p :: rest ->
  unmarshalLogMessage p = None ->
  (exists s' fw',
     step s (Receive i) = Some s' /\
     conns s' = conns s /\
     log s' = log s ++ ["Failed to unmarshal log message"] /\
     fwds s' = <[i := fw']> (fwds s) /\
     f_pc fw' = FWaiting /\ subscribed fw' = true /\ f_queue fw' = rest /\
     f_conn fw' = f_conn fw /\ f_channel fw' = f_channel fw) /\
  (forall c conn j frame,
     conns s !! c = Some conn ->
     (Forwarder j, frame) ∈ c_sent conn ++ c_failed conn ->
     exists p', frame = wrap p' /\ decodable p').
Proof.
  intros Hrun Hi Hpc Hq Hu. split.
  - eexists _, _. simpl. rewrite Hi. simpl. rewrite Hpc, Hq, Hu.
    split; [reflexivity|]. simpl. repeat split; reflexivity.
  - intros c conn j frame Hl Hin.
    destruct (reachable_inv ls s Hrun) as [_ Hc].
    destruct (ok_writer _ _ _ (Hc _ _ Hl) _ _ Hin) as [[[=] _]|(j' & _ & p' & _ & _ & _ & -> & Hd)].
    by exists p'.
Qed.

Lemma malformed_not_request (msg : gmap string JSON.value) :
  malformed msg <-> subscribe_request msg = None.
Proof.
  unfold malformed, subscribe_request. split.
  - intros [H|H].
    + destruct (msg !! "action") as [[| | |a| |]|]; try done.
      destruct (String.eqb_spec a "subscribe") as [->|]; done.
    + destruct (msg !! "action") as [[| | |a| |]|]; try done.
      destruct (String.eqb a "subscribe"); [|done].
      destruct (msg !! "channel") as [[| | |ch| |]|]; try done.
      exfalso. apply H. by exists ch.
  - intros H.
    destruct (msg !! "action") as [v|] eqn:Ha; [|by left].
    destruct v as [| | |a| |]; try (by left).
    destruct (String.eqb_spec a "subscribe") as [->|Hne]; [|left; congruence].
    right. intros [ch Hch]. rewrite Hch in H. discriminate.
Qed.

Lemma wellformed_request (msg : gmap string JSON.value) channel :
  msg !! "action" = Some (JSON.Str "subscribe") ->
  msg !! "channel" = Some (JSON.Str channel) ->
  subscribe_request msg = Some channel.
Proof. intros Ha Hc. unfold subscribe_request. by rewrite Ha, Hc. Qed.

(** What the handler does with a well-formed subscribe request, up to the
    return of the confirmation's [WriteJSON]. *)
Lemma subscribe_then_ack (s : State) c conn msg channel :
  conns s !! c = Some conn ->
  c_pc conn = HReading ->
  c_open conn = true ->
  subscribe_request msg = Some channel ->
  run s [Read c (ReadMsg msg); AckDone c true] =
  Some {| conns := <[c := {| c_open := true; c_pc := HReading;
                             c_sent := c_sent conn ++ [(Handler c, ack channel)];
                             c_failed := c_failed conn |}]> (conns s);
          fwds := fwds s ++ [{| f_conn := c; f_channel := channel; f_pc := FStart;
                                f_queue := []; f_since := 0; f_recv := [] |}];
          published := published s; log := log s |}.
Proof.
  intros Hl Hpc Hopen Hreq.
  assert (c < length (conns s)) as Hlt by (by eapply lookup_lt_Some).
  simpl. rewrite Hl. simpl. rewrite Hpc, Hreq. simpl.
  rewrite list_lookup_insert_eq by exact Hlt. simpl.
  rewrite Hopen. unfold set_conn. simpl. by rewrite list_insert_insert_eq.
Qed.

(** C6.  A request whose action is not [subscribe], or whose channel is
    missing or not a string, leaves the state as it was: no confirmation, no
    forwarder, no subscription, the handler reading again.  A well-formed
    request that follows it on the same connection starts its forwarder and
    is confirmed. *)
Theorem C6_malformed_request_is_ignored
    (s : State) (c : nat) (conn : Conn) (msg msg' : gmap string JSON.value)
    (channel : string) :
  conns s !! c = Some conn ->
  c_pc conn = HReading ->
  c_open conn = true ->
  malformed msg ->
  msg' !! "action" = Some (JSON.Str "subscribe") ->
  msg' !! "channel" = Some (JSON.Str channel) ->
  step s (Read c (ReadMsg msg)) = Some s /\
  run s [Read c (ReadMsg msg); Read c (ReadMsg msg'); AckDone c true] =
  Some {| conns := <[c := {| c_open := true; c_pc := HReading;
                             c_sent := c_sent conn ++ [(Handler c, ack channel)];
                             c_failed := c_failed conn |}]> (conns s);
          fwds := fwds s ++ [{| f_conn := c; f_channel := channel; f_pc := FStart;
                                f_queue := []; f_since := 0; f_recv := [] |}];
          published := published s; log := log s |}.
Proof.
  intros Hl Hpc Hopen Hbad Ha Hch.
  apply malformed_not_request in Hbad.
  assert (Hstep : step s (Read c (ReadMsg msg)) = Some s).
  { simpl. rewrite Hl. simpl. by rewrite Hpc, Hbad. }
  split; [exact Hstep|].
  change (run s (Read c (ReadMsg msg) :: ?l)) with (step s (Read c (ReadMsg msg)) ≫= fun s1 => run s1 l).
  rewrite Hstep. simpl option_bind.
  apply subscribe_then_ack; try done. by apply wellformed_request.
Qed.

(** A payload that unmarshals is written to the forwarder's connection. *)
Lemma forwarder_writes_decodable (s : State) i fw conn p rest :
  fwds s !! i = Some fw ->
  conns s !! f_conn fw = Some conn ->
  f_pc fw = FWaiting ->
  f_queue fw = p :: rest ->
  c_open conn = true ->
  decodable p ->
  run s [Receive i; WriteDone i true] =
  Some {| conns := <[f_conn fw := {| c_open := true; c_pc := c_pc conn;
                                     c_sent := c_sent conn ++ [(Forwarder i, wrap p)];
                                     c_failed := c_failed conn |}]> (conns s);
          fwds := <[i := {| f_conn := f_conn fw; f_channel := f_channel fw;
                            f_pc := FWaiting; f_queue := rest;
                            f_since := f_since fw; f_recv := f_recv fw ++ [p] |}]> (fwds s);
          published := published s; log := log s |}.
Proof.
  intros Hi Hl Hpc Hq Hopen [m Hm].
  assert (i < length (fwds s)) as Hlt by (by eapply lookup_lt_Some).
  simpl. rewrite Hi. simpl. rewrite Hpc, Hq, Hm. simpl.
  rewrite list_lookup_insert_eq by exact Hlt. simpl.
  rewrite Hl. simpl. rewrite Hopen. unfold set_fwd, set_conn, fwd_at. simpl.
  by rewrite list_insert_insert_eq.
Qed.

(** A payload that does not unmarshal is received and nothing else. *)
Lemma forwarder_drops_undecodable (s : State) i fw p rest :
  fwds s !! i = Some fw ->
  f_pc fw = FWaiting ->
  f_queue fw = p :: rest ->
  ~ decodable p ->
  run s [Receive i] =
  Some {| conns := conns s;
          fwds := <[i := {| f_conn := f_conn fw; f_channel := f_channel fw;
                            f_pc := FWaiting; f_queue := rest;
                            f_since := f_since fw; f_recv := f_recv fw ++ [p] |}]> (fwds s);
          published := published s;
          log := log s ++ ["Failed to unmarshal log message"] |}.
Proof.
  intros Hi Hpc Hq Hno. simpl. rewrite Hi. simpl. rewrite Hpc, Hq.
  destruct (unmarshalLogMessage p) as [m|] eqn:Hm; [|reflexivity].
  exfalso. apply Hno. by exists m.
Qed.

(** The broker puts what is published on a matching channel at the end of
    the queue of an open subscription, in the order of the publishes. *)
Lemma publish_many channel : forall ps (s : State) i fw,
  fwds s !! i = Some fw ->
  subscribed fw = true ->
  matches (f_channel fw) channel = true ->
  exists s1,
    run s (Publish channel <$> ps) = Some s1 /\
    conns s1 = conns s /\
    fwds s1 !! i = Some {| f_conn := f_conn fw; f_channel := f_channel fw;
                           f_pc := f_pc fw; f_queue := f_queue fw ++ ps;
                           f_since := f_since fw; f_recv := f_recv fw |}.
Proof.
  induction ps as [|p ps IH]; intros s i fw Hi Hsub Hm.
  - exists s. split; [reflexivity|]. split; [reflexivity|].
    rewrite Hi, app_nil_r. by destruct fw.
  - set (fw0 := {| f_conn := f_conn fw; f_channel := f_channel fw; f_pc := f_pc fw;
                   f_queue := f_queue fw ++ [p]; f_since := f_since fw;
                   f_recv := f_recv fw |}).
    destruct (IH {| conns := conns s; fwds := deliver matches channel p <$> fwds s;
                    published := published s ++ [(channel, p)]; log := log s |}
                 i fw0) as (s1 & Hrun & Hc & Hf).
    + simpl. rewrite list_lookup_fmap, Hi. simpl. unfold deliver. by rewrite Hsub, Hm.
    + exact Hsub.
    + exact Hm.
    + exists s1. split; [exact Hrun|]. split; [exact Hc|].
      rewrite Hf. simpl. by rewrite <- app_assoc.
Qed.

(** A forwarder that waits takes what is in its queue from the front. *)
Lemma drain_all i : forall ps (s : State) fw conn,
  fwds s !! i = Some fw ->
  conns s !! f_conn fw = Some conn ->
  c_open conn = true ->
  f_pc fw = FWaiting ->
  f_queue fw = ps ->
  exists s' conn' fw',
    run s (concat (drain i <$> ps)) = Some s' /\
    conns s' !! f_conn fw = Some conn' /\
    fwds s' !! i = Some fw' /\
    c_sent conn' =
      c_sent conn ++ ((fun p => (Forwarder i, wrap p)) <$> filter decodable ps) /\
    c_open conn' = true /\ f_conn fw' = f_conn fw /\
    f_recv fw' = f_recv fw ++ ps /\ f_pc fw' = FWaiting /\ f_queue fw' = [].
Proof.
  induction ps as [|p ps IH]; intros s fw conn Hi Hc Hopen Hpc Hq.
  - exists s, conn, fw. simpl. rewrite !app_nil_r. done.
  - assert (Hlt : i < length (fwds s)) by (by eapply lookup_lt_Some).
    assert (Hltc : f_conn fw < length (conns s)) by (by eapply lookup_lt_Some).
    rewrite fmap_cons, concat_cons, run_app, filter_cons.
    destruct (decide (decodable p)) as [Hd|Hd].
    + assert (Hdr : drain i p = [Receive i; WriteDone i true])
        by (unfold drain; by rewrite decide_True).
      rewrite Hdr, (forwarder_writes_decodable s i fw conn p ps) by done.
      cbn [mbind option_bind].
      lazymatch goal with
      | |- exists _ _ _, Api.run _ ?s2 _ = _ /\ _ => set (s2' := s2)
      end.
      destruct (IH s2' {| f_conn := f_conn fw; f_channel := f_channel fw; f_pc := FWaiting;
                          f_queue := ps; f_since := f_since fw; f_recv := f_recv fw ++ [p] |}
                   {| c_open := true; c_pc := c_pc conn;
                      c_sent := c_sent conn ++ [(Forwarder i, wrap p)];
                      c_failed := c_failed conn |})
        as (s' & conn' & fw' & Hrun & Hc' & Hi' & Hsent & Hopen' & Hfc & Hrecv & Hpc' & Hq');
        [| | | | | exists s', conn', fw'; split; [exact Hrun|]].
      * simpl. by apply list_lookup_insert_eq.
      * simpl. by apply list_lookup_insert_eq.
      * reflexivity.
      * reflexivity.
      * reflexivity.
      * simpl in *. rewrite Hsent, Hrecv, <- !app_assoc. done.
    + assert (Hdr : drain i p = [Receive i])
        by (unfold drain; by rewrite decide_False).
      rewrite Hdr, (forwarder_drops_undecodable s i fw p ps) by done.
      cbn [mbind option_bind].
      lazymatch goal with
      | |- exists _ _ _, Api.run _ ?s2 _ = _ /\ _ => set (s2' := s2)
      end.
      destruct (IH s2' {| f_conn := f_conn fw; f_channel := f_channel fw; f_pc := FWaiting;
                          f_queue := ps; f_since := f_since fw; f_recv := f_recv fw ++ [p] |}
                   conn)
        as (s' & conn' & fw' & Hrun & Hc' & Hi' & Hsent & Hopen' & Hfc & Hrecv & Hpc' & Hq');
        [| | | | | exists s', conn', fw'; split; [exact Hrun|]].
      * simpl. by apply list_lookup_insert_eq.
      * exact Hc.
      * exact Hopen.
      * reflexivity.
      * reflexivity.
      * simpl in *. rewrite Hsent, Hrecv, <- !app_assoc. done.
Qed.

Lemma frames_of_own i (ps : list string) :
  frames_of i ((fun p => (Forwarder i, wrap p)) <$> ps) = wrap <$> ps.
Proof.
  unfold frames_of. induction ps as [|p ps IH]; [reflexivity|].
  rewrite fmap_cons, filter_cons. rewrite decide_True by done.
  rewrite fmap_cons. simpl. f_equal. exact IH.
Qed.

(** C7.  What a forwarder has written to its connection is, in every
    reachable state, a subsequence in publish order of the payloads published
    on a matching channel since it subscribed, and the whole sequence when all
    of them unmarshal and it has emptied its queue.  And the payloads do get
    through in that order: whatever is published on a matching channel while
    the forwarder waits on an open connection, it can take all of it, and the
    viewer is then sent, after what it had been sent before, the payloads
    that unmarshal, one frame each, in the order of the publishes. *)
Theorem C7_forwarder_keeps_publish_order
    (s : State) (i : nat) (fw : Fwd) (conn : Conn) (channel : string) (ps : list string) :
  fwds s !! i = Some fw ->
  conns s !! f_conn fw = Some conn ->
  (forall ls, run init ls = Some s ->
     forwarded conn i `sublist_of` (wrap <$> matching s fw) /\
     (f_pc fw = FWaiting -> f_queue fw = [] -> Forall decodable (matching s fw) ->
      forwarded conn i = wrap <$> matching s fw)) /\
  (c_open conn = true -> f_pc fw = FWaiting -> f_queue fw = [] ->
   matches (f_channel fw) channel = true ->
   exists s' conn' fw',
     run s ((Publish channel <$> ps) ++ concat (drain i <$> ps)) = Some s' /\
     conns s' !! f_conn fw = Some conn' /\
     fwds s' !! i = Some fw' /\
     c_sent conn' =
       c_sent conn ++ ((fun p => (Forwarder i, wrap p)) <$> filter decodable ps) /\
     forwarded conn' i = forwarded conn i ++ (wrap <$> filter decodable ps) /\
     f_recv fw' = f_recv fw ++ ps /\ f_pc fw' = FWaiting /\ f_queue fw' = []).
Proof.
  intros Hi Hl. split.
  - intros ls Hrun.
    destruct (reachable_inv ls s Hrun) as [Hf _]. specialize (Hf _ _ Hi).
    pose proof (received_prefix _ _ _ Hf) as Hpre.
    destruct Hf as [_ H2 H3 _ _ H6]. specialize (H2 conn Hl). split.
    + trans (wrap <$> filter decodable (f_recv fw)).
      * rewrite H2. by apply sublist_inserts_r.
      * apply fmap_sublist. trans (f_recv fw); [apply sublist_filter|].
        by apply prefix_sublist.
    + intros Hpc Hq Hall. rewrite Hpc, Hq, app_nil_r in H6.
      rewrite H6, (filter_all _ _ Hall) in H2.
      rewrite (H3 conn Hl) in H2 by (by rewrite Hpc).
      unfold inflight in H2. rewrite Hpc in H2. simpl in H2.
      by rewrite app_nil_r in H2.
  - intros Hopen Hpc Hq Hm.
    destruct (publish_many channel ps s i fw Hi) as (s1 & Hrun1 & Hc1 & Hi1);
      [unfold subscribed; by rewrite Hpc | exact Hm |].
    rewrite Hq in Hi1. simpl in Hi1.
    destruct (drain_all i ps s1 _ conn Hi1)
      as (s' & conn' & fw' & Hrun & Hc' & Hi' & Hsent & _ & _ & Hrecv & Hpc' & Hq');
      [simpl; by rewrite Hc1 | exact Hopen | exact Hpc | reflexivity |].
    exists s', conn', fw'. rewrite run_app, Hrun1. simpl in *.
    split; [exact Hrun|]. split; [exact Hc'|]. split; [exact Hi'|].
    split; [exact Hsent|]. split; [|done].
    unfold forwarded. change (snd <$> filter (fun x => fst x = Forwarder i) ?l)
      with (frames_of i l).
    rewrite Hsent. unfold frames_of. rewrite filter_app, fmap_app.
    f_equal. apply frames_of_own.
Qed.

Lemma subscriptions_snoc (s : State) c (l : list Fwd) fw :
  length (filter (fun fw => subscribed fw = true /\ f_conn fw = c) (l ++ [fw])) =
  length (filter (fun fw => subscribed fw = true /\ f_conn fw = c) l) +
  (if decide (subscribed fw = true /\ f_conn fw = c) then 1 else 0).
Proof.
  rewrite filter_app, length_app, filter_cons. by case_decide.
Qed.

(** C5, amended.  A well-formed subscribe request on an open connection
    starts exactly one forwarder for that connection and pattern, and the
    confirmation [Joined <pattern>] is written to the viewer; the forwarder
    opens exactly one pattern subscription; and every payload it receives
    that unmarshals is written, wrapped, to that connection. *)
Theorem C5_subscribe_starts_one_forwarder
    (s : State) (c : nat) (conn : Conn) (msg : gmap string JSON.value) (channel : string) :
  conns s !! c = Some conn ->
  c_pc conn = HReading ->
  c_open conn = true ->
  msg !! "action" = Some (JSON.Str "subscribe") ->
  msg !! "channel" = Some (JSON.Str channel) ->
  let i := length (fwds s) in
  let started := {| f_conn := c; f_channel := channel; f_pc := FStart;
                    f_queue := []; f_since := 0; f_recv := [] |} in
  let waiting := {| f_conn := c; f_channel := channel; f_pc := FWaiting;
                    f_queue := []; f_since := length (published s); f_recv := [] |} in
  let confirmed := <[c := {| c_open := true; c_pc := HReading;
                             c_sent := c_sent conn ++ [(Handler c, ack channel)];
                             c_failed := c_failed conn |}]> (conns s) in
  run s [Read c (ReadMsg msg); AckDone c true] =
    Some {| conns := confirmed; fwds := fwds s ++ [started];
            published := published s; log := log s |} /\
  run s [Read c (ReadMsg msg); AckDone c true; Subscribe i] =
    Some {| conns := confirmed; fwds := fwds s ++ [waiting];
            published := published s; log := log s |} /\
  subscriptions {| conns := confirmed; fwds := fwds s ++ [started];
                   published := published s; log := log s |} c = subscriptions s c /\
  subscriptions {| conns := confirmed; fwds := fwds s ++ [waiting];
                   published := published s; log := log s |} c = S (subscriptions s c) /\
  (forall s1 fw conn1 p rest,
     fwds s1 !! i = Some fw -> conns s1 !! f_conn fw = Some conn1 ->
     f_pc fw = FWaiting -> f_queue fw = p :: rest -> c_open conn1 = true ->
     decodable p ->
     exists s2 conn2,
       run s1 [Receive i; WriteDone i true] = Some s2 /\
       conns s2 !! f_conn fw = Some conn2 /\
       c_sent conn2 = c_sent conn1 ++ [(Forwarder i, wrap p)]).
Proof.
  intros Hl Hpc Hopen Ha Hch i started waiting confirmed.
  pose proof (wellformed_request msg channel Ha Hch) as Hreq.
  pose proof (subscribe_then_ack s c conn msg channel Hl Hpc Hopen Hreq) as Hrun.
  split; [exact Hrun|]. split; [|split; [|split]].
  - change [Read c (ReadMsg msg); AckDone c true; Subscribe i]
      with ([Read c (ReadMsg msg); AckDone c true] ++ [Subscribe i]).
    rewrite run_app, Hrun. simpl.
    rewrite lookup_app_r by done. unfold i. rewrite Nat.sub_diag. simpl.
    unfold set_fwd. simpl. f_equal. f_equal.
    rewrite insert_app_r_alt by done. by rewrite Nat.sub_diag.
  - unfold subscriptions. simpl. rewrite (subscriptions_snoc s). simpl. lia.
  - unfold subscriptions. simpl. rewrite (subscriptions_snoc s). simpl.
    case_decide as Hd; [lia | by destruct Hd].
  - intros s1 fw conn1 p rest Hi Hl1 Hpc1 Hq Hopen1 Hd.
    eexists _, _. split; [by eapply forwarder_writes_decodable|]. simpl.
    split; [apply list_lookup_insert_eq; by eapply lookup_lt_Some | done].
Qed.

(** Nothing is delivered on a connection once it is closed, and it stays closed. *)
Lemma closed_conn_step (s s' : State) (l : Label) c conn :
  conns s !! c = Some conn ->
  c_open conn = false -> c_pc conn = HReturned ->
  step s l = Some s' ->
  exists conn', conns s' !! c = Some conn' /\ c_open conn' = false /\
                c_pc conn' = HReturned /\ c_sent conn' = c_sent conn.
Proof.
  intros Hl Hopen Hpc Hstep.
  assert (c < length (conns s)) as Hlt by (by eapply lookup_lt_Some).
  destruct l as [ok|c0 r|c0 ok|i|channel payload|i|i ok|i]; simpl in Hstep.
  - destruct ok; injection Hstep as <-; exists conn; simpl; [|done].
    by rewrite lookup_app_l.
  - destruct (conns s !! c0) as [conn0|] eqn:Hl0; [|done]. simpl in Hstep.
    destruct (decide (c0 = c)) as [->|Hne].
    { rewrite Hl in Hl0. injection Hl0 as <-. by rewrite Hpc in Hstep. }
    destruct (c_pc conn0); try done.
    destruct r as [e|msg]; [|destruct (subscribe_request msg)];
      injection Hstep as <-; exists conn; simpl;
      rewrite ?list_lookup_insert_ne by done; done.
  - destruct (conns s !! c0) as [conn0|] eqn:Hl0; [|done]. simpl in Hstep.
    destruct (decide (c0 = c)) as [->|Hne].
    { rewrite Hl in Hl0. injection Hl0 as <-. by rewrite Hpc in Hstep. }
    destruct (c_pc conn0); try done. injection Hstep as <-. exists conn. simpl.
    by rewrite list_lookup_insert_ne.
  - destruct (fwds s !! i) as [fw|]; [|done]. simpl in Hstep.
    destruct (f_pc fw); try done. injection Hstep as <-. by exists conn.
  - injection Hstep as <-. by exists conn.
  - destruct (fwds s !! i) as [fw|]; [|done]. simpl in Hstep.
    destruct (f_pc fw); try done. destruct (f_queue fw); try done.
    destruct (unmarshalLogMessage _); injection Hstep as <-; by exists conn.
  - destruct (fwds s !! i) as [fw|]; [|done]. simpl in Hstep.
    destruct (f_pc fw); try done.
    destruct (conns s !! f_conn fw) as [conn0|] eqn:Hl0; [|done]. simpl in Hstep.
    destruct (decide (f_conn fw = c)) as [Heq|Hne].
    + rewrite Heq in *. rewrite Hl in Hl0. injection Hl0 as <-.
      rewrite Hopen, andb_false_r in Hstep. injection Hstep as <-.
      eexists. simpl. rewrite list_lookup_insert_eq by exact Hlt. done.
    + destruct (ok && c_open conn0); injection Hstep as <-; exists conn; simpl;
        by rewrite list_lookup_insert_ne.
  - destruct (fwds s !! i) as [fw|]; [|done]. simpl in Hstep.
    destruct (f_pc fw); try done. injection Hstep as <-. by exists conn.
Qed.

Lemma closed_conn_run (ls : list Label) : forall (s s' : State) c conn,
  conns s !! c = Some conn ->
  c_open conn = false -> c_pc conn = HReturned ->
  run s ls = Some s' ->
  exists conn', conns s' !! c = Some conn' /\ c_open conn' = false /\
                c_pc conn' = HReturned /\ c_sent conn' = c_sent conn.
Proof.
  induction ls as [|l ls IH]; intros s s' c conn Hl Hopen Hpc Hrun; simpl in Hrun.
  - injection Hrun as <-. by exists conn.
  - destruct (step s l) as [s1|] eqn:Hstep; [|done]. simpl in Hrun.
    destruct (closed_conn_step s s1 l c conn Hl Hopen Hpc Hstep)
      as (conn1 & Hl1 & Hopen1 & Hpc1 & Hsent1).
    destruct (IH s1 s' c conn1 Hl1 Hopen1 Hpc1 Hrun) as (conn' & ? & ? & ? & Hsent').
    exists conn'. repeat split; try done. congruence.
Qed.

(** An open subscription is released only by the forwarder's own failed
    write, or when the broker ends it. *)
Lemma subscription_kept (s s' : State) (l : Label) i fw :
  fwds s !! i = Some fw ->
  subscribed fw = true ->
  step s l = Some s' ->
  exists fw', fwds s' !! i = Some fw' /\
    (subscribed fw' = true \/ (exists ok, l = WriteDone i ok) \/ l = SubscriptionEnded i).
Proof.
  intros Hi Hsub Hstep.
  assert (i < length (fwds s)) as Hlt by (by eapply lookup_lt_Some).
  destruct l as [ok|c r|c ok|j|channel payload|j|j ok|j]; simpl in Hstep.
  - destruct ok; injection Hstep as <-; exists fw; auto.
  - destruct (conns s !! c) as [conn|]; [|done]. simpl in Hstep.
    destruct (c_pc conn); try done.
    destruct r as [e|msg]; [|destruct (subscribe_request msg)];
      injection Hstep as <-; exists fw; simpl; split; auto.
    by apply lookup_app_l_Some.
  - destruct (conns s !! c) as [conn|]; [|done]. simpl in Hstep.
    destruct (c_pc conn); try done. injection Hstep as <-. exists fw. auto.
  - destruct (fwds s !! j) as [fwj|] eqn:Hj; [|done]. simpl in Hstep.
    destruct (f_pc fwj) eqn:Hpc; try done. injection Hstep as <-.
    destruct (decide (j = i)) as [->|Hne].
    + rewrite Hi in Hj. injection Hj as <-. unfold subscribed in Hsub.
      by rewrite Hpc in Hsub.
    + exists fw. simpl. rewrite list_lookup_insert_ne by done. auto.
  - injection Hstep as <-. exists (deliver matches channel payload fw). simpl.
    rewrite list_lookup_fmap, Hi. split; [done|]. left.
    unfold deliver. by destruct (_ && _).
  - destruct (fwds s !! j) as [fwj|] eqn:Hj; [|done]. simpl in Hstep.
    destruct (f_pc fwj) eqn:Hpc; try done.
    destruct (f_queue fwj) as [|p rest]; try done.
    destruct (decide (j = i)) as [->|Hne].
    + destruct (unmarshalLogMessage p); injection Hstep as <-;
        eexists; simpl; rewrite list_lookup_insert_eq by done; auto.
    + destruct (unmarshalLogMessage p); injection Hstep as <-;
        exists fw; simpl; rewrite list_lookup_insert_ne by done; auto.
  - destruct (fwds s !! j) as [fwj|] eqn:Hj; [|done]. simpl in Hstep.
    destruct (f_pc fwj) eqn:Hpc; try done.
    destruct (conns s !! f_conn fwj) as [conn|]; [|done]. simpl in Hstep.
    destruct (decide (j = i)) as [->|Hne].
    + destruct (ok && c_open conn); injection Hstep as <-;
        eexists; simpl; rewrite list_lookup_insert_eq by done; eauto.
    + destruct (ok && c_open conn); injection Hstep as <-;
        exists fw; simpl; rewrite list_lookup_insert_ne by done; auto.
  - destruct (fwds s !! j) as [fwj|] eqn:Hj; [|done]. simpl in Hstep.
    destruct (f_pc fwj) eqn:Hpc; try done. injection Hstep as <-.
    destruct (decide (j = i)) as [->|Hne].
    + eexists. simpl. rewrite list_lookup_insert_eq by done. auto.
    + exists fw. simpl. rewrite list_lookup_insert_ne by done. auto.
Qed.

(** C8, amended.  When [ReadJSON] fails the handler logs, closes the socket
    and returns: it takes no further request, and no other connection and no
    forwarder is changed by that.  From then on the connection stays closed
    and no frame is delivered on it.  Its forwarders are not told: a
    subscription stays open through every step except the return of its
    forwarder's own write (or the broker ending it), and a forwarder that is
    inside [WriteJSON] on the closed connection gets an error, leaves its loop
    and releases its subscription. *)
Theorem C8_close_is_noticed_on_next_write
    (s : State) (c : nat) (conn : Conn) (e : string) :
  conns s !! c = Some conn ->
  c_pc conn = HReading ->
  let closed := {| c_open := false; c_pc := HReturned;
                   c_sent := c_sent conn; c_failed := c_failed conn |} in
  let s1 := {| conns := <[c := closed]> (conns s); fwds := fwds s;
               published := published s;
               log := log s ++ ["WebSocket read error: " +:+ e] |} in
  step s (Read c (ReadErr e)) = Some s1 /\
  (forall r, step s1 (Read c r) = None) /\
  (forall ok, step s1 (AckDone c ok) = None) /\
  (forall ls s2, run s1 ls = Some s2 ->
     (exists conn2, conns s2 !! c = Some conn2 /\ c_open conn2 = false /\
                    c_pc conn2 = HReturned /\ c_sent conn2 = c_sent conn) /\
     (forall i fw l s3,
        fwds s2 !! i = Some fw -> subscribed fw = true -> step s2 l = Some s3 ->
        exists fw', fwds s3 !! i = Some fw' /\
          (subscribed fw' = true \/ (exists ok, l = WriteDone i ok) \/
           l = SubscriptionEnded i)) /\
     (forall i fw p ok,
        fwds s2 !! i = Some fw -> f_conn fw = c -> f_pc fw = FWriting p ->
        exists s3 fw' conn3,
          step s2 (WriteDone i ok) = Some s3 /\
          fwds s3 !! i = Some fw' /\ f_pc fw' = FReturned /\
          subscribed fw' = false /\ f_queue fw' = [] /\
          conns s3 !! c = Some conn3 /\ c_sent conn3 = c_sent conn)).
Proof.
  intros Hl Hpc closed s1.
  assert (c < length (conns s)) as Hlt by (by eapply lookup_lt_Some).
  assert (Hl1 : conns s1 !! c = Some closed)
    by (simpl; by rewrite list_lookup_insert_eq).
  split; [|split; [|split]].
  - simpl. rewrite Hl. simpl. by rewrite Hpc.
  - intros r. simpl step. rewrite list_lookup_insert_eq by exact Hlt. reflexivity.
  - intros ok. simpl step. rewrite list_lookup_insert_eq by exact Hlt. reflexivity.
  - intros ls s2 Hrun.
    destruct (closed_conn_run ls s1 s2 c closed Hl1 eq_refl eq_refl Hrun)
      as (conn2 & Hl2 & Hopen2 & Hpc2 & Hsent2).
    split; [by exists conn2|].
    split; [intros i fw l s3 Hi Hsub Hstep; by eapply subscription_kept|].
    intros i fw p ok Hi Hfc Hfpc.
    assert (i < length (fwds s2)) as Hilt by (by eapply lookup_lt_Some).
    assert (c < length (conns s2)) as Hclt by (by eapply lookup_lt_Some).
    eexists _, _, _. simpl. rewrite Hi. simpl. rewrite Hfpc, Hfc, Hl2. simpl.
    rewrite Hopen2, andb_false_r. split; [reflexivity|]. simpl.
    rewrite !list_lookup_insert_eq by done. done.
Qed.

Lemma serve_does : forall (ls : list Label) (s : State) (es : list Event),
  serve matches s ((Does <$> ls) ++ es) = run s ls ≫= fun s' => serve matches s' es.
Proof.
  induction ls as [|l ls IH]; intros s es; [reflexivity|].
  simpl. destruct (Api.step matches s l) as [s1|]; simpl; [apply IH | reflexivity].
Qed.

Lemma filter_has {A} (P : A -> Prop) `{!forall x, Decision (P x)} (l : list A) i x :
  l !! i = Some x -> P x -> 1 <= length (filter P l).
Proof.
  intros Hi Hx.
  assert (Hin : x ∈ filter P l).
  { apply list_elem_of_filter. split; [exact Hx|]. by eapply list_elem_of_lookup_2. }
  destruct (filter P l); [inversion Hin | simpl; lia].
Qed.

Lemma filter_has_two {A} (P : A -> Prop) `{!forall x, Decision (P x)} (l : list A) i j x y :
  i < j -> l !! i = Some x -> l !! j = Some y -> P x -> P y ->
  2 <= length (filter P l).
Proof.
  intros Hij Hi Hj Hx Hy.
  rewrite <- (take_drop_middle l i x Hi), filter_app, filter_cons, decide_True by done.
  rewrite length_app. simpl.
  assert (1 <= length (filter P (drop (S i) l))); [|lia].
  apply (filter_has P _ (j - S i) y); [|exact Hy].
  rewrite lookup_drop. replace (S i + (j - S i)) with j by lia. exact Hj.
Qed.

Lemma writers_handler_and_forwarder (s : State) c i fw :
  handler_writing s c = 1 -> fwds s !! i = Some fw -> forwarder_writing c fw = true ->
  2 <= writers s c.
Proof.
  intros Hh Hi Hw. unfold writers. rewrite Hh.
  pose proof (filter_has (fun fw => forwarder_writing c fw = true) (fwds s) i fw Hi Hw).
  lia.
Qed.

Lemma writers_two_forwarders (s : State) c i j fwi fwj :
  i <> j -> fwds s !! i = Some fwi -> fwds s !! j = Some fwj ->
  forwarder_writing c fwi = true -> forwarder_writing c fwj = true ->
  2 <= writers s c.
Proof.
  intros Hne Hi Hj Hwi Hwj. unfold writers.
  assert (2 <= length (filter (fun fw => forwarder_writing c fw = true) (fwds s))); [|lia].
  destruct (decide (i < j)).
  - by apply (filter_has_two _ _ i j fwi fwj).
  - apply (filter_has_two _ _ j i fwj fwi); [lia | done ..].
Qed.

Lemma subscribe_msg_request channel : subscribe_request (subscribe_msg channel) = Some channel.
Proof.
  apply wellformed_request; unfold subscribe_msg.
  - by rewrite lookup_insert_eq.
  - rewrite lookup_insert_ne by done. by rewrite lookup_singleton_eq.
Qed.

(** C10, at the failing input.  One viewer, one subscribe request, one
    message.  The handler starts the forwarder and goes into the [WriteJSON]
    of the confirmation; the forwarder subscribes, a payload is published on
    its channel, it receives it and goes into its own [WriteJSON] on the same
    connection.  Nothing orders the two calls: both tasks are inside
    [WriteJSON] on the connection at once, and the write that finds the other
    one under way panics, which ends the server. *)
Theorem C10_concurrent_writes_end_the_server
    (s : State) (c : nat) (conn : Conn) (channel payload : string) :
  conns s !! c = Some conn ->
  c_pc conn = HReading ->
  matches channel channel = true ->
  decodable payload ->
  let i := length (fwds s) in
  let ls := [Read c (ReadMsg (subscribe_msg channel)); Subscribe i;
             Publish channel payload; Receive i] in
  exists s' fw,
    run s ls = Some s' /\
    handler_writing s' c = 1 /\
    fwds s' !! i = Some fw /\ f_conn fw = c /\ f_pc fw = FWriting payload /\
    2 <= writers s' c /\
    serve matches s ((Does <$> ls) ++ [FindsWriter c]) = Some (Panicked c).
Proof.
  intros Hc Hpc Hm [m Hdec] i ls.
  assert (Hlt : c < length (conns s)) by (by eapply lookup_lt_Some).
  set (fw := {| f_conn := c; f_channel := channel; f_pc := FWriting payload;
                f_queue := []; f_since := length (published s); f_recv := [payload] |}).
  set (s' := {| conns := <[c := {| c_open := c_open conn; c_pc := HAcking channel;
                                   c_sent := c_sent conn; c_failed := c_failed conn |}]>
                           (conns s);
                fwds := (deliver matches channel payload <$> fwds s) ++ [fw];
                published := published s ++ [(channel, payload)]; log := log s |}).
  set (fw0 := {| f_conn := c; f_channel := channel; f_pc := FStart; f_queue := [];
                 f_since := 0; f_recv := [] |}).
  set (fw1 := {| f_conn := c; f_channel := channel; f_pc := FWaiting; f_queue := [];
                 f_since := length (published s); f_recv := [] |}).
  set (fw2 := {| f_conn := c; f_channel := channel; f_pc := FWaiting;
                 f_queue := [payload]; f_since := length (published s); f_recv := [] |}).
  set (acking := <[c := {| c_open := c_open conn; c_pc := HAcking channel;
                           c_sent := c_sent conn; c_failed := c_failed conn |}]> (conns s)).
  set (s1 := {| conns := acking; fwds := fwds s ++ [fw0];
                published := published s; log := log s |}).
  set (s2 := {| conns := acking; fwds := fwds s ++ [fw1];
                published := published s; log := log s |}).
  set (s3 := {| conns := acking;
                fwds := (deliver matches channel payload <$> fwds s) ++ [fw2];
                published := published s ++ [(channel, payload)]; log := log s |}).
  assert (H1 : step s (Read c (ReadMsg (subscribe_msg channel))) = Some s1).
  { simpl. rewrite Hc. simpl. by rewrite Hpc, subscribe_msg_request. }
  assert (H2 : step s1 (Subscribe i) = Some s2).
  { unfold i. simpl. rewrite lookup_app_r by lia. rewrite Nat.sub_diag. simpl.
    unfold set_fwd, s2. simpl. rewrite insert_app_r_alt by lia.
    by rewrite Nat.sub_diag. }
  assert (H3 : step s2 (Publish channel payload) = Some s3).
  { simpl. unfold s3. rewrite fmap_app. simpl. do 3 f_equal.
    unfold deliver. simpl. by rewrite Hm. }
  assert (H4 : step s3 (Receive i) = Some s').
  { unfold i. simpl. rewrite lookup_app_r by (rewrite length_fmap; lia).
    rewrite length_fmap, Nat.sub_diag. simpl. rewrite Hdec.
    unfold set_fwd, s'. simpl. rewrite insert_app_r_alt by (rewrite length_fmap; lia).
    by rewrite length_fmap, Nat.sub_diag. }
  assert (Hrun : run s ls = Some s').
  { unfold ls. cbn [Api.run]. rewrite H1. cbn [mbind option_bind].
    rewrite H2. cbn [mbind option_bind]. rewrite H3. cbn [mbind option_bind].
    rewrite H4. reflexivity. }
  assert (Hi : fwds s' !! i = Some fw).
  { unfold s', i. simpl. rewrite lookup_app_r by (rewrite length_fmap; lia).
    by rewrite length_fmap, Nat.sub_diag. }
  assert (Hh : handler_writing s' c = 1).
  { unfold handler_writing, s'. simpl. by rewrite list_lookup_insert_eq. }
  assert (Hw : 2 <= writers s' c).
  { apply (writers_handler_and_forwarder s' c i fw Hh Hi).
    unfold forwarder_writing. simpl. by rewrite bool_decide_eq_true. }
  exists s', fw. split; [exact Hrun|]. split; [exact Hh|]. split; [exact Hi|].
  split; [reflexivity|]. split; [reflexivity|]. split; [exact Hw|].
  rewrite serve_does, Hrun. cbn [mbind option_bind serve].
  by rewrite (proj2 (Nat.leb_le 2 (writers s' c)) Hw).
Qed.

End ApiFacts.

(** * The claims at concrete runs *)

Section Runs.

Import Api.

(** The frame [{"action":"ping"}] is read as the map [ping_msg]. *)
Example readFrame_ping : readFrame ping_text = ReadMsg ping_msg.
Proof. vm_compute. reflexivity. Qed.

(** An object without a [log] member, and [null], unmarshal into a
    [LogMessage] without error (the field keeps its zero value), so the
    forwarder passes them on; an array or a [log] member that is not a
    string is an error. *)
Example unmarshal_without_log_field :
  unmarshalLogMessage "{}" = Some {| Log := "" |} /\
  unmarshalLogMessage "null" = Some {| Log := "" |} /\
  unmarshalLogMessage "[]" = None /\
  unmarshalLogMessage ("{" +:+ q +:+ "log" +:+ q +:+ ":1}") = None /\
  unmarshalLogMessage "not json" = None.
Proof. vm_compute. repeat split; reflexivity. Qed.

(** The chunk of C2 on its way to a viewer: the build server publishes it,
    the forwarder receives it, rejects it and writes nothing. *)
Example newline_chunk_never_reaches_viewer :
  let payload := Build.logMessage ("Installing..." +:+ nl) in
  let s := after (joined ++ [Publish "logs:A" payload; Receive 0]) in
  (f_recv <$> fwds s !! 0) = Some [payload] /\
  (f_pc <$> fwds s !! 0) = Some FWaiting /\
  (c_sent <$> conns s !! 0) = Some [(Handler 0, ack "logs:A")] /\
  log s = ["Failed to unmarshal log message"].
Proof. vm_compute. repeat split; reflexivity. Qed.

Example ping_is_malformed : malformed ping_msg.
Proof. left. vm_compute. discriminate. Defined.

Lemma C3_undecodable_payload_is_dropped_witness :
  exists s', Api.step glob_match (after two_published) (Receive 0) = Some s' /\
             conns s' = conns (after two_published) /\
             (f_queue <$> fwds s' !! 0) = Some [Build.logMessage "hi"].
Proof.
  destruct (C3_undecodable_payload_is_dropped glob_match two_published
              (after two_published) 0
              {| f_conn := 0; f_channel := "logs:A"; f_pc := FWaiting;
                 f_queue := ["not json"; Build.logMessage "hi"];
                 f_since := 0; f_recv := [] |}
              "not json" [Build.logMessage "hi"])
    as [(s' & fw' & Hstep & Hconns & _ & Hfwds & _ & _ & Hq & _) _];
    [vm_compute; reflexivity .. |].
  exists s'. split; [exact Hstep|]. split; [exact Hconns|].
  rewrite Hfwds, list_lookup_insert_eq by (vm_compute; lia).
  simpl. rewrite Hq. reflexivity.
Defined.

(** C5, counterexample.  The forwarder of [one_received] has received the
    text [not json] and is back at [range ch]; nothing was written for it. *)
Lemma C5_counterexample : ~ forwarder_writes_every_payload glob_match.
Proof.
  intros H.
  specialize (H one_received (after one_received) 0
                {| f_conn := 0; f_channel := "logs:A"; f_pc := FWaiting;
                   f_queue := [Build.logMessage "hi"];
                   f_since := 0; f_recv := ["not json"] |}
                {| c_open := true; c_pc := HReading;
                   c_sent := [(Handler 0, ack "logs:A")]; c_failed := [] |}
                "not json").
  assert (Hin : wrap "not json" ∈ @nil (gmap string string)).
  { apply H; try (vm_compute; reflexivity). simpl. apply list_elem_of_here. }
  by apply not_elem_of_nil in Hin.
Qed.

Lemma C5_subscribe_starts_one_forwarder_witness :
  Api.run glob_match (after [Upgrade true])
    [Read 0 (ReadMsg (subscribe_msg "logs:A")); AckDone 0 true; Subscribe 0]
  = Some (after joined).
Proof.
  destruct (C5_subscribe_starts_one_forwarder glob_match (after [Upgrade true]) 0
              {| c_open := true; c_pc := HReading; c_sent := []; c_failed := [] |}
              (subscribe_msg "logs:A") "logs:A") as (_ & Hrun & _);
    [vm_compute; reflexivity .. |].
  etrans; [exact Hrun | vm_compute; reflexivity].
Defined.

Lemma C6_malformed_request_is_ignored_witness :
  Api.step glob_match (after [Upgrade true]) (Read 0 (readFrame ping_text))
    = Some (after [Upgrade true]) /\
  is_Some (Api.run glob_match (after [Upgrade true])
             [Read 0 (ReadMsg ping_msg);
              Read 0 (ReadMsg (subscribe_msg "logs:A")); AckDone 0 true]).
Proof.
  destruct (C6_malformed_request_is_ignored glob_match (after [Upgrade true]) 0
              {| c_open := true; c_pc := HReading; c_sent := []; c_failed := [] |}
              ping_msg (subscribe_msg "logs:A") "logs:A") as [Hstep Hrun];
    [first [exact ping_is_malformed | vm_compute; reflexivity] .. |].
  split; [|rewrite Hrun; by eexists].
  rewrite <- Hstep. vm_compute. reflexivity.
Defined.

Lemma C7_forwarder_keeps_publish_order_witness :
  (exists s' conn',
     Api.run glob_match (after joined)
       ((Publish "logs:A" <$> three_messages) ++ concat (drain 0 <$> three_messages))
       = Some s' /\
     conns s' !! 0 = Some conn' /\
     c_sent conn' = [(Handler 0, ack "logs:A")] ++
                    [(Forwarder 0, wrap (Build.logMessage "one"));
                     (Forwarder 0, wrap (Build.logMessage "two"))]) /\
  [wrap (Build.logMessage "one"); wrap (Build.logMessage "two")]
    = wrap <$> Api.matching glob_match (after two_delivered)
                 {| f_conn := 0; f_channel := "logs:A"; f_pc := FWaiting;
                    f_queue := []; f_since := 0; f_recv := two_messages |}.
Proof.
  split.
  - destruct (C7_forwarder_keeps_publish_order glob_match (after joined) 0
                {| f_conn := 0; f_channel := "logs:A"; f_pc := FWaiting;
                   f_queue := []; f_since := 0; f_recv := [] |}
                {| c_open := true; c_pc := HReading;
                   c_sent := [(Handler 0, ack "logs:A")]; c_failed := [] |}
                "logs:A" three_messages) as [_ Hdeliver];
      [vm_compute; reflexivity .. |].
    destruct Hdeliver as (s' & conn' & fw' & Hrun & Hc & _ & Hsent & _);
      [vm_compute; reflexivity .. |].
    exists s', conn'. split; [exact Hrun|]. split; [exact Hc|].
    rewrite Hsent. vm_compute. reflexivity.
  - destruct (C7_forwarder_keeps_publish_order glob_match (after two_delivered) 0
                {| f_conn := 0; f_channel := "logs:A"; f_pc := FWaiting;
                   f_queue := []; f_since := 0; f_recv := two_messages |}
                {| c_open := true; c_pc := HReading;
                   c_sent := [(Handler 0, ack "logs:A");
                              (Forwarder 0, wrap (Build.logMessage "one"));
                              (Forwarder 0, wrap (Build.logMessage "two"))];
                   c_failed := [] |}
                "logs:A" []) as [Hsafe _];
      [vm_compute; reflexivity .. |].
    destruct (Hsafe two_delivered) as [_ Hall]; [vm_compute; reflexivity|].
    rewrite <- Hall; [reflexivity | reflexivity | reflexivity |].
    repeat constructor; eexists; vm_compute; reflexivity.
Defined.

(** C8, counterexample.  In [closed_while_waiting] the viewer is gone and
    its forwarder waits in [range ch] with an empty queue: no step the server
    can take by itself is enabled, and the subscription stays open. *)
Lemma C8_counterexample : ~ close_releases_everything glob_match.
Proof.
  intros H.
  destruct (H closed_while_waiting (after closed_while_waiting) 0
              {| c_open := false; c_pc := HReturned;
                 c_sent := [(Handler 0, ack "logs:A")]; c_failed := [] |})
    as [(ls' & s' & Hint & Hrun & Hsub) _]; [vm_compute; reflexivity .. |].
  destruct ls' as [|l ls'].
  - injection Hrun as <-. vm_compute in Hsub. discriminate.
  - simpl in Hint. apply andb_prop in Hint as [Hl _].
    destruct l as [ok|c r|c ok|i|channel payload|i|i ok|i]; try discriminate.
    + destruct c as [|c]; vm_compute in Hrun; discriminate.
    + destruct i as [|i]; vm_compute in Hrun; discriminate.
    + destruct i as [|i]; vm_compute in Hrun; discriminate.
    + destruct i as [|i]; vm_compute in Hrun; discriminate.
Qed.

(** When a payload arrives after the close, the forwarder starts a write on
    the closed connection; the write fails, and only then is the subscription
    released. *)
Example write_started_on_closed_connection :
  (c_open <$> conns (after write_after_close) !! 0) = Some false /\
  writers (after (closed_while_waiting ++ [Publish "logs:A" (Build.logMessage "hi")])) 0 = 0 /\
  writers (after write_after_close) 0 = 1 /\
  subscriptions (after write_after_close) 0 = 1 /\
  subscriptions (after (write_after_close ++ [WriteDone 0 true])) 0 = 0 /\
  (c_sent <$> conns (after (write_after_close ++ [WriteDone 0 true])) !! 0)
    = Some [(Handler 0, ack "logs:A")].
Proof. vm_compute. repeat split; reflexivity. Qed.

Lemma C8_close_is_noticed_on_next_write_witness :
  Api.step glob_match (after joined)
    (Read 0 (ReadErr "websocket: close 1001 (going away)"))
  = Some (after closed_while_waiting).
Proof.
  destruct (C8_close_is_noticed_on_next_write glob_match (after joined) 0
              {| c_open := true; c_pc := HReading;
                 c_sent := [(Handler 0, ack "logs:A")]; c_failed := [] |}
              "websocket: close 1001 (going away)") as (Hstep & _);
    [vm_compute; reflexivity .. |].
  rewrite Hstep. vm_compute. reflexivity.
Defined.

(** In [three_writers] the handler and two forwarders are inside
    [WriteJSON] on connection 0 together: the writes are not serialized. *)
Lemma writes_are_not_serialized : ~ single_writer glob_match.
Proof.
  intros H.
  specialize (H three_writers (after three_writers) 0).
  assert (writers (after three_writers) 0 <= 1) as Hle
    by (apply H; vm_compute; reflexivity).
  vm_compute in Hle. lia.
Qed.

(** Already with a single subscription the handler and the forwarder can be
    inside [WriteJSON] together. *)
Example two_tasks_write_with_one_subscription :
  writers (after two_writers) 0 = 2 /\ length (forwarders_of (after two_writers) 0) = 1.
Proof. vm_compute. split; reflexivity. Qed.

Lemma C10_concurrent_writes_end_the_server_witness :
  Api.run glob_match (after [Upgrade true])
    [Read 0 (ReadMsg (subscribe_msg "logs:A")); Subscribe 0;
     Publish "logs:A" (Build.logMessage "hi"); Receive 0] = Some (after two_writers) /\
  Api.serve glob_match (after [Upgrade true])
    ((Does <$> [Read 0 (ReadMsg (subscribe_msg "logs:A")); Subscribe 0;
                Publish "logs:A" (Build.logMessage "hi"); Receive 0])
     ++ [FindsWriter 0]) = Some (Panicked 0).
Proof.
  destruct (C10_concurrent_writes_end_the_server glob_match (after [Upgrade true]) 0
              {| c_open := true; c_pc := HReading; c_sent := []; c_failed := [] |}
              "logs:A" (Build.logMessage "hi"))
    as (s' & fw & Hrun & _ & _ & _ & _ & _ & Hpanic);
    [vm_compute; reflexivity | vm_compute; reflexivity | vm_compute; reflexivity
    | eexists; vm_compute; reflexivity |].
  split; [|exact Hpanic]. etrans; [exact Hrun|].
  symmetry. etrans; [|exact Hrun]. vm_compute. reflexivity.
Defined.

End Runs.

(** * Publishing never fails the build *)

Section PublishClaim.

Import Build.

(** One iteration of [readers] is the loop taking one result from its pipe
    and, for a chunk, the answer of the broker to the publish of it. *)
Lemma readerLoop_iteration bs st res rest w :
  runReader bs st {| rd_pc := AtRead; rd_pipe := res :: rest; rd_world := w |}
    (ReadReturns :: if String.eqb (r_data res) "" then [] else [BrokerAnswers])
  = Some {| rd_pc := if r_err res then Left else AtRead; rd_pipe := rest;
            rd_world := snd (readerStep bs st res w) |}.
Proof.
  unfold readerStep. destruct (String.eqb (r_data res) "") eqn:He.
  - cbn. rewrite He. reflexivity.
  - destruct st; cbn; rewrite He; cbn; by rewrite bind_unfold.
Qed.

(** C4, counterexample.  The command writes two chunks.  The reader takes
    the first and calls [publishLog]; until the broker answers, no call of
    [Read] returns, so the second chunk stays in the pipe. *)
Lemma C4_counterexample : ~ publish_never_blocks.
Proof.
  intros H.
  destruct (H {| projectID := "abc123" |} Stdout [read "a" false; read "b" false]
              (fresh accepting)) as (es & r' & Hno & Hrun & Hpipe).
  destruct es as [|e1 [|e2 es]].
  - injection Hrun as <-. discriminate.
  - destruct e1; [|exfalso; apply Hno, list_elem_of_here].
    injection Hrun as <-. discriminate.
  - destruct e1; [|exfalso; apply Hno, list_elem_of_here].
    destruct e2; [discriminate|].
    exfalso. apply Hno, list_elem_of_further, list_elem_of_here.
Qed.

(** C4, amended.  [publishLog] is a synchronous call that has no result.
    While it is out, the reader that made it takes nothing more from its
    pipe: the only thing that moves it is the answer of the broker.  When the
    answer comes the reader goes on in the same way whatever it is: an error
    is written to the local log and the event is dropped, otherwise the event
    has been handed to the broker; nothing else changes.  The result of
    [runBuild] and the objects it uploads are the same whatever the broker
    answers.  The broker takes a message that no open subscription matches
    like any other: no forwarder gets it, and the publisher gets an answer
    that is not an error. *)
Theorem C4_publish_waits_for_the_answer
    (bs : BuildServer) (env : BuildEnv) (message : string) (w w2 : World)
    (st : Stream) (pipe : list ReadResult) (last : bool)
    (matches : string -> string -> bool) (s : Api.State) :
  w_s3 w = w_s3 w2 ->
  (forall fw, fw ∈ Api.fwds s ->
     Api.subscribed fw && matches (Api.f_channel fw) (channel bs) = false) ->
  let w' := snd (publishLog bs message w) in
  let r := {| rd_pc := InPublish message last; rd_pipe := pipe; rd_world := w |} in
  let taken := {| Api.conns := Api.conns s; Api.fwds := Api.fwds s;
                  Api.published := Api.published s ++ [(channel bs, logMessage message)];
                  Api.log := Api.log s |} in
  readerLoop bs st r ReadReturns = None /\
  readerLoop bs st r BrokerAnswers =
    Some {| rd_pc := if last then Left else AtRead; rd_pipe := pipe; rd_world := w' |} /\
  match w_replies w (w_npub w) with
  | Some e =>
      w_broker w' = w_broker w /\
      w_log w' = w_log w ++ ["Failed to publish log: " +:+ e]
  | None =>
      w_broker w' = w_broker w ++ [(channel bs, logMessage message)] /\
      w_log w' = w_log w
  end /\
  w_s3 w' = w_s3 w /\
  fst (runBuild bs env w) = fst (runBuild bs env w2) /\
  w_s3 (snd (runBuild bs env w)) = w_s3 (snd (runBuild bs env w2)) /\
  Api.PUBLISH matches s (channel bs) (logMessage message) = (None, taken) /\
  Api.step matches s (Api.Publish (channel bs) (logMessage message)) = Some taken /\
  (w_replies w (w_npub w) = fst (Api.PUBLISH matches s (channel bs) (logMessage message)) ->
   w_log w' = w_log w /\
   w_broker w' = w_broker w ++ [(channel bs, logMessage message)]).
Proof.
  intros Hs3 Hnone w' r taken.
  split; [reflexivity|]. split; [reflexivity|].
  unfold w'. rewrite publishLog_unfold. simpl.
  split; [by destruct (w_replies w (w_npub w))|]. split; [reflexivity|].
  destruct (oblivious_runBuild bs env w w2 Hs3) as [Hres Hup].
  split; [exact Hres|]. split; [exact Hup|].
  assert (Hfw : Api.deliver matches (channel bs) (logMessage message) <$> Api.fwds s
                = Api.fwds s).
  { induction (Api.fwds s) as [|fw l IH]; [reflexivity|].
    rewrite fmap_cons. f_equal.
    - unfold Api.deliver. rewrite Hnone; [reflexivity | apply list_elem_of_here].
    - apply IH. intros fw' Hin. apply Hnone. by apply list_elem_of_further. }
  split; [unfold Api.PUBLISH, taken; by rewrite Hfw|].
  split; [unfold taken; by rewrite Hfw|].
  intros Hr. rewrite Hr. by split.
Qed.

Lemma C4_publish_waits_for_the_answer_witness :
  runReader {| projectID := "abc123" |} Stdout
    {| rd_pc := InPublish "hello" false; rd_pipe := [read "more" false];
       rd_world := fresh flaky |} [ReadReturns] = None /\
  w_log (snd (publishLog {| projectID := "abc123" |} "hello" (fresh flaky)))
    = ["Failed to publish log: dial tcp: connection refused"] /\
  fst (runBuild {| projectID := "abc123" |} repeating_build (fresh flaky))
    = fst (runBuild {| projectID := "abc123" |} repeating_build (fresh accepting)).
Proof.
  destruct (C4_publish_waits_for_the_answer {| projectID := "abc123" |} repeating_build
              "hello" (fresh flaky) (fresh accepting) Stdout [read "more" false] false
              Api.glob_match (after joined))
    as (Hwait & _ & Hpub & _ & Hres & _).
  - reflexivity.
  - intros fw Hin. vm_compute in Hin. apply list_elem_of_singleton in Hin as ->.
    vm_compute. reflexivity.
  - simpl in Hpub. destruct Hpub as [_ Hlog].
    split; [unfold runReader; by rewrite Hwait|]. split; [exact Hlog | exact Hres].
Defined.

End PublishClaim.

(** * Further properties of the build server *)

Section BuildMore.

Import Build.

(** Brings [w_s3] of a world reached through logs, publishes, reader
    iterations and yields back to [w_s3] of the world it started from. *)
Ltac s3_back :=
  unfold mret, M_ret;
  repeat first [ rewrite yield_s3 | rewrite publishLog_s3 | rewrite readers_s3
               | rewrite logPrint_s3 | rewrite leaveRunning_s3 | rewrite PutObject_s3
               | progress cbn [fst snd] ].

Lemma visit_result bs env e w : fst (visit bs env e w) = entry_error e.
Proof.
  unfold visit, entry_error.
  destruct (we_err e); [reflexivity|].
  destruct (we_isDir e); [reflexivity|].
  destruct (we_relErr e); [reflexivity|].
  rewrite !bind_unfold.
  destruct (we_open e); [reflexivity|]. rewrite !bind_unfold.
  destruct (we_put e); [reflexivity|].
  rewrite !bind_unfold. reflexivity.
Qed.

Lemma walk_result bs env es : forall w, fst (walk bs env es w) = first_error es.
Proof.
  induction es as [|e es IH]; intros w; simpl; [reflexivity|].
  rewrite bind_unfold, visit_result.
  destruct (entry_error e); [reflexivity | apply IH].
Qed.

Lemma uploadFiles_result bs env w :
  fst (uploadFiles bs env w) =
  match first_error (e_walk env) with
  | Some er => Some ("failed to upload files: " +:+ er)
  | None => None
  end.
Proof.
  unfold uploadFiles. rewrite !bind_unfold, walk_result.
  destruct (first_error (e_walk env)); [reflexivity|].
  rewrite !bind_unfold. reflexivity.
Qed.

Lemma first_error_None es :
  first_error es = None <-> forall e, e ∈ es -> entry_error e = None.
Proof.
  induction es as [|e es IH]; simpl.
  - split; [intros _ e He; inversion He | done].
  - destruct (entry_error e) eqn:He.
    + split; [done|]. intros H. specialize (H e (list_elem_of_here _ _)). congruence.
    + rewrite IH. split.
      * intros H e' He'. apply elem_of_cons in He' as [->|He']; auto.
      * intros H e' He'. apply H. by apply list_elem_of_further.
Qed.

Lemma first_error_visited es : first_error es = None -> visited es = es.
Proof.
  induction es as [|e es IH]; simpl; [reflexivity|].
  destruct (entry_error e); [discriminate|]. intros H. by rewrite IH.
Qed.

Lemma visited_elem es e : e ∈ visited es -> e ∈ es /\ entry_error e = None.
Proof.
  induction es as [|e0 es IH]; simpl; [intros H; inversion H|].
  destruct (entry_error e0) eqn:He0; [intros H; inversion H|].
  intros H. apply elem_of_cons in H as [->|H].
  - split; [apply list_elem_of_here | exact He0].
  - destruct (IH H). split; [by apply list_elem_of_further | done].
Qed.

Lemma visit_s3 bs env e w :
  w_s3 (snd (visit bs env e w)) =
  w_s3 w ++ match entry_error e with
            | Some _ => []
            | None => if we_isDir e then [] else [object_of bs env e]
            end.
Proof.
  unfold visit, entry_error.
  destruct (we_err e); [by rewrite app_nil_r|].
  destruct (we_isDir e); [by rewrite app_nil_r|].
  destruct (we_relErr e); [by rewrite app_nil_r|].
  rewrite !bind_unfold.
  destruct (we_open e); [s3_back; by rewrite app_nil_r|].
  rewrite !bind_unfold.
  destruct (we_put e); [s3_back; by rewrite app_nil_r|].
  rewrite !bind_unfold. by s3_back.
Qed.

Lemma walk_s3 bs env es : forall w,
  w_s3 (snd (walk bs env es w)) =
  w_s3 w ++ (object_of bs env <$> filter is_file (visited es)).
Proof.
  induction es as [|e es IH]; intros w; simpl; [by rewrite app_nil_r|].
  rewrite bind_unfold, visit_result.
  pose proof (visit_s3 bs env e w) as Hv.
  destruct (entry_error e) eqn:He.
  - simpl. rewrite Hv. reflexivity.
  - rewrite IH, Hv, filter_cons.
    destruct (decide (is_file e)) as [Hf|Hf]; unfold is_file in Hf;
      destruct (we_isDir e); try congruence.
    + rewrite fmap_cons, <- app_assoc. reflexivity.
    + by rewrite app_nil_r.
Qed.

Lemma uploadFiles_s3 bs env w :
  w_s3 (snd (uploadFiles bs env w)) =
  w_s3 w ++ (object_of bs env <$> filter is_file (visited (e_walk env))).
Proof.
  unfold uploadFiles. rewrite !bind_unfold, walk_result.
  destruct (first_error (e_walk env)).
  - simpl. rewrite walk_s3. by s3_back.
  - rewrite !bind_unfold. s3_back. rewrite walk_s3. by s3_back.
Qed.

(** The world when [cmd.Wait] has returned. *)
Lemma runBuild_unfold bs env w :
  e_stdoutPipe env = None -> e_stderrPipe env = None -> e_start env = None ->
  e_wait env = None ->
  runBuild bs env w =
  uploadFiles bs env
    (snd (publishLog bs "Build Complete"
       (snd (yield bs
          (snd (logPrint "Build Complete"
             (snd (yield bs
                (snd (leaveRunning
                        (fst (unread (e_sched env) (e_stdout env) (e_stderr env)))
                        (snd (unread (e_sched env) (e_stdout env) (e_stderr env)))
                   (snd (readers bs (e_sched env) (e_stdout env) (e_stderr env)
                      (snd (publishLog bs "Build Started..."
                         (snd (logPrint "Executing build script" w)))))))))))))))).
Proof.
  intros H1 H2 H3 H4. unfold runBuild.
  rewrite !bind_unfold, H1, H2, H3, bind_unfold, H4, !bind_unfold. reflexivity.
Qed.

Lemma runBuild_result_None bs env w :
  fst (runBuild bs env w) = None <->
  e_stdoutPipe env = None /\ e_stderrPipe env = None /\ e_start env = None /\
  e_wait env = None /\ first_error (e_walk env) = None.
Proof.
  split.
  - intros H. unfold runBuild in H. rewrite !bind_unfold in H.
    destruct (e_stdoutPipe env) eqn:H1; [discriminate|].
    destruct (e_stderrPipe env) eqn:H2; [discriminate|].
    destruct (e_start env) eqn:H3; [discriminate|].
    rewrite bind_unfold in H.
    destruct (e_wait env) eqn:H4; [discriminate|].
    rewrite !bind_unfold, uploadFiles_result in H.
    destruct (first_error (e_walk env)); [discriminate | done].
  - intros (H1 & H2 & H3 & H4 & H5).
    rewrite runBuild_unfold, uploadFiles_result, H5 by done. reflexivity.
Qed.

Lemma runBuild_s3 bs env w :
  exists es, (forall e, e ∈ es -> e ∈ e_walk env /\ entry_error e = None) /\
    w_s3 (snd (runBuild bs env w)) = w_s3 w ++ (object_of bs env <$> filter is_file es) /\
    (fst (runBuild bs env w) = None -> es = e_walk env).
Proof.
  destruct (e_stdoutPipe env) eqn:H1; [|destruct (e_stderrPipe env) eqn:H2;
    [|destruct (e_start env) eqn:H3; [|destruct (e_wait env) eqn:H4]]].
  1-4: exists []; split; [intros x Hx; inversion Hx|]; split;
    [|intros H; apply runBuild_result_None in H; destruct H as (?&?&?&?&?);
      congruence];
    unfold runBuild; rewrite !bind_unfold, ?H1, ?H2, ?H3, ?bind_unfold, ?H4;
    simpl; rewrite ?readers_s3, ?publishLog_unfold; simpl; by rewrite app_nil_r.
  exists (visited (e_walk env)). split; [apply visited_elem|].
  rewrite runBuild_unfold by done.
  split.
  - rewrite uploadFiles_s3. by s3_back.
  - intros H. rewrite uploadFiles_result in H. apply first_error_visited.
    by destruct (first_error (e_walk env)).
Qed.

Lemma visited_prefix es : visited es `prefix_of` es.
Proof.
  induction es as [|e es IH]; simpl; [done|].
  destruct (entry_error e); [apply prefix_nil | by apply prefix_cons].
Qed.

Lemma visited_all es : visited es = es <-> first_error es = None.
Proof.
  split; [|apply first_error_visited].
  induction es as [|e es IH]; simpl; [done|].
  destruct (entry_error e); [discriminate|]. intros [= H]. by apply IH.
Qed.

(** X1.  [uploadFiles] puts to S3, in the order of the walk, exactly the
    files among the entries that come before the first failure; these entries
    are a beginning of the walk, and all of it exactly when [uploadFiles]
    returns [nil].  A directory is never put, and neither is the entry that
    failed or any entry after it. *)
Theorem uploadFiles_puts_files_before_first_failure
    (bs : BuildServer) (env : BuildEnv) (w : World) :
  w_s3 (snd (uploadFiles bs env w)) =
    w_s3 w ++ (object_of bs env <$> filter is_file (visited (e_walk env))) /\
  visited (e_walk env) `prefix_of` e_walk env /\
  (fst (uploadFiles bs env w) = None <-> visited (e_walk env) = e_walk env).
Proof.
  split; [apply uploadFiles_s3|]. split; [apply visited_prefix|].
  rewrite uploadFiles_result, visited_all.
  destruct (first_error (e_walk env)); split; done.
Qed.

(** X2.  [main] returns normally exactly when nothing failed: the AWS
    configuration loaded, PROJECT_ID is set, both pipes were created, the
    command started and exited with status zero, and no entry of the walk
    gave an error.  Whatever the broker answers plays no part. *)
Theorem main_returns_iff_nothing_failed (pe : ProcEnv) (w : World) :
  fst (main pe w) = Returned <->
  env_awsConfig pe = None /\ env_PROJECT_ID pe <> "" /\
  e_stdoutPipe (env_build pe) = None /\ e_stderrPipe (env_build pe) = None /\
  e_start (env_build pe) = None /\ e_wait (env_build pe) = None /\
  forall e, e ∈ e_walk (env_build pe) -> entry_error e = None.
Proof.
  rewrite <- first_error_None. unfold main, NewBuildServer.
  destruct (env_awsConfig pe); [split; [discriminate | by intros (? & _)]|].
  destruct (String.eqb_spec (env_PROJECT_ID pe) "") as [Heq|Hne].
  { split; [discriminate | by intros (_ & ? & _)]. }
  rewrite bind_unfold.
  pose proof (runBuild_result_None {| projectID := env_PROJECT_ID pe |} (env_build pe) w) as Hr.
  destruct (runBuild {| projectID := env_PROJECT_ID pe |} (env_build pe) w)
    as [[er|] w2]; simpl in *.
  - split; [discriminate|]. intros (_ & _ & H). apply Hr in H. discriminate.
  - split; [|done]. intros _. split; [done|]. split; [done|]. by apply Hr.
Qed.

(** X3.  Every object a run of [runBuild] adds to S3 comes from a file of
    the walk that gave no error: its key is [__outputs/<projectID>/<relative
    path>], its body is that file, and neither its content type nor its
    bucket is empty. *)
Theorem every_uploaded_object_is_a_walked_file
    (bs : BuildServer) (env : BuildEnv) (w : World) (o : S3Object) :
  o ∈ w_s3 (snd (runBuild bs env w)) ->
  o ∈ w_s3 w \/
  exists e, e ∈ e_walk env /\ we_isDir e = false /\ entry_error e = None /\
    o_key o = "__outputs/" +:+ projectID bs +:+ "/" +:+ we_rel e /\
    o_body o = we_path e /\ o_contentType o <> "" /\ o_bucket o <> "".
Proof.
  destruct (runBuild_s3 bs env w) as (es & Hes & -> & _).
  intros [Hold|Hnew]%elem_of_app; [by left|]. right.
  apply list_elem_of_fmap in Hnew as (e & -> & He).
  apply list_elem_of_filter in He as [Hfile He].
  destruct (Hes e He) as [Hin Herr].
  exists e. repeat split; try done; simpl.
  - destruct (String.eqb (we_mime e) "") eqn:Hm;
      [discriminate | by apply String.eqb_neq in Hm].
  - destruct (String.eqb (e_S3_BUCKET env) "") eqn:Hb;
      [discriminate | by apply String.eqb_neq in Hb].
Qed.

Lemma every_uploaded_object_is_a_walked_file_witness :
  exists e, e ∈ e_walk site_build /\
    "__outputs/abc123/data.bin" = "__outputs/" +:+ "abc123" +:+ "/" +:+ we_rel e.
Proof.
  destruct (every_uploaded_object_is_a_walked_file {| projectID := "abc123" |}
              site_build (fresh accepting)
              {| o_bucket := "vercel-clone-outputs"; o_key := "__outputs/abc123/data.bin";
                 o_contentType := "application/octet-stream";
                 o_body := "output/dist/data.bin" |})
    as [Hold|(e & Hin & _ & _ & Hkey & _)].
  - vm_compute. apply list_elem_of_here.
  - vm_compute in Hold. inversion Hold.
  - exists e. split; [exact Hin | exact Hkey].
Defined.

(** X4.  When [runBuild] returns [nil], every file of the walk has been
    put to S3, once and in walk order. *)
Theorem successful_build_uploads_every_file
    (bs : BuildServer) (env : BuildEnv) (w : World) :
  fst (runBuild bs env w) = None ->
  w_s3 (snd (runBuild bs env w)) =
    w_s3 w ++ (object_of bs env <$> filter is_file (e_walk env)).
Proof.
  intros H. destruct (runBuild_s3 bs env w) as (es & _ & Hs3 & Hall).
  by rewrite Hs3, (Hall H).
Qed.

Lemma successful_build_uploads_every_file_witness :
  o_key <$> w_s3 (snd (runBuild {| projectID := "abc123" |} site_build (fresh flaky)))
  = ["__outputs/abc123/data.bin"; "__outputs/abc123/index.html"].
Proof.
  rewrite (successful_build_uploads_every_file {| projectID := "abc123" |}
             site_build (fresh flaky)); [|vm_compute; reflexivity].
  vm_compute. reflexivity.
Defined.

(** *** The events of a successful run *)

Lemma readers_replies bs sched : forall out err w,
  w_replies (snd (readers bs sched out err w)) = w_replies w.
Proof.
  induction sched as [|st sched IH]; intros out err w; simpl; [reflexivity|].
  destruct st.
  - destruct out as [|r out']; [apply IH|].
    rewrite bind_unfold, IH. apply readerStep_replies.
  - destruct err as [|r err']; [apply IH|].
    rewrite bind_unfold, IH. apply readerStep_replies.
Qed.

Lemma merged_only_left {A} (l : list A) : merged l [] l.
Proof. induction l; by constructor. Qed.

Lemma merged_only_right {A} (l : list A) : merged [] l l.
Proof. induction l; by constructor. Qed.

Lemma merged_app {A} (a b l a' b' l' : list A) :
  merged a b l -> merged a' b' l' -> merged (a ++ a') (b ++ b') (l ++ l').
Proof. intros H H'. induction H; simpl; [exact H' | by constructor ..]. Qed.

Lemma merged_none_right {A} (a l : list A) : merged a [] l -> l = a.
Proof.
  intros H. remember [] as b eqn:Hb. induction H; [reflexivity | | discriminate].
  by rewrite IHmerged.
Qed.

Lemma unread_app s1 : forall s2 out err,
  unread (s1 ++ s2) out err
  = unread s2 (fst (unread s1 out err)) (snd (unread s1 out err)).
Proof.
  induction s1 as [|st s1 IH]; intros s2 out err; simpl; [reflexivity|].
  destruct st.
  - destruct out as [|r out']; apply IH.
  - destruct err as [|r err']; apply IH.
Qed.

Lemma chunks_app s1 : forall s2 out err,
  chunks (s1 ++ s2) out err
  = chunks s1 out err ++ chunks s2 (fst (unread s1 out err)) (snd (unread s1 out err)).
Proof.
  induction s1 as [|st s1 IH]; intros s2 out err; simpl; [reflexivity|].
  destruct st.
  - destruct out as [|r out']; [apply IH|]. by rewrite IH, app_assoc.
  - destruct err as [|r err']; [apply IH|]. by rewrite IH, app_assoc.
Qed.

Lemma chunk_events_app bs s1 s2 out err :
  chunk_events bs (s1 ++ s2) out err
  = chunk_events bs s1 out err
    ++ chunk_events bs s2 (fst (unread s1 out err)) (snd (unread s1 out err)).
Proof. unfold chunk_events. by rewrite chunks_app, fmap_app. Qed.

Lemma take_add {A} n1 : forall n2 (l : list A),
  take (n1 + n2) l = take n1 l ++ take n2 (drop n1 l).
Proof.
  induction n1 as [|n1 IH]; intros n2 l; [reflexivity|].
  destruct l as [|x l]; simpl; [by rewrite take_nil | by rewrite IH].
Qed.

Lemma overtaking_add w w1 n1 n2 :
  w_sched w1 = drop n1 (w_sched w) ->
  overtaking w (n1 + n2) = overtaking w n1 ++ overtaking w1 n2.
Proof. intros H. unfold overtaking. by rewrite take_add, concat_app, H. Qed.

Lemma advances_here bs w : advances bs [] w w.
Proof.
  intros Hok. split; [exact Hok|]. exists 0, []. unfold overtaking, chunk_events. simpl.
  rewrite drop_0, app_nil_r. repeat split. constructor.
Qed.

Lemma advances_trans bs t1 t2 w w1 w2 :
  advances bs t1 w w1 -> advances bs t2 w1 w2 -> advances bs (t1 ++ t2) w w2.
Proof.
  intros H1 H2 Hok.
  destruct (H1 Hok) as (Hok1 & n1 & l1 & Hs1 & Hp1 & Hb1 & Hm1).
  destruct (H2 Hok1) as (Hok2 & n2 & l2 & Hs2 & Hp2 & Hb2 & Hm2).
  split; [exact Hok2|]. exists (n1 + n2), (l1 ++ l2).
  rewrite (overtaking_add w w1 n1 n2 Hs1).
  assert (Hfst : w_stdout w1 = fst (unread (overtaking w n1) (w_stdout w) (w_stderr w)))
    by (by rewrite <- Hp1).
  assert (Hsnd : w_stderr w1 = snd (unread (overtaking w n1) (w_stdout w) (w_stderr w)))
    by (by rewrite <- Hp1).
  split; [by rewrite Hs2, Hs1, drop_drop|].
  split; [by rewrite unread_app, <- Hfst, <- Hsnd|].
  split; [by rewrite Hb2, Hb1, app_assoc|].
  rewrite fmap_app, chunk_events_app, <- Hfst, <- Hsnd. by apply merged_app.
Qed.

Lemma advances_eq bs t t' w w' : advances bs t' w w' -> t' = t -> advances bs t w w'.
Proof. by intros H <-. Qed.

Lemma advances_quiet bs w w' :
  w_replies w' = w_replies w -> w_sched w' = w_sched w ->
  w_stdout w' = w_stdout w -> w_stderr w' = w_stderr w -> w_broker w' = w_broker w ->
  advances bs [] w w'.
Proof.
  intros Hr Hs Ho He Hb Hok. split; [intros k; by rewrite Hr|].
  exists 0, []. unfold overtaking, chunk_events. simpl.
  rewrite drop_0, app_nil_r, Ho, He. repeat split; try done. constructor.
Qed.

Lemma advances_then bs t w w1 w2 :
  advances bs t w w1 -> advances bs [] w1 w2 -> advances bs t w w2.
Proof.
  intros H1 H2. rewrite <- (app_nil_r t). by apply (advances_trans _ _ _ _ w1).
Qed.

Lemma advances_then_logPrint bs t w w1 line :
  advances bs t w w1 -> advances bs t w (snd (logPrint line w1)).
Proof. intros H. apply (advances_then _ _ _ w1); [exact H | by apply advances_quiet]. Qed.

Lemma advances_then_PutObject bs t w w1 o :
  advances bs t w w1 -> advances bs t w (snd (PutObject o w1)).
Proof. intros H. apply (advances_then _ _ _ w1); [exact H | by apply advances_quiet]. Qed.

Lemma advances_then_publishLog bs t w w1 text :
  advances bs t w w1 -> advances bs (t ++ [text]) w (snd (publishLog bs text w1)).
Proof.
  intros H. apply (advances_trans _ _ _ _ w1); [exact H|]. intros Hok.
  rewrite publishLog_unfold. simpl. split; [exact Hok|].
  exists 0, [event bs text]. unfold overtaking, chunk_events. simpl.
  rewrite drop_0, Hok. repeat split. apply merged_only_left.
Qed.

Lemma advances_then_yield bs t w w1 :
  advances bs t w w1 -> advances bs t w (snd (yield bs w1)).
Proof.
  intros H. apply (advances_then _ _ _ w1); [exact H|].
  rewrite yield_unfold. destruct (w_sched w1) as [|sched later] eqn:Hs.
  - apply advances_here.
  - intros Hok. simpl. split; [intros k; by rewrite readers_replies|].
    exists 1, (chunk_events bs sched (w_stdout w1) (w_stderr w1)).
    unfold overtaking. rewrite Hs. simpl. rewrite app_nil_r, drop_0.
    split; [reflexivity|]. split; [by destruct (unread _ _ _)|].
    split; [by apply readers_broker | apply merged_only_right].
Qed.

(** Follows a world through the calls that led to it. *)
Ltac advance_step :=
  lazymatch goal with
  | |- advances _ _ _ (snd (logPrint _ _)) => apply advances_then_logPrint
  | |- advances _ _ _ (snd (PutObject _ _)) => apply advances_then_PutObject
  | |- advances _ _ _ (snd (publishLog _ _ _)) => apply advances_then_publishLog
  | |- advances _ _ _ (snd (yield _ _)) => apply advances_then_yield
  end.

Ltac advance :=
  unfold mret, M_ret; cbn [fst snd];
  eapply advances_eq; [ repeat advance_step | ].

Lemma visit_advances bs env e w :
  entry_error e = None -> advances bs (file_texts e) w (snd (visit bs env e w)).
Proof.
  intros He. unfold entry_error in He. unfold visit, file_texts.
  destruct (we_err e); [discriminate|].
  destruct (we_isDir e); [apply advances_here|].
  destruct (we_relErr e); [discriminate|].
  destruct (we_open e); [discriminate|].
  destruct (we_put e); [discriminate|].
  rewrite !bind_unfold. advance; [apply advances_here | reflexivity].
Qed.

Lemma advances_then_walk bs env es : forall t w w1,
  first_error es = None ->
  advances bs t w w1 ->
  advances bs (t ++ concat (file_texts <$> es)) w (snd (walk bs env es w1)).
Proof.
  induction es as [|e es IH]; intros t w w1 Hnone H; simpl in *.
  - by rewrite app_nil_r.
  - rewrite bind_unfold, visit_result.
    destruct (entry_error e) eqn:He; [discriminate|].
    rewrite app_assoc. apply IH; [exact Hnone|].
    apply (advances_trans _ _ _ _ w1); [exact H | by apply visit_advances].
Qed.

Lemma advances_then_uploadFiles bs env t w w1 :
  first_error (e_walk env) = None ->
  advances bs t w w1 ->
  advances bs (t ++ ["Starting to upload"] ++ concat (file_texts <$> e_walk env) ++ ["Done"])
    w (snd (uploadFiles bs env w1)).
Proof.
  intros Hnone H. unfold uploadFiles.
  rewrite !bind_unfold, walk_result, Hnone, !bind_unfold.
  advance.
  - apply advances_then_walk; [exact Hnone|]. repeat advance_step. exact H.
  - by rewrite <- !app_assoc.
Qed.

Lemma runBuild_advances bs env w :
  e_stdoutPipe env = None -> e_stderrPipe env = None -> e_start env = None ->
  e_wait env = None -> first_error (e_walk env) = None ->
  advances bs (upload_texts env)
    (snd (leaveRunning (fst (unread (e_sched env) (e_stdout env) (e_stderr env)))
                       (snd (unread (e_sched env) (e_stdout env) (e_stderr env)))
            (snd (readers bs (e_sched env) (e_stdout env) (e_stderr env)
               (snd (publishLog bs "Build Started..."
                  (snd (logPrint "Executing build script" w))))))))
    (snd (runBuild bs env w)).
Proof.
  intros H1 H2 H3 H4 H5. rewrite runBuild_unfold by done.
  eapply advances_eq.
  - apply advances_then_uploadFiles; [exact H5|]. repeat advance_step.
    apply advances_here.
  - reflexivity.
Qed.

(** X5.  With a broker that accepts, a run of [runBuild] that returns
    [nil] hands the broker, on the channel of the build: the start event;
    then one event per non-empty chunk read before [cmd.Wait] returned; then
    [Build Complete], [Starting to upload], for every file of the walk
    [uploading] and [uploaded] with its relative path, and [Done], in this
    order.  The readers are not joined, so the events of the chunks they read
    later fall anywhere among these last ones, in reading order, and a chunk
    no iteration reads is not published.  When no reader runs after
    [cmd.Wait] has returned, the sequence is the one of [success_texts]. *)
Theorem successful_build_event_sequence
    (bs : BuildServer) (env : BuildEnv) (w : World) :
  (forall k, w_replies w k = None) ->
  fst (runBuild bs env w) = None ->
  let early := chunk_events bs (e_sched env) (e_stdout env) (e_stderr env) in
  let rest := unread (e_sched env) (e_stdout env) (e_stderr env) in
  (exists n l,
     let late := chunk_events bs (overtaking w n) (fst rest) (snd rest) in
     w_broker (snd (runBuild bs env w)) =
       w_broker w ++ [event bs "Build Started..."] ++ early ++ l /\
     merged (event bs <$> upload_texts env) late l /\
     early ++ late =
       chunk_events bs (e_sched env ++ overtaking w n) (e_stdout env) (e_stderr env)) /\
  (w_sched w = [] ->
   w_broker (snd (runBuild bs env w)) = w_broker w ++ (event bs <$> success_texts env)).
Proof.
  intros Hok Hres early rest.
  apply runBuild_result_None in Hres as (H1 & H2 & H3 & H4 & H5).
  set (w1 := snd (publishLog bs "Build Started..."
                    (snd (logPrint "Executing build script" w)))).
  assert (Hok1 : forall k, w_replies w1 k = None).
  { intros k. unfold w1. rewrite publishLog_unfold. apply Hok. }
  assert (Hb1 : w_broker w1 = w_broker w ++ [event bs "Build Started..."]).
  { unfold w1. rewrite publishLog_unfold. simpl. by rewrite Hok. }
  set (w2 := snd (readers bs (e_sched env) (e_stdout env) (e_stderr env) w1)).
  assert (Hok2 : forall k, w_replies w2 k = None).
  { intros k. unfold w2. rewrite readers_replies. apply Hok1. }
  assert (Hb2 : w_broker w2 = w_broker w1 ++ early).
  { unfold w2. by rewrite readers_broker. }
  assert (Hs2 : w_sched w2 = w_sched w).
  { unfold w2. rewrite readers_sched. unfold w1. by rewrite publishLog_unfold. }
  set (wl := snd (leaveRunning (fst rest) (snd rest) w2)).
  pose proof (runBuild_advances bs env w H1 H2 H3 H4 H5) as Hadv.
  change (advances bs (upload_texts env) wl (snd (runBuild bs env w))) in Hadv.
  destruct (Hadv Hok2) as (_ & n & l & _ & _ & Hb & Hm).
  unfold overtaking in Hm.
  change (w_sched wl) with (w_sched w2) in Hm.
  change (w_stdout wl) with (fst rest) in Hm.
  change (w_stderr wl) with (snd rest) in Hm.
  change (w_broker wl) with (w_broker w2) in Hb.
  rewrite Hs2 in Hm. fold (overtaking w n) in Hm.
  assert (Hall : w_broker (snd (runBuild bs env w)) =
                 w_broker w ++ [event bs "Build Started..."] ++ early ++ l).
  { rewrite Hb, Hb2, Hb1, <- !app_assoc. reflexivity. }
  split.
  - exists n, l. split; [exact Hall|]. split; [exact Hm|].
    unfold early. by rewrite chunk_events_app.
  - intros Hnil. rewrite Hall. unfold overtaking in Hm.
    rewrite Hnil, take_nil in Hm. simpl in Hm.
    assert (Hl : l = event bs <$> upload_texts env).
    { apply merged_none_right. unfold chunk_events in Hm. exact Hm. }
    rewrite Hl. unfold success_texts, upload_texts, early, chunk_events.
    rewrite !fmap_app, <- list_fmap_compose. reflexivity.
Qed.

Lemma successful_build_event_sequence_witness :
  snd <$> w_broker (snd (runBuild {| projectID := "abc123" |} site_build (fresh accepting)))
  = logMessage <$> ["Build Started..."; "built"; "Build Complete"; "Starting to upload";
                    "uploading data.bin"; "uploaded data.bin";
                    "uploading index.html"; "uploaded index.html"; "Done"].
Proof.
  destruct (successful_build_event_sequence {| projectID := "abc123" |}
              site_build (fresh accepting)) as [_ H];
    [intros k; reflexivity | vm_compute; reflexivity |].
  rewrite H by reflexivity. vm_compute. reflexivity.
Defined.

(** The chunk of [slow_readers_build] is read when the main goroutine is
    about to publish [Starting to upload]: its event comes after
    [Build Complete]. *)
Example late_chunk_follows_build_complete :
  snd <$> w_broker (snd (runBuild {| projectID := "abc123" |} slow_readers_build
                          (scheduled accepting [[]; []; [Stdout]])))
  = logMessage <$> ["Build Started..."; "Build Complete"; "built";
                    "Starting to upload"; "Done"].
Proof. vm_compute. reflexivity. Qed.

(** *** What a failing broker loses *)

Lemma kept_app {A} replies (l1 : list A) : forall k l2,
  kept replies k (l1 ++ l2) = kept replies k l1 ++ kept replies (k + length l1) l2.
Proof.
  induction l1 as [|x l1 IH]; intros k l2; simpl.
  - by rewrite Nat.add_0_r.
  - rewrite IH, <- Nat.add_succ_comm. by destruct (replies k).
Qed.

Lemma loses_ret {A} (a : A) : loses_own_events (mret a).
Proof.
  intros w w' H. split; [reflexivity|]. split; [exact H|]. split; [reflexivity|].
  exists []. simpl. by rewrite !app_nil_r, Nat.add_0_r.
Qed.

Lemma loses_bind {A B} (m : M A) (k : A -> M B) :
  loses_own_events m -> (forall a, loses_own_events (k a)) -> loses_own_events (m ≫= k).
Proof.
  intros Hm Hk w w' H. rewrite !bind_unfold.
  destruct (Hm w w' H) as (Hr & Hs & Hrep & l1 & Hb1' & Hb1 & Hn1). rewrite Hr.
  destruct (Hk (fst (m w')) _ _ Hs) as (Hr2 & Hs2 & Hrep2 & l2 & Hb2' & Hb2 & Hn2).
  split; [exact Hr2|]. split; [exact Hs2|]. split; [by rewrite Hrep2|].
  exists (l1 ++ l2). rewrite Hb2', Hb1', Hb2, Hb1, Hn2, Hn1, Hrep, kept_app, length_app.
  rewrite <- !app_assoc. repeat split. lia.
Qed.

Lemma loses_quiet {A} (m : M A) :
  (forall w w', fst (m w) = fst (m w')) ->
  (forall w, w_replies (snd (m w)) = w_replies w /\ w_npub (snd (m w)) = w_npub w /\
             w_broker (snd (m w)) = w_broker w /\ w_sched (snd (m w)) = w_sched w) ->
  (forall w w', same_but_broker w w' ->
     w_s3 (snd (m w)) = w_s3 (snd (m w')) /\
     w_stdout (snd (m w)) = w_stdout (snd (m w')) /\
     w_stderr (snd (m w)) = w_stderr (snd (m w'))) ->
  loses_own_events m.
Proof.
  intros Hres Hsame Hrest w w' H.
  destruct (Hsame w) as (Hr & Hn & Hb & Hs). destruct (Hsame w') as (Hr' & _ & Hb' & Hs').
  destruct (Hrest w w' H) as (H3 & Ho & He). destruct H as (_ & _ & _ & Hsch & Hok).
  split; [apply Hres|]. split.
  { repeat split; try done; [by rewrite Hs, Hs' | intros k; by rewrite Hr']. }
  split; [exact Hr|]. exists []. simpl. by rewrite Hb, Hb', Hn, !app_nil_r, Nat.add_0_r.
Qed.

Lemma loses_logPrint line : loses_own_events (logPrint line).
Proof. apply loses_quiet; [done | done | by intros w w' (? & ? & ? & _)]. Qed.

Lemma loses_PutObject o : loses_own_events (PutObject o).
Proof.
  apply loses_quiet; [done | done |]. intros w w' (Hs3 & ? & ? & _). simpl.
  by rewrite Hs3.
Qed.

Lemma loses_leaveRunning out err : loses_own_events (leaveRunning out err).
Proof. apply loses_quiet; [done | done | by intros w w' (? & _)]. Qed.

Lemma loses_publishLog bs text : loses_own_events (publishLog bs text).
Proof.
  intros w w' (Hs3 & Ho & He & Hs & Hok). rewrite !publishLog_unfold.
  split; [reflexivity|]. split; [by repeat split|]. split; [reflexivity|].
  exists [event bs text]. simpl. rewrite Hok.
  split; [reflexivity|]. split; [|lia].
  destruct (w_replies w (w_npub w)); [by rewrite app_nil_r | reflexivity].
Qed.

Ltac loses :=
  repeat first
    [ apply loses_ret | apply loses_logPrint | apply loses_publishLog
    | apply loses_PutObject | apply loses_leaveRunning
    | apply loses_bind; [| intros ? ]
    | match goal with
      | |- loses_own_events (match ?x with _ => _ end) => destruct x
      end ].

Lemma loses_readerStep bs st r : loses_own_events (readerStep bs st r).
Proof. unfold readerStep. loses. Qed.

Lemma loses_readers bs sched : forall out err, loses_own_events (readers bs sched out err).
Proof.
  induction sched as [|st sched IH]; intros out err; simpl.
  - apply loses_ret.
  - destruct st.
    + destruct out as [|r out']; [apply IH|].
      apply loses_bind; [apply loses_readerStep | intros _; apply IH].
    + destruct err as [|r err']; [apply IH|].
      apply loses_bind; [apply loses_readerStep | intros _; apply IH].
Qed.

Lemma loses_yield bs : loses_own_events (yield bs).
Proof.
  intros w w' H. pose proof H as (Hs3 & Ho & He & Hs & Hok).
  rewrite !yield_unfold, <- Hs, <- Ho, <- He.
  destruct (w_sched w) as [|sched later]; [by apply (loses_ret tt)|].
  destruct (loses_readers bs sched (w_stdout w) (w_stderr w) w w' H)
    as (_ & (Hs3' & _ & _ & _ & Hok') & Hrep & l' & Hb' & Hb & Hn).
  simpl. split; [reflexivity|]. split; [by repeat split|]. split; [exact Hrep|].
  by exists l'.
Qed.

Ltac loses_more :=
  repeat first
    [ apply loses_ret | apply loses_logPrint | apply loses_publishLog
    | apply loses_PutObject | apply loses_leaveRunning | apply loses_yield
    | apply loses_readers
    | apply loses_bind; [| intros ? ]
    | match goal with
      | |- loses_own_events (match ?x with _ => _ end) => destruct x
      end ].

Lemma loses_visit bs env e : loses_own_events (visit bs env e).
Proof. unfold visit. loses_more. Qed.

Lemma loses_walk bs env es : loses_own_events (walk bs env es).
Proof.
  induction es as [|e es IH]; simpl; [apply loses_ret|].
  apply loses_bind; [apply loses_visit|].
  intros [er|]; [apply loses_ret | apply IH].
Qed.

Lemma loses_uploadFiles bs env : loses_own_events (uploadFiles bs env).
Proof.
  unfold uploadFiles.
  apply loses_bind; [apply loses_yield | intros _].
  apply loses_bind; [apply loses_publishLog | intros _].
  apply loses_bind; [apply loses_walk | intros [er|]]; loses_more.
Qed.

Lemma loses_runBuild bs env : loses_own_events (runBuild bs env).
Proof.
  unfold runBuild.
  apply loses_bind; [apply loses_logPrint | intros _].
  apply loses_bind; [apply loses_publishLog | intros _].
  destruct (e_stdoutPipe env); [apply loses_ret|].
  destruct (e_stderrPipe env); [apply loses_ret|].
  destruct (e_start env); [apply loses_ret|].
  apply loses_bind; [apply loses_readers | intros _].
  destruct (e_wait env); [apply loses_ret|].
  apply loses_bind; [apply loses_leaveRunning | intros _].
  apply loses_bind; [apply loses_yield | intros _].
  apply loses_bind; [apply loses_logPrint | intros _].
  apply loses_bind; [apply loses_yield | intros _].
  apply loses_bind; [apply loses_publishLog | intros _].
  apply loses_uploadFiles.
Qed.

(** X6.  A failed publish loses its own event and nothing else.  Take a run
    of [runBuild] with any broker and the same run (same pipes, same
    scheduling, same uploads so far) with a broker that accepts everything.
    Both give the same result and try the same publishes, one per event [l']
    the accepting broker gets; the other broker ends with exactly those
    events of [l'] whose publish it accepted, in the same order: the [k]-th
    event is missing if and only if the broker's answer to the [k]-th publish
    of the run was an error. *)
Theorem failed_publishes_lose_only_their_own_event
    (bs : BuildServer) (env : BuildEnv) (w w' : World) :
  w_s3 w = w_s3 w' ->
  w_stdout w = w_stdout w' -> w_stderr w = w_stderr w' -> w_sched w = w_sched w' ->
  (forall k, w_replies w' k = None) ->
  fst (runBuild bs env w) = fst (runBuild bs env w') /\
  exists l',
    w_broker (snd (runBuild bs env w')) = w_broker w' ++ l' /\
    w_broker (snd (runBuild bs env w)) =
      w_broker w ++ kept (w_replies w) (w_npub w) l' /\
    w_npub (snd (runBuild bs env w)) = w_npub w + length l'.
Proof.
  intros Hs3 Ho He Hs Hok.
  destruct (loses_runBuild bs env w w') as (Hr & _ & _ & Hl); [by repeat split|].
  split; [exact Hr | exact Hl].
Qed.

Lemma failed_publishes_lose_only_their_own_event_witness :
  snd <$> w_broker (snd (runBuild {| projectID := "abc123" |} site_build (fresh flaky)))
  = logMessage <$> ["built"; "Build Complete"; "Starting to upload";
                    "uploading data.bin"; "uploaded data.bin";
                    "uploading index.html"; "uploaded index.html"; "Done"].
Proof.
  destruct (failed_publishes_lose_only_their_own_event {| projectID := "abc123" |}
              site_build (fresh flaky) (fresh accepting))
    as (_ & l' & Hacc & Hflaky & _);
    [reflexivity | reflexivity | reflexivity | reflexivity | intros k; reflexivity |].
  rewrite Hflaky. simpl app.
  assert (Hl' : l' = w_broker (snd (runBuild {| projectID := "abc123" |} site_build
                                     (fresh accepting)))) by (by rewrite Hacc).
  rewrite Hl'. vm_compute. reflexivity.
Defined.

(** X7.  When the process fails before the build command runs (the AWS
    configuration does not load, PROJECT_ID is empty, a pipe cannot be
    created, or the command cannot be started), [main] ends in [log.Fatalf],
    nothing is put to S3 and no output is read: at most the one start event is
    published, and not even that when the initialisation failed. *)
Theorem failure_before_start_publishes_at_most_start_event
    (pe : ProcEnv) (w : World) :
  env_awsConfig pe <> None \/ env_PROJECT_ID pe = "" \/
  e_stdoutPipe (env_build pe) <> None \/ e_stderrPipe (env_build pe) <> None \/
  e_start (env_build pe) <> None ->
  (exists msg, fst (main pe w) = Fatal msg) /\
  w_s3 (snd (main pe w)) = w_s3 w /\
  (w_npub (snd (main pe w)) = w_npub w /\ w_broker (snd (main pe w)) = w_broker w /\
     (env_awsConfig pe <> None \/ env_PROJECT_ID pe = "")
   \/
   w_npub (snd (main pe w)) = S (w_npub w) /\
     env_awsConfig pe = None /\ env_PROJECT_ID pe <> "" /\
     w_broker (snd (main pe w)) =
       match w_replies w (w_npub w) with
       | None => w_broker w ++ [event {| projectID := env_PROJECT_ID pe |} "Build Started..."]
       | Some _ => w_broker w
       end).
Proof.
  intros H. unfold main, NewBuildServer.
  destruct (env_awsConfig pe) as [er|] eqn:Haws.
  { simpl. split; [by eexists|]. split; [done|]. left. repeat split; auto. }
  destruct (String.eqb_spec (env_PROJECT_ID pe) "") as [Heq|Hne].
  { simpl. split; [by eexists|]. split; [done|]. left. repeat split; auto. }
  destruct H as [H|[H|H]]; [done | done |].
  rewrite bind_unfold. unfold runBuild. rewrite !bind_unfold, publishLog_unfold.
  destruct (e_stdoutPipe (env_build pe)) as [e1|].
  { simpl. split; [by eexists|]. split; [done|]. right. repeat split; auto. }
  destruct (e_stderrPipe (env_build pe)) as [e2|].
  { simpl. split; [by eexists|]. split; [done|]. right. repeat split; auto. }
  destruct (e_start (env_build pe)) as [e3|].
  { simpl. split; [by eexists|]. split; [done|]. right. repeat split; auto. }
  destruct H as [H|[H|H]]; done.
Qed.

Lemma failure_before_start_publishes_at_most_start_event_witness :
  snd <$> w_broker (snd (main unstartable_proc (fresh accepting)))
    = [logMessage "Build Started..."] /\
  w_s3 (snd (main unstartable_proc (fresh accepting))) = [].
Proof.
  destruct (failure_before_start_publishes_at_most_start_event
              unstartable_proc (fresh accepting))
    as (_ & Hs3 & [(Hn & _)|(_ & _ & _ & Hb)]).
  - right; right; right; right. discriminate.
  - vm_compute in Hn. discriminate.
  - split; [rewrite Hb; reflexivity | exact Hs3].
Defined.

End BuildMore.

(** * Properties of the HTTP side of the API server *)

Section HttpFacts.

Import Http.

Lemma string_of_list_ascii_app (a b : list ascii) :
  string_of_list_ascii (a ++ b) = string_of_list_ascii a +:+ string_of_list_ascii b.
Proof. induction a as [|c a IH]; simpl; [reflexivity | by rewrite IH]. Qed.

Lemma split_from_nonempty sep cur s : split_from sep cur s <> [].
Proof.
  revert cur. induction s as [|c r IH]; intros cur; simpl; [done|].
  destruct (c =? sep)%char; [done | apply IH].
Qed.

Lemma split_from_join sep cur s :
  join_with (String sep EmptyString) (string_of_list_ascii <$> split_from sep cur s)
  = string_of_list_ascii (cur ++ s).
Proof.
  revert cur. induction s as [|c r IH]; intros cur; simpl.
  - by rewrite app_nil_r.
  - destruct (Ascii.eqb_spec c sep) as [->|Hne].
    + rewrite fmap_cons. simpl join_with.
      pose proof (split_from_nonempty sep [] r) as Hn.
      specialize (IH []).
      destruct (split_from sep [] r) as [|x xs] eqn:Hs; [done|].
      rewrite fmap_cons in *. simpl app in IH. rewrite IH.
      rewrite string_of_list_ascii_app. reflexivity.
    + rewrite IH, <- app_assoc. reflexivity.
Qed.

Lemma split_from_length sep cur s :
  length (split_from sep cur s) = S (length (filter (fun c => c = sep) s)).
Proof.
  revert cur. induction s as [|c r IH]; intros cur; simpl; [reflexivity|].
  rewrite filter_cons.
  destruct (Ascii.eqb_spec c sep) as [->|Hne]; case_decide; try done; simpl;
    by rewrite ?IH.
Qed.

Lemma split_from_pieces sep cur s :
  sep ∉ cur -> Forall (fun piece => sep ∉ piece) (split_from sep cur s).
Proof.
  revert cur. induction s as [|c r IH]; intros cur Hcur; simpl.
  - by constructor.
  - destruct (Ascii.eqb_spec c sep) as [->|Hne].
    + constructor; [done|]. apply IH. apply not_elem_of_nil.
    + apply IH. rewrite elem_of_app, list_elem_of_singleton. intros [?|?]; congruence.
Qed.

Lemma Split_join s : join_with "," (Split s ","%char) = s.
Proof.
  unfold Split. rewrite split_from_join. simpl. apply string_of_list_ascii_of_string.
Qed.

(** X8.  The subnets and the security groups [NewAPIServer] reads from the
    environment are never an empty list: a variable with [n] commas gives
    [n + 1] pieces, none of which holds a comma, and joining the pieces with
    commas gives the variable back.  An unset variable gives the one piece
    [""], not no piece. *)
Theorem NewAPIServer_splits_lists_on_commas (env : Env) (api : APIServer) :
  NewAPIServer env = inr api ->
  length (Subnets (config api)) = S (commas (ECS_SUBNETS env)) /\
  join_with "," (Subnets (config api)) = ECS_SUBNETS env /\
  Forall (fun piece => ","%char ∉ list_ascii_of_string piece) (Subnets (config api)) /\
  (ECS_SUBNETS env = "" -> Subnets (config api) = [""]) /\
  length (SecurityGroups (config api)) = S (commas (ECS_SECURITY_GROUPS env)) /\
  join_with "," (SecurityGroups (config api)) = ECS_SECURITY_GROUPS env /\
  (ECS_SECURITY_GROUPS env = "" -> SecurityGroups (config api) = [""]).
Proof.
  unfold NewAPIServer. destruct (LoadDefaultConfig env); [discriminate|].
  intros [= <-]. simpl. unfold Split, commas.
  rewrite !length_fmap, !split_from_length.
  split; [reflexivity|]. split; [apply Split_join|]. split.
  - apply Forall_fmap.
    eapply Forall_impl; [apply split_from_pieces, not_elem_of_nil|].
    intros piece Hp. simpl. by rewrite list_ascii_of_string_of_list_ascii.
  - split; [by intros ->|]. split; [reflexivity|].
    split; [apply Split_join | by intros ->].
Qed.

Lemma NewAPIServer_splits_lists_on_commas_witness :
  Subnets (config api_server) = ["subnet-a"; "subnet-b"] /\
  SecurityGroups (config api_server) = [""].
Proof.
  destruct (NewAPIServer_splits_lists_on_commas api_env api_server)
    as (_ & _ & _ & _ & _ & _ & Hsg); [reflexivity|].
  split; [reflexivity | by apply Hsg].
Defined.

(** *** [generateSlug] *)

Lemma list_ascii_substring n : forall s,
  list_ascii_of_string (String.substring 0 n s) = take n (list_ascii_of_string s).
Proof.
  induction n as [|n IH]; intros [|c s]; simpl; try reflexivity. by rewrite IH.
Qed.

Lemma length_list_ascii (s : string) :
  length (list_ascii_of_string s) = String.length s.
Proof. induction s as [|c s IH]; simpl; [reflexivity | by rewrite IH]. Qed.

Lemma replace_dash (s : list ascii) :
  replace_from ["-"%char] [] 0 s = filter (fun c => c <> "-"%char) s.
Proof.
  induction s as [|c r IH]; [reflexivity|].
  cbn [replace_from length take Nat.sub app]. rewrite filter_cons, IH.
  destruct (decide (c = "-"%char)) as [->|Hne].
  - rewrite bool_decide_eq_true_2 by reflexivity. by case_decide.
  - rewrite bool_decide_eq_false_2 by congruence. by case_decide.
Qed.

Lemma slug_chars (id : string) :
  list_ascii_of_string (ReplaceAll (String.substring 0 8 id) "-" "")
  = filter (fun c => c <> "-"%char) (take 8 (list_ascii_of_string id)).
Proof.
  unfold ReplaceAll. rewrite list_ascii_of_string_of_list_ascii.
  change (list_ascii_of_string "-") with ["-"%char].
  change (list_ascii_of_string "") with (@nil ascii).
  by rewrite replace_dash, list_ascii_substring.
Qed.

(** X9.  [generateSlug] panics exactly on a text shorter than 8 bytes.
    Otherwise the slug is what is left of the first 8 bytes when the dashes
    are taken out: it holds no dash and at most 8 bytes (and may be empty). *)
Theorem generateSlug_takes_dashes_out_of_first_8_bytes (id : string) :
  (generateSlug id = None <-> String.length id < 8) /\
  forall slug, generateSlug id = Some slug ->
    list_ascii_of_string slug
      = filter (fun c => c <> "-"%char) (take 8 (list_ascii_of_string id)) /\
    ("-"%char ∉ list_ascii_of_string slug) /\
    String.length slug <= 8.
Proof.
  unfold generateSlug. destruct (Nat.ltb_spec (String.length id) 8) as [Hlt|Hge].
  - split; [done | discriminate].
  - split; [split; [discriminate | lia]|].
    intros slug [= <-]. rewrite <- length_list_ascii, slug_chars.
    split; [reflexivity|]. split.
    + rewrite list_elem_of_filter. by intros [? _].
    + etrans; [apply length_filter|]. rewrite length_take. lia.
Qed.

Lemma is_hex_not_dash c : is_hex c = true -> c <> "-"%char.
Proof. intros H ->. vm_compute in H. discriminate. Qed.

Lemma is_uuid_prefix id :
  is_uuid id = true ->
  String.length id = 36 /\ forallb is_hex (take 8 (list_ascii_of_string id)) = true.
Proof.
  unfold is_uuid. intros H.
  repeat (apply andb_prop in H as [H ?]).
  apply Nat.eqb_eq in H. rewrite length_list_ascii in H. by split.
Qed.

Lemma generateSlug_slug_of_uuid (id : string) :
  is_uuid id = true ->
  generateSlug id = Some (String.substring 0 8 id) /\
  String.length (String.substring 0 8 id) = 8.
Proof.
  intros [Hlen Hhex]%is_uuid_prefix.
  assert (Hsame : filter (fun c => c <> "-"%char) (take 8 (list_ascii_of_string id))
                  = take 8 (list_ascii_of_string id)).
  { apply filter_all. apply Forall_forall. intros c Hc. apply is_hex_not_dash.
    rewrite forallb_forall in Hhex. apply Hhex. by apply list_elem_of_In. }
  assert (Hslug : ReplaceAll (String.substring 0 8 id) "-" "" = String.substring 0 8 id).
  { rewrite <- (string_of_list_ascii_of_string (ReplaceAll _ _ _)), slug_chars, Hsame.
    rewrite <- list_ascii_substring. apply string_of_list_ascii_of_string. }
  split.
  - unfold generateSlug. rewrite Hlen. simpl. by rewrite Hslug.
  - rewrite <- length_list_ascii, list_ascii_substring, length_take, length_list_ascii. lia.
Qed.

(** X10.  On the text of a UUID, [generateSlug] returns its first group:
    8 hexadecimal digits, so never an empty slug. *)
Theorem generateSlug_of_uuid (id : string) :
  is_uuid id = true ->
  generateSlug id = Some (String.substring 0 8 id) /\
  String.length (String.substring 0 8 id) = 8 /\
  forallb is_hex (list_ascii_of_string (String.substring 0 8 id)) = true.
Proof.
  intros Huuid. destruct (generateSlug_slug_of_uuid id Huuid) as [Hgen Hlen].
  split; [exact Hgen|]. split; [exact Hlen|].
  rewrite list_ascii_substring. by apply is_uuid_prefix.
Qed.

Lemma generateSlug_of_uuid_witness : generateSlug uuid_text = Some "3f2a9c1e".
Proof.
  destruct (generateSlug_of_uuid uuid_text) as (H & _); [vm_compute; reflexivity|].
  exact H.
Defined.

(** *** [createProject] *)

Lemma ShouldBindJSON_required body req :
  ShouldBindJSON body = Some req -> GitURL req <> "".
Proof.
  unfold ShouldBindJSON.
  destruct (JSON.parse_value _ _) as [[v rest]|]; [|discriminate].
  destruct (match v with
            | JSON.Object ms => decode_request ms {| GitURL := ""; Slug := "" |}
            | JSON.Null => Some {| GitURL := ""; Slug := "" |}
            | _ => None
            end) as [r|]; [|discriminate].
  simpl. destruct (String.eqb_spec (GitURL r) ""); [discriminate|].
  by intros [= <-].
Qed.

Lemma createProject_ok_inv api body uuid r tasks lines :
  createProject api body uuid None = Some (OK r, tasks, lines) ->
  exists req slug,
    GitURL req <> "" /\
    (if String.eqb (Slug req) "" then generateSlug uuid = Some slug else slug = Slug req) /\
    tasks = [{| rt_Cluster := Cluster (config api);
                rt_TaskDefinition := TaskDefinition (config api);
                rt_LaunchType := "FARGATE"; rt_Count := 1;
                rt_AssignPublicIp := "ENABLED";
                rt_Subnets := Subnets (config api);
                rt_SecurityGroups := SecurityGroups (config api);
                rt_ContainerName := "builder-image";
                rt_Environment := [("GIT_REPOSITORY__URL", GitURL req);
                                   ("PROJECT_ID", slug)] |}] /\
    r = {| Status := "queued";
           Data := {| ProjectSlug := slug;
                      URL := "http://" +:+ slug +:+ ".localhost:8000" |} |}.
Proof.
  unfold createProject. destruct (ShouldBindJSON body) as [req|] eqn:Hbind; [|discriminate].
  pose proof (ShouldBindJSON_required body req Hbind) as Hurl.
  destruct (String.eqb (Slug req) "") eqn:Hslug.
  - destruct (generateSlug uuid) as [slug|]; [|discriminate]. simpl.
    intros [= <- <- <-]. exists req, slug. rewrite Hslug. done.
  - simpl. intros [= <- <- <-]. exists req, (Slug req). rewrite Hslug. done.
Qed.

Lemma slug_nonempty_length slug : String.length slug = 8 -> slug <> "".
Proof. by intros H ->. Qed.

(** X12.  When [createProject] answers 200 (with [uuid.New] giving the text
    of a UUID), it has started one task, and the build server in that task's
    container finds a PROJECT_ID that is not empty, so it starts whenever its
    AWS configuration loads, and it publishes on the channel [logs:<slug>] of
    the slug the client was answered. *)
Theorem answered_slug_names_the_build_channel
    (api : APIServer) (body uuid : string) (r : ProjectResponse)
    (tasks : list RunTaskInput) (lines : list string) (build : Build.BuildEnv) :
  is_uuid uuid = true ->
  createProject api body uuid None = Some (OK r, tasks, lines) ->
  exists t bs,
    tasks = [t] /\
    getenv "GIT_REPOSITORY__URL" (rt_Environment t) <> "" /\
    Build.NewBuildServer (container t None build) = inr bs /\
    Build.channel bs = "logs:" +:+ ProjectSlug (Data r) /\
    URL (Data r) = "http://" +:+ Build.projectID bs +:+ ".localhost:8000".
Proof.
  intros Huuid Hc.
  pose proof (createProject_ok_inv api body uuid r tasks lines Hc)
    as (req & slug & Hurl & Hslug & -> & ->).
  assert (Hne : slug <> "").
  { destruct (String.eqb_spec (Slug req) "") as [Heq|Hn]; [|by subst].
    destruct (generateSlug_slug_of_uuid uuid Huuid) as (Hgen & Hlen).
    rewrite Hgen in Hslug. injection Hslug as <-. by apply slug_nonempty_length. }
  eexists _, {| Build.projectID := slug |}. split; [reflexivity|]. simpl.
  split; [exact Hurl|]. unfold Build.NewBuildServer, container. simpl.
  apply String.eqb_neq in Hne. rewrite Hne. done.
Qed.

(** *** A well-formed request *)

Lemma printable_plain (l : list ascii) :
  forallb printable_char l = true -> forallb plain_char l = true.
Proof.
  induction l as [|c l IH]; [done|]. simpl. unfold printable_char at 1.
  intros H. apply andb_prop in H as [H1 H2]. apply andb_prop in H1 as [H1 _].
  by rewrite H1, IH.
Qed.

Lemma parse_members_last n (k v : list ascii) r4 :
  forallb plain_char k = true -> forallb plain_char v = true ->
  JSON.parse_members (S (S n))
    (dquote :: k ++ dquote :: ":"%char :: dquote :: v ++ dquote :: "}"%char :: r4)
  = Some ([(JSON.text_of k, JSON.Str (JSON.text_of v))], r4).
Proof.
  intros Hk Hv. cbn -[JSON.scan_string JSON.text_of].
  rewrite scan_string_plain by exact Hk. cbn -[JSON.scan_string JSON.text_of].
  rewrite scan_string_plain by exact Hv. reflexivity.
Qed.

Lemma parse_members_more n (k v : list ascii) r4 :
  forallb plain_char k = true -> forallb plain_char v = true ->
  JSON.parse_members (S (S n))
    (dquote :: k ++ dquote :: ":"%char :: dquote :: v ++ dquote :: ","%char :: r4)
  = '(ms, r5) ← JSON.parse_members (S n) r4;
    Some ((JSON.text_of k, JSON.Str (JSON.text_of v)) :: ms, r5).
Proof.
  intros Hk Hv. cbn -[JSON.scan_string JSON.text_of].
  rewrite scan_string_plain by exact Hk. cbn -[JSON.scan_string JSON.text_of].
  rewrite scan_string_plain by exact Hv. reflexivity.
Qed.

Lemma printable_ascii (l : list ascii) :
  forallb printable_char l = true ->
  forallb (fun c => (N_of_ascii c <? 128)%N) l = true.
Proof.
  induction l as [|c l IH]; [done|]. simpl. unfold printable_char at 1.
  intros [[_ Hc]%andb_prop Hl]%andb_prop. rewrite IH by exact Hl.
  apply N.ltb_lt in Hc. rewrite andb_true_r. apply N.ltb_lt. lia.
Qed.

Lemma text_of_printable (text : string) :
  printable text -> JSON.text_of (list_ascii_of_string text) = text.
Proof.
  intros H. unfold JSON.text_of. rewrite toValidUTF8_ascii by (by apply printable_ascii).
  apply string_of_list_ascii_of_string.
Qed.

Lemma ShouldBindJSON_request_body (gitURL slug : string) :
  printable gitURL -> printable slug -> gitURL <> "" ->
  ShouldBindJSON (request_body gitURL slug) = Some {| GitURL := gitURL; Slug := slug |}.
Proof.
  intros Hpu Hps Hne. pose proof (printable_plain _ Hpu) as Hu.
  pose proof (printable_plain _ Hps) as Hs. unfold ShouldBindJSON.
  assert (Hlen : exists n, S (String.length (request_body gitURL slug)) = 4 + n).
  { unfold request_body. rewrite !string_length_app. simpl. eexists. reflexivity. }
  destruct Hlen as [n ->]. unfold request_body.
  rewrite !list_ascii_of_string_app.
  change (list_ascii_of_string "{") with ["{"%char].
  change (list_ascii_of_string q) with [dquote].
  change (list_ascii_of_string ":") with [":"%char].
  change (list_ascii_of_string ",") with [","%char].
  change (list_ascii_of_string "}") with ["}"%char].
  set (u := list_ascii_of_string gitURL) in *.
  set (sl := list_ascii_of_string slug) in *.
  set (ku := list_ascii_of_string "gitURL").
  set (ks := list_ascii_of_string "slug").
  assert (Hmembers :
    JSON.parse_members (S (S (S n)))
      (dquote :: ku ++ dquote :: ":"%char :: dquote :: u ++ dquote :: ","%char ::
       dquote :: ks ++ dquote :: ":"%char :: dquote :: sl ++ dquote :: "}"%char :: [])
    = Some ([("gitURL", JSON.Str gitURL); ("slug", JSON.Str slug)], [])).
  { rewrite parse_members_more by done. rewrite parse_members_last by done.
    unfold u, sl. by rewrite !text_of_printable. }
  change (JSON.parse_value (4 + n) _) with
    ('(ms, r2) ← JSON.parse_members (S (S (S n)))
       (dquote :: ku ++ dquote :: ":"%char :: dquote :: u ++ dquote :: ","%char ::
        dquote :: ks ++ dquote :: ":"%char :: dquote :: sl ++ dquote :: "}"%char :: []);
     Some (JSON.Object ms, r2)).
  rewrite Hmembers. simpl.
  change (equalFold "gitURL" "gitURL") with true.
  change (equalFold "slug" "gitURL") with false.
  change (equalFold "slug" "slug") with true. simpl.
  apply String.eqb_neq in Hne. by rewrite Hne.
Qed.

(** X13.  A request [{"gitURL":"<url>","slug":"<slug>"}] of printable texts
    with a repository URL is always taken: [createProject] runs one task with
    exactly that URL, and names the project by the slug of the request, or,
    when that is empty, by the first eight characters of the UUID it draws.
    The answer is 200 with that name when the task starts and 500 when it
    does not; in both cases the task has been asked for. *)
Theorem createProject_accepts_wellformed_request
    (api : APIServer) (gitURL slug uuid : string) (runTask : option error) :
  printable gitURL -> printable slug -> gitURL <> "" ->
  is_uuid uuid = true ->
  let project := if String.eqb slug "" then String.substring 0 8 uuid else slug in
  exists answer lines,
    createProject api (request_body gitURL slug) uuid runTask =
      Some (answer,
            [{| rt_Cluster := Cluster (config api);
                rt_TaskDefinition := TaskDefinition (config api);
                rt_LaunchType := "FARGATE"; rt_Count := 1;
                rt_AssignPublicIp := "ENABLED";
                rt_Subnets := Subnets (config api);
                rt_SecurityGroups := SecurityGroups (config api);
                rt_ContainerName := "builder-image";
                rt_Environment := [("GIT_REPOSITORY__URL", gitURL);
                                   ("PROJECT_ID", project)] |}],
            lines) /\
    match runTask with
    | None =>
        answer = OK {| Status := "queued";
                       Data := {| ProjectSlug := project;
                                  URL := "http://" +:+ project +:+ ".localhost:8000" |} |}
        /\ lines = []
    | Some _ => answer = InternalServerError "Failed to start build"
    end.
Proof.
  intros Hu Hs Hne Huuid project. unfold createProject.
  rewrite (ShouldBindJSON_request_body gitURL slug Hu Hs Hne). simpl.
  destruct (generateSlug_slug_of_uuid uuid Huuid) as [Hgen _].
  assert (Hp : (if String.eqb slug "" then generateSlug uuid else Some slug) = Some project).
  { unfold project. by destruct (String.eqb slug ""). }
  rewrite Hp. simpl. destruct runTask; eexists _, _; split; done.
Qed.

Lemma answered_slug_names_the_build_channel_witness :
  exists t bs,
    (fst <$> createProject api_server body_repo uuid_text None)
      = Some (OK {| Status := "queued";
                    Data := {| ProjectSlug := "3f2a9c1e";
                               URL := "http://3f2a9c1e.localhost:8000" |} |}, [t]) /\
    Build.NewBuildServer (container t None site_build) = inr bs /\
    Build.channel bs = "logs:3f2a9c1e".
Proof.
  destruct (answered_slug_names_the_build_channel api_server body_repo uuid_text
              {| Status := "queued";
                 Data := {| ProjectSlug := "3f2a9c1e";
                            URL := "http://3f2a9c1e.localhost:8000" |} |}
              [{| rt_Cluster := "builder-cluster"; rt_TaskDefinition := "builder-task";
                  rt_LaunchType := "FARGATE"; rt_Count := 1; rt_AssignPublicIp := "ENABLED";
                  rt_Subnets := ["subnet-a"; "subnet-b"]; rt_SecurityGroups := [EmptyString];
                  rt_ContainerName := "builder-image";
                  rt_Environment := [("GIT_REPOSITORY__URL", "https://github.com/user/repo.git");
                                     ("PROJECT_ID", "3f2a9c1e")] |}]
              [] site_build)
    as (t & bs & Ht & _ & Hbs & Hch & _); [vm_compute; reflexivity .. |].
  exists t, bs. injection Ht as <-. split; [vm_compute; reflexivity|].
  split; [exact Hbs | exact Hch].
Defined.

Lemma createProject_accepts_wellformed_request_witness :
  exists answer lines,
    createProject api_server (request_body "https://github.com/user/repo.git" "my-site")
      uuid_text (Some "AccessDeniedException") =
      Some (answer,
            [{| rt_Cluster := "builder-cluster"; rt_TaskDefinition := "builder-task";
                rt_LaunchType := "FARGATE"; rt_Count := 1; rt_AssignPublicIp := "ENABLED";
                rt_Subnets := ["subnet-a"; "subnet-b"]; rt_SecurityGroups := [EmptyString];
                rt_ContainerName := "builder-image";
                rt_Environment := [("GIT_REPOSITORY__URL", "https://github.com/user/repo.git");
                                   ("PROJECT_ID", "my-site")] |}],
            lines) /\
    answer = InternalServerError "Failed to start build".
Proof.
  apply (createProject_accepts_wellformed_request api_server
           "https://github.com/user/repo.git" "my-site" uuid_text
           (Some "AccessDeniedException"));
    first [vm_compute; reflexivity | discriminate].
Defined.

End HttpFacts.

(** * More about the WebSocket side *)

Section ApiMore.

Import Api.

Variable matches : string -> string -> bool.

#[local] Abbreviation step := (Api.step matches).
#[local] Abbreviation run := (Api.run matches).
#[local] Abbreviation matching := (Api.matching matches).

Lemma wrap_inj p p' : wrap p = wrap p' -> p = p'.
Proof.
  intros H. apply (f_equal (fun m => m !! "message")) in H.
  unfold wrap in H. rewrite !lookup_singleton_eq in H. by injection H.
Qed.

Lemma insert_keeps_frames i (l : list Conn) c0 conn0 conn0' :
  l !! c0 = Some conn0 ->
  frames_of i (c_sent conn0') = frames_of i (c_sent conn0) ->
  frames_of i (c_failed conn0') = frames_of i (c_failed conn0) ->
  forall c conn, l !! c = Some conn ->
    exists conn', <[c0 := conn0']> l !! c = Some conn' /\
      frames_of i (c_sent conn') = frames_of i (c_sent conn) /\
      frames_of i (c_failed conn') = frames_of i (c_failed conn).
Proof.
  intros H0 Hs Hf c conn Hc. destruct (decide (c = c0)) as [->|Hne].
  - exists conn0'. rewrite list_lookup_insert_eq by (by eapply lookup_lt_Some).
    rewrite H0 in Hc. injection Hc as <-. done.
  - exists conn. rewrite list_lookup_insert_ne by done. done.
Qed.

Lemma same_keeps_frames i (l : list Conn) :
  forall c conn, l !! c = Some conn ->
    exists conn', l !! c = Some conn' /\
      frames_of i (c_sent conn') = frames_of i (c_sent conn) /\
      frames_of i (c_failed conn') = frames_of i (c_failed conn).
Proof. intros c conn Hc. by exists conn. Qed.

(** A forwarder that has returned is not touched by any step, and no step
    writes a frame in its name. *)
Lemma returned_step (s s' : State) (l : Label) i fw :
  step s l = Some s' ->
  fwds s !! i = Some fw -> f_pc fw = FReturned ->
  fwds s' !! i = Some fw /\
  forall c conn, conns s !! c = Some conn ->
    exists conn', conns s' !! c = Some conn' /\
      frames_of i (c_sent conn') = frames_of i (c_sent conn) /\
      frames_of i (c_failed conn') = frames_of i (c_failed conn).
Proof.
  intros Hstep Hi Hpc.
  destruct l as [ok|c r|c ok|j|channel payload|j|j ok|j]; simpl in Hstep.
  - destruct ok; injection Hstep as <-; simpl; (split; [exact Hi|]).
    + intros c conn Hc. exists conn. split; [by apply lookup_app_l_Some | done].
    + apply same_keeps_frames.
  - destruct (conns s !! c) as [conn0|] eqn:Hc0; [|discriminate]. simpl in Hstep.
    destruct (c_pc conn0); try discriminate.
    destruct r as [e|msg].
    + injection Hstep as <-. simpl. split; [exact Hi|].
      by apply (insert_keeps_frames i _ c conn0).
    + destruct (subscribe_request msg) as [channel|].
      * injection Hstep as <-. simpl. split; [by apply lookup_app_l_Some|].
        by apply (insert_keeps_frames i _ c conn0).
      * injection Hstep as <-. split; [exact Hi | apply same_keeps_frames].
  - destruct (conns s !! c) as [conn0|] eqn:Hc0; [|discriminate]. simpl in Hstep.
    destruct (c_pc conn0); try discriminate.
    injection Hstep as <-. simpl. split; [exact Hi|].
    apply (insert_keeps_frames i _ c conn0); [exact Hc0 | |];
      destruct (ok && c_open conn0); simpl; try reflexivity;
      by apply frames_of_snoc_other.
  - destruct (decide (j = i)) as [->|Hne].
    { rewrite Hi in Hstep. simpl in Hstep. rewrite Hpc in Hstep. discriminate. }
    destruct (fwds s !! j) as [fwj|]; [|discriminate]. simpl in Hstep.
    destruct (f_pc fwj); try discriminate. injection Hstep as <-. simpl.
    split; [by rewrite list_lookup_insert_ne | apply same_keeps_frames].
  - injection Hstep as <-. simpl. split; [|apply same_keeps_frames].
    rewrite list_lookup_fmap, Hi. simpl. unfold deliver, subscribed.
    by rewrite Hpc.
  - destruct (decide (j = i)) as [->|Hne].
    { rewrite Hi in Hstep. simpl in Hstep. rewrite Hpc in Hstep. discriminate. }
    destruct (fwds s !! j) as [fwj|]; [|discriminate]. simpl in Hstep.
    destruct (f_pc fwj); try discriminate.
    destruct (f_queue fwj) as [|p rest]; [discriminate|].
    destruct (unmarshalLogMessage p); injection Hstep as <-; simpl;
      (split; [by rewrite list_lookup_insert_ne | apply same_keeps_frames]).
  - destruct (decide (j = i)) as [->|Hne].
    { rewrite Hi in Hstep. simpl in Hstep. rewrite Hpc in Hstep. discriminate. }
    destruct (fwds s !! j) as [fwj|]; [|discriminate]. simpl in Hstep.
    destruct (f_pc fwj) as [| |p|]; try discriminate.
    destruct (conns s !! f_conn fwj) as [conn0|] eqn:Hc0; [|discriminate].
    simpl in Hstep.
    assert (Hother : Forwarder j <> Forwarder i) by congruence.
    destruct (ok && c_open conn0); injection Hstep as <-; simpl;
      (split; [by rewrite list_lookup_insert_ne|]);
      apply (insert_keeps_frames i _ (f_conn fwj) conn0); simpl;
      try done; by apply frames_of_snoc_other.
  - destruct (decide (j = i)) as [->|Hne].
    { rewrite Hi in Hstep. simpl in Hstep. rewrite Hpc in Hstep. discriminate. }
    destruct (fwds s !! j) as [fwj|]; [|discriminate]. simpl in Hstep.
    destruct (f_pc fwj); try discriminate. injection Hstep as <-. simpl.
    split; [by rewrite list_lookup_insert_ne | apply same_keeps_frames].
Qed.

Lemma returned_run (ls : list Label) : forall (s s' : State) i fw,
  run s ls = Some s' ->
  fwds s !! i = Some fw -> f_pc fw = FReturned ->
  fwds s' !! i = Some fw /\
  forall c conn, conns s !! c = Some conn ->
    exists conn', conns s' !! c = Some conn' /\
      frames_of i (c_sent conn') = frames_of i (c_sent conn) /\
      frames_of i (c_failed conn') = frames_of i (c_failed conn).
Proof.
  induction ls as [|l ls IH]; intros s s' i fw Hrun Hi Hpc; simpl in Hrun.
  - injection Hrun as <-. split; [exact Hi | apply same_keeps_frames].
  - destruct (Api.step matches s l) as [s1|] eqn:Hstep; [|discriminate]. simpl in Hrun.
    destruct (returned_step s s1 l i fw Hstep Hi Hpc) as [Hi1 Hc1].
    destruct (IH s1 s' i fw Hrun Hi1 Hpc) as [Hi2 Hc2].
    split; [exact Hi2|]. intros c conn Hc.
    destruct (Hc1 c conn Hc) as (conn1 & Hl1 & Hs1 & Hf1).
    destruct (Hc2 c conn1 Hl1) as (conn2 & Hl2 & Hs2 & Hf2).
    exists conn2. split; [exact Hl2|]. split; congruence.
Qed.

(** X14.  A forwarder that has returned (its write failed, or its
    subscription ended) is gone for good: whatever happens next, messages
    published on its channel are not queued for it, it stays returned, and
    no frame is written or tried in its name on any connection. *)
Theorem returned_forwarder_never_writes_again
    (ls : list Label) (s s' : State) (i : nat) (fw : Fwd) :
  run s ls = Some s' ->
  fwds s !! i = Some fw ->
  f_pc fw = FReturned ->
  fwds s' !! i = Some fw /\
  forall c conn, conns s !! c = Some conn ->
    exists conn', conns s' !! c = Some conn' /\
      forwarded conn' i = forwarded conn i /\
      failed_by conn' i = failed_by conn i.
Proof. apply returned_run. Qed.

(** *** One forwarder for every subscribe request *)

Lemma forwarders_insert c (l : list Fwd) : forall i fw fw',
  l !! i = Some fw -> f_conn fw' = f_conn fw ->
  length (filter (fun fw => f_conn fw = c) (<[i := fw']> l))
  = length (filter (fun fw => f_conn fw = c) l).
Proof.
  induction l as [|x l IH]; intros i fw fw' Hi Hc; [done|].
  destruct i as [|i]; simpl in *.
  - injection Hi as ->. rewrite !filter_cons, Hc.
    by destruct (decide (f_conn fw = c)).
  - rewrite !filter_cons. specialize (IH i fw fw' Hi Hc).
    destruct (decide (f_conn x = c)); simpl; by rewrite IH.
Qed.

Lemma deliver_conn channel payload fw : f_conn (deliver matches channel payload fw) = f_conn fw.
Proof. unfold deliver. by destruct (subscribed fw && matches (f_channel fw) channel). Qed.

Lemma forwarders_deliver c channel payload (l : list Fwd) :
  length (filter (fun fw => f_conn fw = c) (deliver matches channel payload <$> l))
  = length (filter (fun fw => f_conn fw = c) l).
Proof.
  induction l as [|x l IH]; [done|]. rewrite fmap_cons, !filter_cons, deliver_conn.
  destruct (decide (f_conn x = c)); simpl; by rewrite IH.
Qed.

Lemma acks_sent_handler conn c frame :
  length (filter (fun x => is_ack x = true)
            ((c_sent conn ++ [(Handler c, frame)]) ++ c_failed conn)) = S (acks conn).
Proof.
  unfold acks. rewrite !filter_app, !length_app, filter_cons. simpl. lia.
Qed.

Lemma acks_failed_handler conn c frame :
  length (filter (fun x => is_ack x = true)
            (c_sent conn ++ c_failed conn ++ [(Handler c, frame)])) = S (acks conn).
Proof.
  unfold acks. rewrite !filter_app, !length_app, filter_cons. simpl. lia.
Qed.

Lemma acks_sent_forwarder conn i frame :
  length (filter (fun x => is_ack x = true)
            ((c_sent conn ++ [(Forwarder i, frame)]) ++ c_failed conn)) = acks conn.
Proof.
  unfold acks. rewrite !filter_app, !length_app, filter_cons. simpl. lia.
Qed.

Lemma acks_failed_forwarder conn i frame :
  length (filter (fun x => is_ack x = true)
            (c_sent conn ++ c_failed conn ++ [(Forwarder i, frame)])) = acks conn.
Proof.
  unfold acks. rewrite !filter_app, !length_app, filter_cons. simpl. lia.
Qed.

Lemma started_insert (l : list Conn) c conn conn' :
  l !! c = Some conn -> started_for conn' = started_for conn ->
  forall c0, from_option started_for 0 (<[c := conn']> l !! c0)
             = from_option started_for 0 (l !! c0).
Proof.
  intros Hc Hs c0. destruct (decide (c0 = c)) as [->|Hne].
  - rewrite list_lookup_insert_eq by (by eapply lookup_lt_Some). by rewrite Hc.
  - by rewrite list_lookup_insert_ne.
Qed.

Lemma per_request_update (s s' : State) :
  forwarder_per_request s ->
  (forall c, length (forwarders_of s' c) = length (forwarders_of s c)) ->
  (forall c, from_option started_for 0 (conns s' !! c)
             = from_option started_for 0 (conns s !! c)) ->
  forwarder_per_request s'.
Proof. intros H Hf Hc c. by rewrite Hf, Hc. Qed.

Lemma per_request_step (s s' : State) (l : Label) :
  forwarder_per_request s -> step s l = Some s' -> forwarder_per_request s'.
Proof.
  intros H Hstep.
  destruct l as [ok|c r|c ok|j|channel payload|j|j ok|j]; simpl in Hstep.
  - destruct ok; injection Hstep as <-; [|exact H].
    intros c. specialize (H c). unfold forwarders_of in *. simpl.
    destruct (conns s !! c) as [conn|] eqn:Hc.
    + by rewrite (lookup_app_l_Some _ _ _ _ Hc).
    + apply lookup_ge_None in Hc. rewrite lookup_app_r by exact Hc.
      rewrite H. by destruct (c - length (conns s)).
  - destruct (conns s !! c) as [conn0|] eqn:Hc0; [|discriminate]. simpl in Hstep.
    destruct (c_pc conn0) eqn:Hpc; try discriminate.
    destruct r as [e|msg].
    + injection Hstep as <-. apply (per_request_update s); [exact H|done|].
      simpl. apply (started_insert _ c conn0); [exact Hc0|].
      unfold started_for, acks. simpl. by rewrite Hpc.
    + destruct (subscribe_request msg) as [channel|]; injection Hstep as <-; [|exact H].
      intros c0. specialize (H c0). unfold forwarders_of in *. simpl.
      rewrite filter_app, length_app, H, filter_cons. simpl.
      destruct (decide (c0 = c)) as [->|Hne].
      * rewrite list_lookup_insert_eq by (by eapply lookup_lt_Some).
        rewrite Hc0. simpl. rewrite decide_True by done.
        unfold started_for, acks. simpl. rewrite Hpc. simpl. lia.
      * rewrite list_lookup_insert_ne by done.
        rewrite decide_False by done. simpl. lia.
  - destruct (conns s !! c) as [conn0|] eqn:Hc0; [|discriminate]. simpl in Hstep.
    destruct (c_pc conn0) eqn:Hpc; try discriminate.
    injection Hstep as <-. apply (per_request_update s); [exact H|done|].
    simpl. apply (started_insert _ c conn0); [exact Hc0|].
    unfold started_for at 2. rewrite Hpc.
    destruct (ok && c_open conn0); unfold started_for, acks at 1; simpl.
    + rewrite acks_sent_handler. lia.
    + rewrite acks_failed_handler. lia.
  - destruct (fwds s !! j) as [fwj|] eqn:Hj; [|discriminate]. simpl in Hstep.
    destruct (f_pc fwj); try discriminate. injection Hstep as <-.
    apply (per_request_update s); [exact H| |done].
    intros c. by apply (forwarders_insert c _ j fwj).
  - injection Hstep as <-. apply (per_request_update s); [exact H| |done].
    intros c. apply forwarders_deliver.
  - destruct (fwds s !! j) as [fwj|] eqn:Hj; [|discriminate]. simpl in Hstep.
    destruct (f_pc fwj); try discriminate.
    destruct (f_queue fwj) as [|p rest]; [discriminate|].
    destruct (unmarshalLogMessage p); injection Hstep as <-;
      (apply (per_request_update s); [exact H| |done]);
      intros c; by apply (forwarders_insert c _ j fwj).
  - destruct (fwds s !! j) as [fwj|] eqn:Hj; [|discriminate]. simpl in Hstep.
    destruct (f_pc fwj) as [| |p|]; try discriminate.
    destruct (conns s !! f_conn fwj) as [conn0|] eqn:Hc0; [|discriminate].
    simpl in Hstep.
    destruct (ok && c_open conn0); injection Hstep as <-;
      (apply (per_request_update s); [exact H| |]);
      try (intros c; by apply (forwarders_insert c _ j fwj));
      simpl; apply (started_insert _ (f_conn fwj) conn0); try exact Hc0;
      unfold started_for, acks at 1; simpl.
    + by rewrite acks_sent_forwarder.
    + by rewrite acks_failed_forwarder.
  - destruct (fwds s !! j) as [fwj|] eqn:Hj; [|discriminate]. simpl in Hstep.
    destruct (f_pc fwj); try discriminate. injection Hstep as <-.
    apply (per_request_update s); [exact H| |done].
    intros c. by apply (forwarders_insert c _ j fwj).
Qed.

Lemma per_request_run (ls : list Label) : forall s s',
  forwarder_per_request s -> run s ls = Some s' -> forwarder_per_request s'.
Proof.
  induction ls as [|l ls IH]; intros s s' H Hrun; simpl in Hrun.
  - by injection Hrun as <-.
  - destruct (Api.step matches s l) as [s1|] eqn:Hstep; [|discriminate]. simpl in Hrun.
    eapply IH; [|exact Hrun]. by eapply per_request_step.
Qed.

(** X15.  In every state the server reaches, the forwarders started for a
    connection are as many as the subscribe requests its handler has taken:
    one for each confirmation written or tried, and one for the confirmation
    being written.  No forwarder is started without a request or twice for
    one, and none is ever taken away, whether it still runs or has returned. *)
Theorem one_forwarder_per_subscribe_request
    (ls : list Label) (s : State) (c : nat) (conn : Conn) :
  run init ls = Some s ->
  conns s !! c = Some conn ->
  length (forwarders_of s c) = acks conn + handler_writing s c.
Proof.
  intros Hrun Hc.
  assert (H : forwarder_per_request s).
  { apply (per_request_run ls init); [|exact Hrun]. intros c0. reflexivity. }
  rewrite (H c), Hc. unfold handler_writing. rewrite Hc. simpl.
  unfold started_for. by destruct conn as [o [] st fl].
Qed.

(** *** What a viewer can receive *)

(** X16.  A viewer is sent nothing but the confirmations of its own
    requests and payloads it subscribed to: every other frame written to a
    connection comes from a forwarder of that connection and carries a
    payload that unmarshals and was published, after that forwarder
    subscribed, on a channel its pattern matches.  Nothing published before
    the subscription, and nothing of a channel the viewer did not ask for,
    is ever written to it. *)
Theorem viewer_receives_only_what_it_subscribed_to
    (ls : list Label) (s : State) (c : nat) (conn : Conn)
    (t : Task) (frame : gmap string string) :
  run init ls = Some s ->
  conns s !! c = Some conn ->
  (t, frame) ∈ c_sent conn ->
  (t = Handler c /\ exists channel, frame = ack channel) \/
  (exists i fw channel payload,
     t = Forwarder i /\ fwds s !! i = Some fw /\ f_conn fw = c /\
     frame = wrap payload /\ decodable payload /\
     matches (f_channel fw) channel = true /\
     (channel, payload) ∈ drop (f_since fw) (published s)).
Proof.
  intros Hrun Hc Hin.
  destruct (reachable_inv matches ls s Hrun) as [Hf Hcs].
  destruct (Hcs c conn Hc) as [Hw _].
  destruct (Hw t frame) as [Hack|(i & fw & p & -> & Hi & Hfc & -> & Hdec)];
    [apply elem_of_app; by left | by left |]. right.
  pose proof (Hf i fw Hi) as Hok. rewrite <- Hfc in Hc.
  assert (Hfr : wrap p ∈ wrap <$> filter decodable (f_recv fw)).
  { rewrite (ok_frames _ _ _ _ Hok conn Hc). apply elem_of_app. left.
    unfold forwarded. apply list_elem_of_fmap. exists (Forwarder i, wrap p).
    split; [done|]. by apply list_elem_of_filter. }
  apply list_elem_of_fmap in Hfr as (p' & Heq & Hp'). apply wrap_inj in Heq as <-.
  apply list_elem_of_filter in Hp' as [_ Hrecv].
  destruct (received_prefix matches s i fw Hok) as [k Hk].
  assert (Hm : p ∈ Api.matching matches s fw).
  { rewrite Hk. apply elem_of_app. by left. }
  unfold Api.matching in Hm. apply list_elem_of_fmap in Hm as ([ch p0] & -> & Hm).
  apply list_elem_of_filter in Hm as [Hmatch Hpub]. simpl in *.
  exists i, fw, ch, p0. done.
Qed.

(** *** Overlapping subscriptions *)

Lemma deliver_waiting channel payload fw :
  f_pc fw = FWaiting -> matches (f_channel fw) channel = true ->
  deliver matches channel payload fw =
  {| f_conn := f_conn fw; f_channel := f_channel fw; f_pc := FWaiting;
     f_queue := f_queue fw ++ [payload]; f_since := f_since fw; f_recv := f_recv fw |}.
Proof. intros Hpc Hm. unfold deliver, subscribed. by rewrite Hpc, Hm. Qed.

(** Publish, receive, write: one payload through one forwarder whose queue
    is empty. *)
Lemma relay_one (s : State) i fw conn channel payload :
  fwds s !! i = Some fw ->
  conns s !! f_conn fw = Some conn ->
  c_open conn = true ->
  f_pc fw = FWaiting -> f_queue fw = [] ->
  matches (f_channel fw) channel = true ->
  decodable payload ->
  run s [Publish channel payload; Receive i; WriteDone i true] =
  Some {| conns := <[f_conn fw := {| c_open := true; c_pc := c_pc conn;
                                     c_sent := c_sent conn ++ [(Forwarder i, wrap payload)];
                                     c_failed := c_failed conn |}]> (conns s);
          fwds := <[i := {| f_conn := f_conn fw; f_channel := f_channel fw;
                            f_pc := FWaiting; f_queue := [];
                            f_since := f_since fw; f_recv := f_recv fw ++ [payload] |}]>
                    (deliver matches channel payload <$> fwds s);
          published := published s ++ [(channel, payload)]; log := log s |}.
Proof.
  intros Hi Hc Hopen Hpc Hq Hm Hdec.
  change (run s (Publish channel payload :: [Receive i; WriteDone i true]))
    with (run {| conns := conns s; fwds := deliver matches channel payload <$> fwds s;
                 published := published s ++ [(channel, payload)]; log := log s |}
              [Receive i; WriteDone i true]).
  rewrite (forwarder_writes_decodable matches _ i
             (deliver matches channel payload fw) conn payload []).
  - by rewrite deliver_waiting.
  - simpl. by rewrite list_lookup_fmap, Hi.
  - by rewrite deliver_conn.
  - by rewrite deliver_waiting.
  - rewrite deliver_waiting, Hq by done. done.
  - exact Hopen.
  - exact Hdec.
Qed.

Lemma receive_decodable (s : State) i fw p rest :
  fwds s !! i = Some fw ->
  f_pc fw = FWaiting -> f_queue fw = p :: rest -> decodable p ->
  step s (Receive i) =
  Some (set_fwd s i {| f_conn := f_conn fw; f_channel := f_channel fw;
                       f_pc := FWriting p; f_queue := rest;
                       f_since := f_since fw; f_recv := f_recv fw ++ [p] |}).
Proof. intros Hi Hpc Hq [m Hm]. simpl. rewrite Hi. simpl. by rewrite Hpc, Hq, Hm. Qed.

Lemma overlapping_written_twice
    (s : State) (c : nat) (conn : Conn) (i j : nat) (fwi fwj : Fwd)
    (channel payload : string) :
  i <> j ->
  fwds s !! i = Some fwi -> fwds s !! j = Some fwj ->
  f_conn fwi = c -> f_conn fwj = c ->
  conns s !! c = Some conn -> c_open conn = true ->
  f_pc fwi = FWaiting -> f_pc fwj = FWaiting ->
  f_queue fwi = [] -> f_queue fwj = [] ->
  matches (f_channel fwi) channel = true ->
  matches (f_channel fwj) channel = true ->
  decodable payload ->
  exists s' conn',
    run s [Publish channel payload; Receive i; WriteDone i true;
           Receive j; WriteDone j true] = Some s' /\
    published s' = published s ++ [(channel, payload)] /\
    conns s' !! c = Some conn' /\
    c_sent conn' = c_sent conn ++ [(Forwarder i, wrap payload); (Forwarder j, wrap payload)].
Proof.
  intros Hne Hi Hj Hci Hcj Hc Hopen Hpi Hpj Hqi Hqj Hmi Hmj Hdec.
  assert (Hlt : c < length (conns s)) by (by eapply lookup_lt_Some).
  change [Publish channel payload; Receive i; WriteDone i true; Receive j; WriteDone j true]
    with ([Publish channel payload; Receive i; WriteDone i true]
            ++ [Receive j; WriteDone j true]).
  rewrite (run_app matches). rewrite <- Hci in Hc.
  rewrite (relay_one s i fwi conn channel payload) by done. simpl option_bind.
  cbn [mbind option_bind]. rewrite Hci in *.
  erewrite (forwarder_writes_decodable matches _ j
              (deliver matches channel payload fwj)
              {| c_open := true; c_pc := c_pc conn;
                 c_sent := c_sent conn ++ [(Forwarder i, wrap payload)];
                 c_failed := c_failed conn |} payload []).
  - eexists _, _. split; [reflexivity|]. simpl. split; [reflexivity|].
    rewrite deliver_conn, Hcj, list_insert_insert_eq.
    rewrite list_lookup_insert_eq by exact Hlt. split; [reflexivity|].
    simpl. by rewrite <- app_assoc.
  - simpl. rewrite list_lookup_insert_ne by done. by rewrite list_lookup_fmap, Hj.
  - simpl. rewrite deliver_conn, Hcj. by rewrite list_lookup_insert_eq by exact Hlt.
  - by rewrite deliver_waiting.
  - rewrite deliver_waiting, Hqj by done. done.
  - done.
  - exact Hdec.
Qed.

Lemma overlapping_writes_panic
    (s : State) (c : nat) (i j : nat) (fwi fwj : Fwd) (channel payload : string) :
  i <> j ->
  fwds s !! i = Some fwi -> fwds s !! j = Some fwj ->
  f_conn fwi = c -> f_conn fwj = c ->
  f_pc fwi = FWaiting -> f_pc fwj = FWaiting ->
  f_queue fwi = [] -> f_queue fwj = [] ->
  matches (f_channel fwi) channel = true ->
  matches (f_channel fwj) channel = true ->
  decodable payload ->
  serve matches s ((Does <$> [Publish channel payload; Receive i; Receive j])
                   ++ [FindsWriter c]) = Some (Panicked c).
Proof.
  intros Hne Hi Hj Hci Hcj Hpi Hpj Hqi Hqj Hmi Hmj Hdec.
  assert (Hli : i < length (fwds s)) by (by eapply lookup_lt_Some).
  assert (Hlj : j < length (fwds s)) by (by eapply lookup_lt_Some).
  set (s1 := {| conns := conns s; fwds := deliver matches channel payload <$> fwds s;
                published := published s ++ [(channel, payload)]; log := log s |}).
  set (wi := {| f_conn := f_conn fwi; f_channel := f_channel fwi;
                f_pc := FWriting payload; f_queue := [];
                f_since := f_since fwi; f_recv := f_recv fwi ++ [payload] |}).
  set (wj := {| f_conn := f_conn fwj; f_channel := f_channel fwj;
                f_pc := FWriting payload; f_queue := [];
                f_since := f_since fwj; f_recv := f_recv fwj ++ [payload] |}).
  set (qi := {| f_conn := f_conn fwi; f_channel := f_channel fwi; f_pc := FWaiting;
                f_queue := [payload]; f_since := f_since fwi; f_recv := f_recv fwi |}).
  set (qj := {| f_conn := f_conn fwj; f_channel := f_channel fwj; f_pc := FWaiting;
                f_queue := [payload]; f_since := f_since fwj; f_recv := f_recv fwj |}).
  assert (Hi1 : fwds s1 !! i = Some qi).
  { simpl. rewrite list_lookup_fmap, Hi. simpl. rewrite deliver_waiting by done.
    by rewrite Hqi. }
  assert (Hj1 : fwds s1 !! j = Some qj).
  { simpl. rewrite list_lookup_fmap, Hj. simpl. rewrite deliver_waiting by done.
    by rewrite Hqj. }
  assert (H2 : step s1 (Receive i) = Some (set_fwd s1 i wi)).
  { by apply (receive_decodable s1 i qi payload []). }
  assert (H3 : step (set_fwd s1 i wi) (Receive j) = Some (set_fwd (set_fwd s1 i wi) j wj)).
  { apply (receive_decodable (set_fwd s1 i wi) j qj payload []); try done.
    simpl. by rewrite list_lookup_insert_ne. }
  assert (Hrun : run s [Publish channel payload; Receive i; Receive j]
                 = Some (set_fwd (set_fwd s1 i wi) j wj)).
  { cbn [Api.run]. change (step s (Publish channel payload)) with (Some s1).
    cbn [mbind option_bind]. rewrite H2. cbn [mbind option_bind]. by rewrite H3. }
  rewrite serve_does, Hrun. cbn [mbind option_bind serve].
  assert (Hw : 2 <= writers (set_fwd (set_fwd s1 i wi) j wj) c).
  { apply (writers_two_forwarders _ c i j wi wj Hne).
    - simpl. rewrite list_lookup_insert_ne by done.
      apply list_lookup_insert_eq. by rewrite length_fmap.
    - simpl. apply list_lookup_insert_eq. by rewrite length_insert, length_fmap.
    - unfold forwarder_writing. simpl. by rewrite bool_decide_eq_true.
    - unfold forwarder_writing. simpl. by rewrite bool_decide_eq_true. }
  by rewrite (proj2 (Nat.leb_le 2 _) Hw).
Qed.

(** X17.  Subscriptions are not merged, and the writes they lead to are not
    ordered.  When two forwarders of one connection both hold a subscription
    whose pattern matches a channel (the viewer subscribed twice to it, or to
    it and to a pattern that covers it), a payload published once on that
    channel is handed to both.  If the second forwarder writes after the write
    of the first has returned, the viewer is sent the payload twice, once by
    each.  If it receives the payload while the first is still inside
    [WriteJSON], the two writes are under way together and the server can end
    in the panic of a concurrent write. *)
Theorem overlapping_subscriptions_write_twice_or_panic
    (s : State) (c : nat) (conn : Conn) (i j : nat) (fwi fwj : Fwd)
    (channel payload : string) :
  i <> j ->
  fwds s !! i = Some fwi -> fwds s !! j = Some fwj ->
  f_conn fwi = c -> f_conn fwj = c ->
  conns s !! c = Some conn -> c_open conn = true ->
  f_pc fwi = FWaiting -> f_pc fwj = FWaiting ->
  f_queue fwi = [] -> f_queue fwj = [] ->
  matches (f_channel fwi) channel = true ->
  matches (f_channel fwj) channel = true ->
  decodable payload ->
  (exists s' conn',
     run s [Publish channel payload; Receive i; WriteDone i true;
            Receive j; WriteDone j true] = Some s' /\
     published s' = published s ++ [(channel, payload)] /\
     conns s' !! c = Some conn' /\
     c_sent conn' =
       c_sent conn ++ [(Forwarder i, wrap payload); (Forwarder j, wrap payload)]) /\
  serve matches s ((Does <$> [Publish channel payload; Receive i; Receive j])
                   ++ [FindsWriter c]) = Some (Panicked c).
Proof.
  intros Hne Hi Hj Hci Hcj Hc Hopen Hpi Hpj Hqi Hqj Hmi Hmj Hdec. split.
  - by apply (overlapping_written_twice s c conn i j fwi fwj).
  - by apply (overlapping_writes_panic s c i j fwi fwj).
Qed.

(** *** From the build server to the viewer *)

(** X18.  The two programs fit together for a plain message.  What
    [publishLog] hands to an accepting broker is one message on
    [logs:<projectID>], and a forwarder that waits with a pattern matching
    that channel takes it, finds that it unmarshals, and writes it to its
    viewer: the frame carries under [message] the text [{"log":"..."}] itself,
    not the message inside it. *)
Theorem published_log_line_reaches_subscribed_viewer
    (bs : Build.BuildServer) (message : string) (w : Build.World)
    (s : State) (i : nat) (fw : Fwd) (conn : Conn) :
  plain message ->
  Build.w_replies w (Build.w_npub w) = None ->
  fwds s !! i = Some fw ->
  conns s !! f_conn fw = Some conn ->
  c_open conn = true ->
  f_pc fw = FWaiting -> f_queue fw = [] ->
  matches (f_channel fw) ("logs:" +:+ Build.projectID bs) = true ->
  exists channel payload s' conn',
    Build.w_broker (snd (Build.publishLog bs message w))
      = Build.w_broker w ++ [(channel, payload)] /\
    run s [Publish channel payload; Receive i; WriteDone i true] = Some s' /\
    conns s' !! f_conn fw = Some conn' /\
    c_sent conn' = c_sent conn ++
      [(Forwarder i,
        {[ "message" := "{" +:+ q +:+ "log" +:+ q +:+ ":" +:+ q +:+ message +:+ q +:+ "}" ]})].
Proof.
  intros Hplain Hok Hi Hc Hopen Hpc Hq Hm.
  exists (Build.channel bs), (Build.logMessage message).
  eexists _, _. split; [|split; [|split]].
  - rewrite publishLog_unfold. simpl. by rewrite Hok.
  - apply (relay_one s i fw conn); try done.
    eexists. by apply logMessage_plain_unmarshal.
  - simpl. apply list_lookup_insert_eq. by eapply lookup_lt_Some.
  - reflexivity.
Qed.

End ApiMore.

(** * Runs of the WebSocket side, continued *)

Section MoreRuns.

Import Api.

#[local] Ltac premise :=
  first [ vm_compute; reflexivity
        | discriminate
        | eexists; vm_compute; reflexivity ].

Lemma returned_forwarder_never_writes_again_witness :
  (f_pc <$> fwds (after (forwarder_gone ++ [Publish "logs:A" (Build.logMessage "more")])) !! 0)
  = Some FReturned /\
  (f_queue <$> fwds (after (forwarder_gone ++ [Publish "logs:A" (Build.logMessage "more")])) !! 0)
  = Some [].
Proof.
  destruct (returned_forwarder_never_writes_again glob_match
              [Publish "logs:A" (Build.logMessage "more")]
              (after forwarder_gone)
              (after (forwarder_gone ++ [Publish "logs:A" (Build.logMessage "more")])) 0
              {| f_conn := 0; f_channel := "logs:A"; f_pc := FReturned; f_queue := [];
                 f_since := 0; f_recv := [Build.logMessage "hi"] |})
    as [H _]; [vm_compute; reflexivity .. |].
  rewrite H. split; reflexivity.
Defined.

Lemma one_forwarder_per_subscribe_request_witness :
  length (forwarders_of (after three_writers) 0) = 2 + 1.
Proof.
  etrans;
    [ apply (one_forwarder_per_subscribe_request glob_match three_writers
               (after three_writers) 0
               {| c_open := true; c_pc := HAcking "logs:B";
                  c_sent := [(Handler 0, ack "logs:A"); (Handler 0, ack "logs:*")];
                  c_failed := [] |}); vm_compute; reflexivity
    | vm_compute; reflexivity ].
Defined.

Lemma viewer_receives_only_what_it_subscribed_to_witness :
  exists i fw channel payload,
    Forwarder 0 = Forwarder i /\
    fwds (after (two_published ++ [Receive 0; Receive 0; WriteDone 0 true])) !! i = Some fw /\
    f_conn fw = 0 /\
    wrap (Build.logMessage "hi") = wrap payload /\ decodable payload /\
    glob_match (f_channel fw) channel = true /\
    (channel, payload) ∈
      drop (f_since fw)
        (published (after (two_published ++ [Receive 0; Receive 0; WriteDone 0 true]))).
Proof.
  destruct (viewer_receives_only_what_it_subscribed_to glob_match
              (two_published ++ [Receive 0; Receive 0; WriteDone 0 true])
              (after (two_published ++ [Receive 0; Receive 0; WriteDone 0 true])) 0
              {| c_open := true; c_pc := HReading;
                 c_sent := [(Handler 0, ack "logs:A");
                            (Forwarder 0, wrap (Build.logMessage "hi"))];
                 c_failed := [] |}
              (Forwarder 0) (wrap (Build.logMessage "hi")))
    as [[Hh _]|H];
    [vm_compute; reflexivity | vm_compute; reflexivity
    | apply list_elem_of_further, list_elem_of_here
    | discriminate Hh
    | exact H].
Defined.

Lemma overlapping_subscriptions_write_twice_or_panic_witness :
  (exists s' conn',
     Api.run glob_match (after joined_twice)
       [Publish "logs:A" (Build.logMessage "hi"); Receive 0; WriteDone 0 true;
        Receive 1; WriteDone 1 true] = Some s' /\
     published s' = published (after joined_twice) ++ [("logs:A", Build.logMessage "hi")] /\
     conns s' !! 0 = Some conn' /\
     c_sent conn' = [(Handler 0, ack "logs:A"); (Handler 0, ack "logs:*")] ++
                    [(Forwarder 0, wrap (Build.logMessage "hi"));
                     (Forwarder 1, wrap (Build.logMessage "hi"))]) /\
  Api.serve glob_match (after joined_twice)
    ((Does <$> [Publish "logs:A" (Build.logMessage "hi"); Receive 0; Receive 1])
     ++ [FindsWriter 0]) = Some (Panicked 0).
Proof.
  apply (overlapping_subscriptions_write_twice_or_panic glob_match (after joined_twice) 0
           {| c_open := true; c_pc := HReading;
              c_sent := [(Handler 0, ack "logs:A"); (Handler 0, ack "logs:*")];
              c_failed := [] |}
           0 1
           {| f_conn := 0; f_channel := "logs:A"; f_pc := FWaiting; f_queue := [];
              f_since := 0; f_recv := [] |}
           {| f_conn := 0; f_channel := "logs:*"; f_pc := FWaiting; f_queue := [];
              f_since := 0; f_recv := [] |}
           "logs:A" (Build.logMessage "hi")); premise.
Defined.

Lemma published_log_line_reaches_subscribed_viewer_witness :
  exists channel payload s' conn',
    Build.w_broker (snd (Build.publishLog {| Build.projectID := "A" |} "hi" (Build.fresh accepting)))
      = [] ++ [(channel, payload)] /\
    Api.run glob_match (after joined) [Publish channel payload; Receive 0; WriteDone 0 true]
      = Some s' /\
    conns s' !! 0 = Some conn' /\
    c_sent conn' = [(Handler 0, ack "logs:A")] ++
      [(Forwarder 0,
        {[ "message" := "{" +:+ q +:+ "log" +:+ q +:+ ":" +:+ q +:+ "hi" +:+ q +:+ "}" ]})].
Proof.
  apply (published_log_line_reaches_subscribed_viewer glob_match
           {| Build.projectID := "A" |} "hi" (Build.fresh accepting) (after joined) 0
           {| f_conn := 0; f_channel := "logs:A"; f_pc := FWaiting; f_queue := [];
              f_since := 0; f_recv := [] |}
           {| c_open := true; c_pc := HReading;
              c_sent := [(Handler 0, ack "logs:A")]; c_failed := [] |}); premise.
Defined.

End MoreRuns.
